(** * Canvas geometry utilities and the bounded batch runner

    A shallow embedding of the image-geometry helpers of [src/lib/utils.ts]
    ([resizeImageToAspectRatio], [cropImageToAspectRatio]), of the print-sheet
    tiler [createPrintSheet] and of the worker-pool batch runners
    ([handleGenerateClick], [handleRegeneratePhoto] in
    [src/components/Photoshoot.tsx], [handleGenerateAll] of the product scene
    generator), followed by the properties the specification states about
    them.

    Numbers.  A JavaScript number is modelled by [JS.number]: a rational,
    [+Infinity], [-Infinity] or [NaN].  The operations [JS.add], [JS.mul],
    [JS.div] give the exact result; [JS.rnd] rounds a result to the nearest
    double.  [cropImageToAspectRatio], whose canvas size is the integer part
    of a product or a quotient, is modelled with every operation rounded.
    Elsewhere the operations are exact, and the sign of zero is not modelled
    (a zero divisor counts as [+0]).

    Browser.  Image decoding, the availability of a 2D context and the
    encoder behind [canvas.toDataURL] are the fields of an environment
    record [Browser]; a canvas is the pair of its integer dimensions and the
    list of drawing calls it received.

    Event loop.  The batch runners are asynchronous functions on a single
    thread.  A worker of the pool is modelled by its control point (head of
    the loop, suspended on a request, returned) and the pool by a step
    function that runs one worker from one suspension to the next; the order
    in which requests settle is left open, so a property is proved for every
    list of worker indices.  How a request settles is a parameter
    ([work : Job -> Promise string]). *)

From Stdlib Require Import QArith Qround Qabs Qpower Lqa ZArith Lia Ascii String.
From stdpp Require Import gmap strings list pretty.

Open Scope Q_scope.

(** ** JavaScript numbers *)

Module JS.

Inductive number : Type :=
| Fin (q : Q)
| PosInf
| NegInf
| NaN.

(** The infinity (or [NaN]) selected by the sign of a finite operand. *)
Definition inf_of_sign (c : comparison) : number :=
  match c with
  | Gt => PosInf
  | Lt => NegInf
  | Eq => NaN
  end.

Definition neg (x : number) : number :=
  match x with
  | Fin q => Fin (- q)
  | PosInf => NegInf
  | NegInf => PosInf
  | NaN => NaN
  end.

Definition mul (x y : number) : number :=
  match x, y with
  | NaN, _ | _, NaN => NaN
  | Fin a, Fin b => Fin (a * b)
  | Fin a, PosInf | PosInf, Fin a => inf_of_sign (a ?= 0)
  | Fin a, NegInf | NegInf, Fin a => inf_of_sign (0 ?= a)
  | PosInf, PosInf | NegInf, NegInf => PosInf
  | PosInf, NegInf | NegInf, PosInf => NegInf
  end.

Definition div (x y : number) : number :=
  match x, y with
  | NaN, _ | _, NaN => NaN
  | Fin a, Fin b => if Qeq_bool b 0 then inf_of_sign (a ?= 0) else Fin (a / b)
  | Fin _, PosInf | Fin _, NegInf => Fin 0
  | PosInf, Fin b => match b ?= 0 with Lt => NegInf | _ => PosInf end
  | NegInf, Fin b => match b ?= 0 with Lt => PosInf | _ => NegInf end
  | PosInf, PosInf | PosInf, NegInf | NegInf, PosInf | NegInf, NegInf => NaN
  end.

Definition add (x y : number) : number :=
  match x, y with
  | NaN, _ | _, NaN => NaN
  | Fin a, Fin b => Fin (a + b)
  | PosInf, NegInf | NegInf, PosInf => NaN
  | PosInf, _ | _, PosInf => PosInf
  | NegInf, _ | _, NegInf => NegInf
  end.

Definition sub (x y : number) : number := add x (neg y).

(** [Math.abs] *)
Definition abs (x : number) : number :=
  match x with
  | Fin q => Fin (Qabs q)
  | PosInf | NegInf => PosInf
  | NaN => NaN
  end.

(** [x < y]: false as soon as one side is [NaN]. *)
Definition lt (x y : number) : bool :=
  match x, y with
  | NaN, _ | _, NaN => false
  | Fin a, Fin b => match a ?= b with Lt => true | _ => false end
  | NegInf, NegInf | PosInf, _ | _, NegInf => false
  | NegInf, _ | _, PosInf => true
  end.

(** [x > y] *)
Definition gt (x y : number) : bool := lt y x.

(** [x === y] on numbers. *)
Definition strict_eq (x y : number) : bool :=
  match x, y with
  | Fin a, Fin b => Qeq_bool a b
  | PosInf, PosInf | NegInf, NegInf => true
  | _, _ => false
  end.

(** [Math.floor] *)
Definition floor (x : number) : number :=
  match x with
  | Fin q => Fin (inject_Z (Qfloor q))
  | _ => x
  end.

(** [Math.round]: the nearest integer, a tie going up. *)
Definition round (x : number) : number :=
  match x with
  | Fin q => Fin (inject_Z (Qfloor (q + (1 # 2))))
  | _ => x
  end.

(** A destructured array element is a number or [undefined] ([None]);
    the global [isNaN] converts [undefined] to [NaN] first. *)
Definition isNaN (v : option number) : bool :=
  match v with
  | Some NaN | None => true
  | Some _ => false
  end.

(** [v === 0] for such an element. *)
Definition is_zero (v : option number) : bool :=
  match v with
  | Some x => strict_eq x (Fin 0)
  | None => false
  end.

(** *** [Number(string)]

    The StringNumericLiteral grammar over ASCII: surrounding white space is
    dropped, the empty string is [0], then an optionally signed decimal
    literal (digits, fraction, exponent) or [Infinity], or an unsigned
    [0x], [0o] or [0b] integer; anything else is [NaN]. *)

Definition is_white_space (c : ascii) : bool :=
  let n := nat_of_ascii c in
  ((9 <=? n) && (n <=? 13) || (n =? 32))%nat.

Fixpoint drop_white (s : list ascii) : list ascii :=
  match s with
  | c :: s' => if is_white_space c then drop_white s' else s
  | [] => []
  end.

Definition trim (s : list ascii) : list ascii :=
  rev (drop_white (rev (drop_white s))).

(** The value of a digit in the given radix. *)
Definition digit_of (radix : Z) (c : ascii) : option Z :=
  let n := Z.of_nat (nat_of_ascii c) in
  let v :=
    if ((48 <=? n) && (n <=? 57))%Z then Some (n - 48)%Z
    else if ((97 <=? n) && (n <=? 102))%Z then Some (n - 87)%Z
    else if ((65 <=? n) && (n <=? 70))%Z then Some (n - 55)%Z
    else None in
  match v with
  | Some d => if (d <? radix)%Z then Some d else None
  | None => None
  end.

(** Reads the longest prefix of digits: its value, its length, the rest. *)
Fixpoint read_digits (radix : Z) (s : list ascii) (acc : Z) (len : nat)
  : Z * nat * list ascii :=
  match s with
  | c :: s' =>
      match digit_of radix c with
      | Some d => read_digits radix s' (acc * radix + d)%Z (S len)
      | None => (acc, len, s)
      end
  | [] => (acc, len, [])
  end.

Definition radix_integer (radix : Z) (s : list ascii) : number :=
  match read_digits radix s 0%Z 0%nat with
  | (v, S _, []) => Fin (inject_Z v)
  | _ => NaN
  end.

Definition is_exp_mark (c : ascii) : bool :=
  let n := nat_of_ascii c in ((n =? 101) || (n =? 69))%nat.

(** The exponent part, if any: [Some e] when the rest of the literal is a
    well-formed exponent (or empty, [e = 0]). *)
Definition read_exponent (s : list ascii) : option Z :=
  match s with
  | [] => Some 0%Z
  | c :: s' =>
      if is_exp_mark c then
        let '(sign, ds) :=
          match s' with
          | "+"%char :: r => (1%Z, r)
          | "-"%char :: r => ((-1)%Z, r)
          | _ => (1%Z, s')
          end in
        match read_digits 10 ds 0%Z 0%nat with
        | (e, S _, []) => Some (sign * e)%Z
        | _ => None
        end
      else None
  end.

Definition unsigned_decimal (s : list ascii) : number :=
  let '(ip, n1, r1) := read_digits 10 s 0%Z 0%nat in
  let '(fp, n2, r2) :=
    match r1 with
    | "."%char :: r => read_digits 10 r 0%Z 0%nat
    | _ => (0%Z, 0%nat, r1)
    end in
  match (n1 + n2)%nat with
  | O => NaN
  | S _ =>
      match read_exponent r2 with
      | Some e =>
          Fin ((inject_Z ip + inject_Z fp / inject_Z (10 ^ Z.of_nat n2))
               * Qpower 10 e)
      | None => NaN
      end
  end.

Definition Infinity_literal : list ascii := list_ascii_of_string "Infinity".

Definition unsigned_literal (s : list ascii) : number :=
  if bool_decide (s = Infinity_literal) then PosInf else unsigned_decimal s.

Definition StringToNumber (s : list ascii) : number :=
  match trim s with
  | [] => Fin 0
  | "0"%char :: "x"%char :: r | "0"%char :: "X"%char :: r => radix_integer 16 r
  | "0"%char :: "o"%char :: r | "0"%char :: "O"%char :: r => radix_integer 8 r
  | "0"%char :: "b"%char :: r | "0"%char :: "B"%char :: r => radix_integer 2 r
  | "+"%char :: r => unsigned_literal r
  | "-"%char :: r => neg (unsigned_literal r)
  | t => unsigned_literal t
  end.

Definition Number (s : string) : number :=
  StringToNumber (list_ascii_of_string s).

(** [s.split(sep)] for a one-character separator. *)
Fixpoint split_chars (sep : ascii) (cur : list ascii) (s : list ascii)
  : list string :=
  match s with
  | [] => [string_of_list_ascii (rev cur)]
  | c :: s' =>
      if bool_decide (c = sep)
      then string_of_list_ascii (rev cur) :: split_chars sep [] s'
      else split_chars sep (c :: cur) s'
  end.

Definition split (sep : ascii) (s : string) : list string :=
  split_chars sep [] (list_ascii_of_string s).

(** [new Error(message)], or any other thrown value. *)
Inductive thrown : Type :=
| Error (message : string)
| NotAnError.

(** A settled promise. *)
Inductive Promise (A : Type) : Type :=
| Resolved (a : A)
| Rejected (e : thrown).

Arguments Resolved {A} a.
Arguments Rejected {A} e.

(** *** Rounding to a double

    An arithmetic operation on doubles returns the exact result rounded to
    the nearest double (IEEE 754 binary64, a tie going to the even
    significand, values below the normal range on the subnormal grid, a
    result that rounds to [2 ^ 1024] or more becoming infinite).
    [round_double] is this rounding on the rationals, and [rnd (op x y)] is
    the operation [op] as the program computes it.  It is written out where
    an integer the program produces depends on it: the sides of the crop
    rectangle, which the canvas truncates. *)

(** The binade of a positive rational: [2 ^ ilog2 q <= q < 2 ^ (ilog2 q + 1)]. *)
Definition ilog2 (q : Q) : Z :=
  let e := (Z.log2 (Qnum q) - Z.log2 (Zpos (Qden q)))%Z in
  if Qle_bool (2 ^ e) q then e else (e - 1)%Z.

(** The nearest integer, a tie going to the even one. *)
Definition round_half_even (q : Q) : Z :=
  let f := Qfloor q in
  match Qcompare (q - inject_Z f) (1 # 2) with
  | Lt => f
  | Gt => (f + 1)%Z
  | Eq => if Z.even f then f else (f + 1)%Z
  end.

(** The exponent of the last place of the doubles around a positive [q]: 53
    significant bits, and no exponent below that of the subnormals. *)
Definition ulp_exponent (q : Q) : Z := Z.max (ilog2 q - 52) (-1074).

(** The multiple of [2 ^ ulp_exponent q] nearest to a positive [q]. *)
Definition nearest (q : Q) : Q :=
  let e := ulp_exponent q in
  inject_Z (round_half_even (q / 2 ^ e)) * 2 ^ e.

Definition round_double (q : Q) : number :=
  match Qcompare q 0 with
  | Eq => Fin 0
  | Gt => let v := nearest q in
          if Qle_bool (2 ^ 1024) v then PosInf else Fin v
  | Lt => let v := nearest (- q) in
          if Qle_bool (2 ^ 1024) v then NegInf else Fin (- v)
  end.

(** The double a result is stored as. *)
Definition rnd (x : number) : number :=
  match x with
  | Fin q => round_double q
  | _ => x
  end.

(** The conversion of a number to a WebIDL [unsigned long]. *)
Definition ToUint32 (x : number) : Z :=
  match x with
  | Fin q => ((if Qle_bool 0 q then Qfloor q else Qceiling q) mod 2 ^ 32)%Z
  | _ => 0%Z
  end.

End JS.

Import JS.

(** ** The browser: images and canvases *)

(** A decoded [HTMLImageElement]: its source and its pixel dimensions. *)
Record Image : Type := {
  src : string;
  width : Z;
  height : Z
}.

(** A call received by a 2D context. *)
Inductive DrawOp : Type :=
| fillRect (fillStyle : string) (x y w h : number)
| drawImage5 (img : Image) (dx dy dw dh : number)
| drawImage9 (img : Image) (sx sy sw sh dx dy dw dh : number).

Record Canvas : Type := {
  canvas_width : Z;
  canvas_height : Z;
  calls : list DrawOp
}.

Record Browser : Type := {
  (** [img.src = url]: [Some] when [onload] fires, [None] when [onerror] does *)
  decode : string -> option Image;
  (** whether [canvas.getContext('2d')] returns a context *)
  has_context : bool;
  (** [canvas.toDataURL(type, quality)] *)
  toDataURL : Canvas -> string -> Q -> string
}.

(** Assigning a number to [canvas.width] or [canvas.height]: the value is
    converted to an [unsigned long], and a result above 2^31 - 1 falls back
    to the attribute's default (300 for the width, 150 for the height). *)
Definition set_dimension (default : Z) (x : number) : Z :=
  let n := ToUint32 x in
  if (2147483647 <? n)%Z then default else n.

Definition of_px (n : Z) : number := Fin (inject_Z n).

(** ** [src/lib/utils.ts] *)

Module Utils.

(** [const [wRatio, hRatio] = aspectRatio.split(':').map(Number)] *)
Definition ratio_components (aspectRatio : string)
  : option number * option number :=
  let parts := map Number (split ":" aspectRatio) in
  (parts !! 0%nat, parts !! 1%nat).

(** The value of a component in arithmetic: [undefined] becomes [NaN]. *)
Definition component (v : option number) : number :=
  match v with
  | Some x => x
  | None => NaN
  end.

(** The size of the canvas before scaling (the pillarbox / letterbox
    branch of [resizeImageToAspectRatio]). *)
Definition paddedSize (targetRatio origWidth origHeight origRatio : number)
  : number * number :=
  if gt targetRatio origRatio
  then (mul origHeight targetRatio, origHeight)
  else (origWidth, div origWidth targetRatio).

Definition MAX_DIMENSION : number := Fin 1024.

Definition scaleFor (canvasWidth canvasHeight : number) : number :=
  if gt canvasWidth MAX_DIMENSION || gt canvasHeight MAX_DIMENSION
  then
    if gt canvasWidth canvasHeight
    then div MAX_DIMENSION canvasWidth
    else div MAX_DIMENSION canvasHeight
  else Fin 1.

(** The canvas drawn by the [onload] handler when the image is padded. *)
Definition paddedCanvas (img : Image) (targetRatio : number) : Canvas :=
  let origWidth := of_px (width img) in
  let origHeight := of_px (height img) in
  let origRatio := div origWidth origHeight in
  let '(canvasWidth, canvasHeight) :=
    paddedSize targetRatio origWidth origHeight origRatio in
  let scale := scaleFor canvasWidth canvasHeight in
  let finalCanvasWidth := round (mul canvasWidth scale) in
  let finalCanvasHeight := round (mul canvasHeight scale) in
  let finalImgWidth := round (mul origWidth scale) in
  let finalImgHeight := round (mul origHeight scale) in
  let drawX := div (sub finalCanvasWidth finalImgWidth) (Fin 2) in
  let drawY := div (sub finalCanvasHeight finalImgHeight) (Fin 2) in
  {| canvas_width := set_dimension 300 finalCanvasWidth;
     canvas_height := set_dimension 150 finalCanvasHeight;
     calls :=
       [ fillRect "#000000" (Fin 0) (Fin 0) finalCanvasWidth finalCanvasHeight;
         drawImage9 img (Fin 0) (Fin 0) origWidth origHeight
                    drawX drawY finalImgWidth finalImgHeight ] |}.

Definition format_error : thrown := Error "Invalid aspect ratio format".

Definition resizeImageToAspectRatio (b : Browser) (dataUrl aspectRatio : string)
  : Promise string :=
  let '(wRatio, hRatio) := ratio_components aspectRatio in
  if isNaN wRatio || isNaN hRatio || is_zero hRatio
  then Rejected format_error
  else
    let targetRatio := div (component wRatio) (component hRatio) in
    match decode b dataUrl with
    | None => Rejected (Error "Failed to load image for resizing.")
    | Some img =>
        if negb (has_context b)
        then Rejected (Error "Could not get canvas context")
        else
          let origRatio := div (of_px (width img)) (of_px (height img)) in
          if lt (abs (sub targetRatio origRatio)) (Fin (1 # 100))
          then Resolved dataUrl
          else Resolved (toDataURL b (paddedCanvas img targetRatio)
                                   "image/jpeg" (95 # 100))
    end.

(** The crop rectangle [(cropX, cropY, cropWidth, cropHeight)], each
    operation rounded to a double. *)
Definition cropRect (origWidth origHeight targetAspectRatio : number)
  : number * number * number * number :=
  let origRatio := rnd (div origWidth origHeight) in
  if gt origRatio targetAspectRatio
  then
    let cropHeight := origHeight in
    let cropWidth := rnd (mul origHeight targetAspectRatio) in
    (rnd (div (rnd (sub origWidth cropWidth)) (Fin 2)), Fin 0,
     cropWidth, cropHeight)
  else
    let cropWidth := origWidth in
    let cropHeight := rnd (div origWidth targetAspectRatio) in
    (Fin 0, rnd (div (rnd (sub origHeight cropHeight)) (Fin 2)),
     cropWidth, cropHeight).

Definition croppedCanvas (img : Image) (targetAspectRatio : number) : Canvas :=
  let '(cropX, cropY, cropWidth, cropHeight) :=
    cropRect (of_px (width img)) (of_px (height img)) targetAspectRatio in
  {| canvas_width := set_dimension 300 cropWidth;
     canvas_height := set_dimension 150 cropHeight;
     calls := [ drawImage9 img cropX cropY cropWidth cropHeight
                           (Fin 0) (Fin 0) cropWidth cropHeight ] |}.

Definition cropImageToAspectRatio (b : Browser) (dataUrl : string)
  (targetAspectRatio : number) : Promise string :=
  match decode b dataUrl with
  | None => Rejected (Error "Failed to load image for cropping.")
  | Some img =>
      if negb (has_context b)
      then Rejected (Error "Could not get canvas context")
      else Resolved (toDataURL b (croppedCanvas img targetAspectRatio)
                               "image/jpeg" (95 # 100))
  end.

End Utils.

(** ** The print sheet ([lib/printUtils]) *)

Module PrintUtils.

Definition DPI : number := Fin 300.
Definition PAPER_WIDTH_INCHES : number := Fin 4.
Definition PAPER_HEIGHT_INCHES : number := Fin 6.
Definition CM_TO_INCH : number := div (Fin 1) (Fin (254 # 100)).

(** The grid computed between "Calculate grid layout" and the drawing
    loop. *)
Record Grid : Type := {
  cols : number;
  rows : number;
  totalGridWidth : number;
  totalGridHeight : number;
  startX : number;
  startY : number
}.

Definition gridLayout
  (paperWidthPx paperHeightPx portraitWidthPx portraitHeightPx padding : number)
  : Grid :=
  let cols :=
    floor (div (sub paperWidthPx padding) (add portraitWidthPx padding)) in
  let rows :=
    floor (div (sub paperHeightPx padding) (add portraitHeightPx padding)) in
  let totalGridWidth :=
    add (mul cols portraitWidthPx) (mul (sub cols (Fin 1)) padding) in
  let totalGridHeight :=
    add (mul rows portraitHeightPx) (mul (sub rows (Fin 1)) padding) in
  {| cols := cols; rows := rows;
     totalGridWidth := totalGridWidth; totalGridHeight := totalGridHeight;
     startX := div (sub paperWidthPx totalGridWidth) (Fin 2);
     startY := div (sub paperHeightPx totalGridHeight) (Fin 2) |}.

(** [cols === 0 || rows === 0] *)
Definition emptyGrid (g : Grid) : bool :=
  strict_eq (cols g) (Fin 0) || strict_eq (rows g) (Fin 0).

(** The number of iterations of [for (let i = 0; i < bound; i++)]; [None]
    when the loop never ends. *)
Definition iterations (bound : number) : option nat :=
  match bound with
  | Fin q => Some (Z.to_nat (Qceiling q))
  | PosInf => None
  | NegInf | NaN => Some 0%nat
  end.

(** The [drawImage] calls of the two nested loops, row by row. *)
Definition cellCalls (img : Image) (g : Grid)
  (portraitWidthPx portraitHeightPx padding : number) (nrows ncols : nat)
  : list DrawOp :=
  row ← seq 0 nrows;
  col ← seq 0 ncols;
  [ drawImage5 img
      (add (startX g) (mul (of_px (Z.of_nat col)) (add portraitWidthPx padding)))
      (add (startY g) (mul (of_px (Z.of_nat row)) (add portraitHeightPx padding)))
      portraitWidthPx portraitHeightPx ].

(** How a call of [createPrintSheet] ends. *)
Inductive Completion : Type :=
| Returns (dataUrl : string)
| Throws (e : thrown)
| Hangs.

(** [createPrintSheet]: the canvas as the call leaves it, and how the call
    ends.  A bound of [Infinity] on a loop that is entered makes the call
    hang; the canvas component then only records what was drawn before the
    loops. *)
Definition createPrintSheet (b : Browser) (portraitDataUrl : string)
  (targetPortraitWidthCm targetPortraitHeightCm : number)
  : Canvas * Completion :=
  let paperWidthPx := mul PAPER_WIDTH_INCHES DPI in
  let paperHeightPx := mul PAPER_HEIGHT_INCHES DPI in
  let portraitWidthPx := mul (mul targetPortraitWidthCm CM_TO_INCH) DPI in
  let portraitHeightPx := mul (mul targetPortraitHeightCm CM_TO_INCH) DPI in
  let canvas0 :=
    {| canvas_width := set_dimension 300 paperWidthPx;
       canvas_height := set_dimension 150 paperHeightPx;
       calls := [] |} in
  if negb (has_context b)
  then (canvas0, Throws (Error "Could not get 2D canvas context for print sheet"))
  else
    let background :=
      fillRect "#FFFFFF" (Fin 0) (Fin 0) paperWidthPx paperHeightPx in
    let canvas1 :=
      {| canvas_width := canvas_width canvas0;
         canvas_height := canvas_height canvas0;
         calls := [background] |} in
    match decode b portraitDataUrl with
    | None =>
        (canvas1,
         Throws (Error ("Failed to load image for print sheet: "
                        +:+ substring 0 50 portraitDataUrl +:+ "...")))
    | Some portraitImage =>
        let padding := mul (mul (Fin (1 # 10)) CM_TO_INCH) DPI in
        let g := gridLayout paperWidthPx paperHeightPx
                            portraitWidthPx portraitHeightPx padding in
        if emptyGrid g
        then (canvas1,
              Throws (Error "Portrait size is too large to fit on a 4x6 inch paper."))
        else
          match iterations (rows g), iterations (cols g) with
          | Some nrows, Some ncols =>
              let canvas2 :=
                {| canvas_width := canvas_width canvas0;
                   canvas_height := canvas_height canvas0;
                   calls := background ::
                     cellCalls portraitImage g portraitWidthPx portraitHeightPx
                               padding nrows ncols |} in
              (canvas2, Returns (toDataURL b canvas2 "image/jpeg" (95 # 100)))
          | Some O, None =>
              (canvas1, Returns (toDataURL b canvas1 "image/jpeg" (95 # 100)))
          | _, _ => (canvas1, Hangs)
          end
    end.

(** The grid [createPrintSheet] computes for a portrait size. *)
Definition sheetGrid (targetPortraitWidthCm targetPortraitHeightCm : number)
  : Grid :=
  gridLayout (mul PAPER_WIDTH_INCHES DPI) (mul PAPER_HEIGHT_INCHES DPI)
             (mul (mul targetPortraitWidthCm CM_TO_INCH) DPI)
             (mul (mul targetPortraitHeightCm CM_TO_INCH) DPI)
             (mul (mul (Fin (1 # 10)) CM_TO_INCH) DPI).

(** The portrait is wider, or taller, than the paper. *)
Definition largerThanPaper
  (targetPortraitWidthCm targetPortraitHeightCm : number) : bool :=
  gt (mul (mul targetPortraitWidthCm CM_TO_INCH) DPI)
     (mul PAPER_WIDTH_INCHES DPI)
  || gt (mul (mul targetPortraitHeightCm CM_TO_INCH) DPI)
        (mul PAPER_HEIGHT_INCHES DPI).

End PrintUtils.

(** ** The batch runners *)

(** [status: 'pending' | 'done' | 'error'] *)
Inductive ImageStatus : Type :=
| pending
| done
| error.

#[export] Instance ImageStatus_eq_dec : EqDecision ImageStatus.
Proof. solve_decision. Defined.

(** An entry of the [generatedImages] record. *)
Record GeneratedImage : Type := {
  status : ImageStatus;
  url : option string;
  error_message : option string
}.

Definition pending_entry : GeneratedImage :=
  {| status := pending; url := None; error_message := None |}.

(** [err instanceof Error ? err.message : "An unknown error occurred."] *)
Definition errorMessage (err : thrown) : string :=
  match err with
  | Error message => message
  | NotAnError => "An unknown error occurred."
  end.

(** The entry written when the awaited work settles: the [try] branch on a
    result, the [catch] branch on a rejection. *)
Definition settled_entry (outcome : Promise string) : GeneratedImage :=
  match outcome with
  | Resolved resultUrl =>
      {| status := done; url := Some resultUrl; error_message := None |}
  | Rejected err =>
      {| status := error; url := None; error_message := Some (errorMessage err) |}
  end.

Definition is_terminal (g : GeneratedImage) : bool :=
  match status g with
  | pending => false
  | done | error => true
  end.

(** [addImageToLibrary] of the media library context. *)
Definition addImageToLibrary (imageUrl : string) (prev : list string)
  : list string :=
  if bool_decide (imageUrl ∈ prev) then prev else imageUrl :: prev.

(** *** The worker pool

    [Array(concurrencyLimit).fill(null).map(async () => { while
    (queue.length > 0) { const item = queue.shift(); if (item) { await
    process(item); } } })] followed by [await Promise.all(workers)].

    The event loop runs one worker at a time, from one [await] to the next.
    A worker is at the head of its loop, suspended on the work of an item,
    or has left the loop.  [step i] runs worker [i] up to its next
    suspension; which worker runs next (which request settles first) is not
    fixed, so an execution is a list of worker indices. *)

Module Pool.

Section Pool.

Context {Job : Type}.

(** The key of a job in [generatedImages]. *)
Variable job_id : Job -> string.
(** Whether a popped item reaches the awaited request (the [if (item)] test
    and the guards of its handler). *)
Variable starts : Job -> bool.
(** Whether the handler writes a [pending] entry before it awaits. *)
Variable marks_pending : bool.
(** Whether a result is added to the media library. *)
Variable to_library : bool.
(** How the request of a job settles. *)
Variable work : Job -> Promise string.

Inductive Worker : Type :=
| AtLoopHead
| Awaiting (j : Job)
| Exited.

Inductive Event : Type :=
| Started (id : string)
| Settled (id : string).

Record State : Type := {
  queue : list Job;
  workers : list Worker;
  generatedImages : gmap string GeneratedImage;
  library : list string;
  (** the requests started and settled so far, latest first *)
  events : list Event
}.

(** [const initial = {}; jobs.forEach(j => { initial[j.id] = { status:
    'pending' }; })] *)
Definition initialImages (jobs : list Job) : gmap string GeneratedImage :=
  foldl (fun m j => <[job_id j := pending_entry]> m) ∅ jobs.

Definition init (concurrencyLimit : nat) (jobs : list Job)
  (library0 : list string) : State :=
  {| queue := jobs;
     workers := replicate concurrencyLimit AtLoopHead;
     generatedImages := initialImages jobs;
     library := library0;
     events := [] |}.

(** The state updates made when the request of [j] settles. *)
Definition settle (j : Job) (s : State) : State :=
  {| queue := queue s;
     workers := workers s;
     generatedImages := <[job_id j := settled_entry (work j)]> (generatedImages s);
     library :=
       match work j with
       | Resolved resultUrl =>
           if to_library then addImageToLibrary resultUrl (library s)
           else library s
       | Rejected _ => library s
       end;
     events := Settled (job_id j) :: events s |}.

Definition set_worker (i : nat) (w : Worker) (s : State) : State :=
  {| queue := queue s;
     workers := <[i := w]> (workers s);
     generatedImages := generatedImages s;
     library := library s;
     events := events s |}.

(** Worker [i] runs until it suspends or returns; [None] when it has
    nothing left to run. *)
Definition step (i : nat) (s : State) : option State :=
  match workers s !! i with
  | Some AtLoopHead =>
      match queue s with
      | [] => Some (set_worker i Exited s)
      | j :: rest =>
          if starts j
          then Some
            {| queue := rest;
               workers := <[i := Awaiting j]> (workers s);
               generatedImages :=
                 if marks_pending
                 then <[job_id j := pending_entry]> (generatedImages s)
                 else generatedImages s;
               library := library s;
               events := Started (job_id j) :: events s |}
          else Some
            {| queue := rest;
               workers := workers s;
               generatedImages := generatedImages s;
               library := library s;
               events := events s |}
      end
  | Some (Awaiting j) => Some (set_worker i AtLoopHead (settle j s))
  | Some Exited | None => None
  end.

(** An execution: the workers that run, in order. *)
Fixpoint exec (schedule : list nat) (s : State) : option State :=
  match schedule with
  | [] => Some s
  | i :: schedule' =>
      match step i s with
      | Some s' => exec schedule' s'
      | None => None
      end
  end.

Definition is_exited (w : Worker) : bool :=
  match w with
  | Exited => true
  | _ => false
  end.

Definition is_awaiting (w : Worker) : bool :=
  match w with
  | Awaiting _ => true
  | _ => false
  end.

(** [Promise.all(workers)] has resolved. *)
Definition completed (s : State) : bool := forallb is_exited (workers s).

(** The requests in flight: started and not yet settled. *)
Fixpoint in_flight (evs : list Event) : Z :=
  match evs with
  | [] => 0
  | Started _ :: evs' => in_flight evs' + 1
  | Settled _ :: evs' => in_flight evs' - 1
  end%Z.

(** The number of entries in a terminal state. *)
Definition terminal_count (m : gmap string GeneratedImage) : nat :=
  size (filter (fun kv => is_terminal kv.2 = true) m).

(** The number of workers suspended on a request. *)
Fixpoint awaiting_count (ws : list Worker) : nat :=
  match ws with
  | [] => 0
  | w :: ws' => (if is_awaiting w then 1 else 0) + awaiting_count ws'
  end.

Definition flight_weight (w : Worker) : Z :=
  if is_awaiting w then 1%Z else 0%Z.

(** The steps a worker still has to take on its own account. *)
Definition weight (w : Worker) : nat :=
  match w with
  | Awaiting _ => 2
  | AtLoopHead => 1
  | Exited => 0
  end.

Fixpoint total_weight (ws : list Worker) : nat :=
  match ws with
  | [] => 0
  | w :: ws' => weight w + total_weight ws'
  end.

(** A bound on the number of steps left. *)
Definition remaining (s : State) : nat :=
  2 * length (queue s) + total_weight (workers s).

(** Workers never appear or disappear, and the requests in flight are
    exactly those the suspended workers wait for. *)
Definition flight_invariant (n : nat) (s : State) : Prop :=
  length (workers s) = n /\
  in_flight (events s) = Z.of_nat (awaiting_count (workers s)).

(** What every execution of a batch over [jobs] preserves. *)
Record invariant (jobs : list Job) (concurrencyLimit : nat) (s : State)
  : Prop := {
  inv_cover : forall j, j ∈ jobs ->
    j ∈ queue s \/ Awaiting j ∈ workers s
    \/ generatedImages s !! job_id j = Some (settled_entry (work j));
  inv_queue : forall j, j ∈ queue s -> j ∈ jobs;
  inv_await : forall j, Awaiting j ∈ workers s -> j ∈ jobs;
  inv_dom : dom (generatedImages s) = list_to_set (job_id <$> jobs);
  inv_exit : Exited ∈ workers s -> queue s = [];
  inv_size : length (workers s) = concurrencyLimit;
  inv_flight : in_flight (events s) = Z.of_nat (awaiting_count (workers s))
}.

End Pool.

End Pool.

(** *** [src/components/Photoshoot.tsx] *)

Module Photoshoot.

Record Style : Type := {
  style_id : string;
  prompt : string
}.

Section Photoshoot.

(** The forty entries of [PHOTO_STYLE_CATEGORIES], flattened. *)
Variable ALL_PHOTO_STYLES : list Style.

(** How [constructApiPayload] followed by [generateStyledImage] settles for
    a style prompt. *)
Variable generate : Style -> Promise string.

Definition concurrencyLimit : nat := 2.

Abbreviation State := (@Pool.State Style).

Definition step : nat -> State -> option State :=
  Pool.step style_id (fun _ => true) false true generate.

Definition exec : list nat -> State -> option State :=
  Pool.exec style_id (fun _ => true) false true generate.

(** [handleGenerateClick], up to [await Promise.all(workers)]: [None] when
    the guard returns at once. *)
Definition handleGenerateClick (uploadedImage : option string)
  (selectedStyles : list string) (library0 : list string) : option State :=
  if bool_decide (uploadedImage = None) || bool_decide (selectedStyles = [])
  then None
  else
    let stylesToGenerate :=
      filter (fun style => style_id style ∈ selectedStyles) ALL_PHOTO_STYLES in
    Some (Pool.init style_id concurrencyLimit stylesToGenerate library0).

(** [handleRegeneratePhoto] up to its first [await]: the guards, then the
    [pending] entry.  [None] when a guard returns. *)
Definition handleRegeneratePhoto_start (uploadedImage : option string)
  (photoId : string) (s : State) : option (Style * State) :=
  if bool_decide (uploadedImage = None)
     || bool_decide (status <$> Pool.generatedImages s !! photoId = Some pending)
  then None
  else
    match find (fun style => bool_decide (style_id style = photoId))
               ALL_PHOTO_STYLES with
    | None => None
    | Some style =>
        Some (style,
              {| Pool.queue := Pool.queue s;
                 Pool.workers := Pool.workers s;
                 Pool.generatedImages :=
                   <[photoId := pending_entry]> (Pool.generatedImages s);
                 Pool.library := Pool.library s;
                 Pool.events := Pool.events s |})
    end.

(** [handleRegeneratePhoto] after its request settled, on the state of that
    moment. *)
Definition handleRegeneratePhoto_settle (photoId : string)
  (outcome : Promise string) (s : State) : State :=
  {| Pool.queue := Pool.queue s;
     Pool.workers := Pool.workers s;
     Pool.generatedImages :=
       <[photoId := settled_entry outcome]> (Pool.generatedImages s);
     Pool.library :=
       match outcome with
       | Resolved resultUrl => addImageToLibrary resultUrl (Pool.library s)
       | Rejected _ => Pool.library s
       end;
     Pool.events := Pool.events s |}.

End Photoshoot.

End Photoshoot.

(** *** The product scene generator *)

Module ProductScene.

Record Angle : Type := {
  angle_id : string;
  labelKey : string;
  angle_prompt : string
}.

Definition ANGLE_OPTIONS : list Angle :=
  [ {| angle_id := "front"; labelKey := "productSceneGenerator.angles.front";
       angle_prompt := "Generate a photorealistic image of the product from a direct front view angle." |};
    {| angle_id := "back"; labelKey := "productSceneGenerator.angles.back";
       angle_prompt := "Generate a photorealistic image of the product from a direct back view angle." |};
    {| angle_id := "side_left"; labelKey := "productSceneGenerator.angles.side_left";
       angle_prompt := "Generate a photorealistic image of the product from the left side view." |};
    {| angle_id := "side_right"; labelKey := "productSceneGenerator.angles.side_right";
       angle_prompt := "Generate a photorealistic image of the product from the right side view." |};
    {| angle_id := "top"; labelKey := "productSceneGenerator.angles.top";
       angle_prompt := "Generate a photorealistic image of the product from a top-down angle (bird's-eye view)." |};
    {| angle_id := "bottom"; labelKey := "productSceneGenerator.angles.bottom";
       angle_prompt := "Generate a photorealistic image of the product from a bottom-up angle (worm's-eye view)." |};
    {| angle_id := "three_quarter"; labelKey := "productSceneGenerator.angles.three_quarter";
       angle_prompt := "Generate a photorealistic image of the product from a three-quarter angle, showing the front and one side." |};
    {| angle_id := "close_up"; labelKey := "productSceneGenerator.angles.close_up";
       angle_prompt := "Generate a close-up detail shot of the product, focusing on its texture, material, or a key feature." |};
    {| angle_id := "in_context"; labelKey := "productSceneGenerator.angles.in_context";
       angle_prompt := "Generate a photorealistic lifestyle image showing the product in a relevant, natural context (e.g., a shoe on a street, a mug on a table)." |} ].

Section ProductScene.

Variable uploadedImage : option string.

(** How [generateStyledImage] settles for an angle. *)
Variable generate : string -> Promise string.

Definition concurrencyLimit : nat := 3.

(** The worker's [if (angleId)] and the two guards of
    [handleGenerateSingle]. *)
Definition starts (angleId : string) : bool :=
  bool_decide (angleId ≠ "")
  && bool_decide (uploadedImage ≠ None)
  && bool_decide (angleId ∈ angle_id <$> ANGLE_OPTIONS).

Abbreviation State := (@Pool.State string).

Definition step : nat -> State -> option State :=
  Pool.step (fun angleId => angleId) starts true false generate.

Definition exec : list nat -> State -> option State :=
  Pool.exec (fun angleId => angleId) starts true false generate.

(** [handleGenerateAll], up to [await Promise.all(workers)]. *)
Definition handleGenerateAll (selectedAngles : list string) : option State :=
  if bool_decide (uploadedImage = None) || bool_decide (selectedAngles = [])
  then None
  else Some (Pool.init (fun angleId => angleId) concurrencyLimit
                       selectedAngles []).

End ProductScene.

End ProductScene.

(** ** More of the pool: what its trace and its library record *)

Module PoolTrace.

Section PoolTrace.

Context {Job : Type}.
Variable job_id : Job -> string.
Variable starts : Job -> bool.

(** The ids of the requests started so far, earliest first. *)
Fixpoint started (evs : list (@Pool.Event)) : list string :=
  match evs with
  | [] => []
  | Pool.Started id :: evs' => started evs' ++ [id]
  | Pool.Settled _ :: evs' => started evs'
  end.

(** The queue is what is left of the job list, and the requests started
    are those of the consumed items, in their order; a worker that has left
    its loop has seen the queue empty. *)
Definition order_invariant (jobs : list Job) (s : @Pool.State Job) : Prop :=
  (exists consumed,
     jobs = consumed ++ Pool.queue s /\
     started (Pool.events s)
     = job_id <$> filter (fun j => starts j = true) consumed) /\
  (Pool.Exited ∈ Pool.workers s -> Pool.queue s = []).

End PoolTrace.

End PoolTrace.

Module PoolStores.

Section PoolStores.

Context {Job : Type}.
Variable job_id : Job -> string.
Variable starts : Job -> bool.
Variable work : Job -> Promise string.

(** What a batch that adds its results to the media library keeps true of
    the library. *)
Record library_invariant (jobs : list Job) (library0 : list string)
  (s : @Pool.State Job) : Prop := {
  lib_nodup : NoDup library0 -> NoDup (Pool.library s);
  lib_grows : forall u, u ∈ library0 -> u ∈ Pool.library s;
  lib_origin : forall u, u ∈ Pool.library s ->
    u ∈ library0 \/ exists j, j ∈ jobs /\ work j = Resolved u;
  lib_results : forall j, j ∈ jobs ->
    j ∈ Pool.queue s \/ Pool.Awaiting j ∈ Pool.workers s
    \/ forall u, work j = Resolved u -> u ∈ Pool.library s;
  lib_queue : forall j, j ∈ Pool.queue s -> j ∈ jobs;
  lib_await : forall j, Pool.Awaiting j ∈ Pool.workers s -> j ∈ jobs
}.

(** What a batch keeps true of the items that never reach their request. *)
Record unstarted_invariant (jobs : list Job) (s : @Pool.State Job) : Prop := {
  uns_pending : forall j, j ∈ jobs -> starts j = false ->
    Pool.generatedImages s !! job_id j = Some pending_entry;
  uns_await : forall j, Pool.Awaiting j ∈ Pool.workers s ->
    j ∈ jobs /\ starts j = true
}.

End PoolStores.

End PoolStores.

(** ** The media library context and the selection lists *)

Module MediaLibrary.

(** [prev => prev.filter(img => !imageUrls.includes(img))] *)
Definition removeImagesFromLibrary (imageUrls prev : list string)
  : list string :=
  filter (fun img => img ∉ imageUrls) prev.

(** [setLibraryImages([])] *)
Definition clearLibrary (prev : list string) : list string := [].

End MediaLibrary.

Module Selection.

(** [prev => prev.includes(id) ? prev.filter(x => x !== id) : [...prev, id]]:
    the body shared by [toggleStyleSelection] of the photoshoot and
    [toggleAngle] of the product scene generator. *)
Definition toggle (id : string) (prev : list string) : list string :=
  if bool_decide (id ∈ prev)
  then filter (fun x => x ≠ id) prev
  else prev ++ [id].

Definition toggleStyleSelection : string -> list string -> list string := toggle.

Definition toggleAngle : string -> list string -> list string := toggle.

(** The selection after a sequence of clicks on option buttons, starting
    from the empty selection. *)
Definition after_clicks (clicks : list string) : list string :=
  foldl (fun prev id => toggleAngle id prev) [] clicks.

End Selection.

Module PhotoshootLibrary.

(** The three stores [handleDeleteFromLibrary] updates. *)
Record Stores : Type := {
  localLibrary : list string;
  mediaLibrary : list string;
  uploadedImage : option string
}.

Definition handleDeleteFromLibrary (imageUrlToDelete : string) (st : Stores)
  : Stores :=
  {| localLibrary := filter (fun img => img ≠ imageUrlToDelete) (localLibrary st);
     mediaLibrary :=
       if bool_decide (imageUrlToDelete ∈ mediaLibrary st)
       then MediaLibrary.removeImagesFromLibrary [imageUrlToDelete] (mediaLibrary st)
       else mediaLibrary st;
     uploadedImage :=
       if bool_decide (uploadedImage st = Some imageUrlToDelete)
       then None
       else uploadedImage st |}.

End PhotoshootLibrary.

(** ** Downloads of the photoshoot *)

Module Download.

(** [String.prototype.toLowerCase] on the ASCII letters. *)
Definition toLowerCase_char (c : ascii) : ascii :=
  let n := nat_of_ascii c in
  if ((65 <=? n) && (n <=? 90))%nat then ascii_of_nat (n + 32) else c.

(** The class [[a-z0-9]]. *)
Definition is_safe_char (c : ascii) : bool :=
  let n := nat_of_ascii c in
  ((97 <=? n) && (n <=? 122) || (48 <=? n) && (n <=? 57))%nat.

(** [s.replace(/[^a-z0-9]+/g, '-')]: every maximal run of characters
    outside the class becomes one dash.  [in_run] tells that the previous
    character was outside the class. *)
Fixpoint replace_unsafe_runs (in_run : bool) (s : list ascii) : list ascii :=
  match s with
  | [] => []
  | c :: s' =>
      if is_safe_char c then c :: replace_unsafe_runs false s'
      else if in_run then replace_unsafe_runs true s'
      else "-"%char :: replace_unsafe_runs true s'
  end.

(** [id.toLowerCase().replace(/[^a-z0-9]+/g, '-')], for ids written in
    ASCII. *)
Definition safeFileName (id : string) : string :=
  string_of_list_ascii
    (replace_unsafe_runs false (map toLowerCase_char (list_ascii_of_string id))).

Definition is_ascii (s : string) : Prop :=
  Forall (fun c => (nat_of_ascii c < 128)%nat) (list_ascii_of_string s).

(** [s] without the prefix [p], if it starts with it. *)
Fixpoint strip_prefix (p s : list ascii) : option (list ascii) :=
  match p, s with
  | [], _ => Some s
  | a :: p', c :: s' => if bool_decide (a = c) then strip_prefix p' s' else None
  | _ :: _, [] => None
  end.

(** Whether a line terminator occurs: LF, CR, or U+2028 / U+2029 in their
    UTF-8 form.  The [.] of a regular expression does not match these. *)
Fixpoint has_line_terminator (s : list ascii) : bool :=
  match s with
  | [] => false
  | c :: s' =>
      let n := nat_of_ascii c in
      if ((n =? 10) || (n =? 13))%nat then true
      else
        match s' with
        | c1 :: c2 :: _ =>
            if ((n =? 226) && (nat_of_ascii c1 =? 128)
                && ((nat_of_ascii c2 =? 168) || (nat_of_ascii c2 =? 169)))%nat
            then true
            else has_line_terminator s'
        | _ => has_line_terminator s'
        end
  end.

(** [dataUrl.match(re)] for the data-URL pattern of [handleDownloadAll]:
    [data:], one of the three image MIME types, [;base64,], then data up to
    the end of the string with no line terminator in it.  The result is the
    two groups, the MIME type and the data. *)
Definition data_url_match (dataUrl : string) : option (string * string) :=
  match strip_prefix (list_ascii_of_string "data:") (list_ascii_of_string dataUrl) with
  | None => None
  | Some rest =>
      let try (mime : string) : option (string * string) :=
        match strip_prefix (list_ascii_of_string (mime +:+ ";base64,")) rest with
        | Some data =>
            if has_line_terminator data then None
            else Some (mime, string_of_list_ascii data)
        | None => None
        end in
      match try "image/png" with
      | Some m => Some m
      | None =>
          match try "image/jpeg" with
          | Some m => Some m
          | None => try "image/webp"
          end
      end
  end.

(** The data URL of base64 data of an image type. *)
Definition image_url (ext data : string) : string :=
  "data:image/" +:+ ext +:+ ";base64," +:+ data.

(** [mimeType.split('/')[1] || 'jpg'] *)
Definition extension_of (mimeType : string) : string :=
  match split "/" mimeType !! 1%nat with
  | Some "" | None => "jpg"
  | Some e => e
  end%string.

(** [image.status === 'done' && image.url] *)
Definition done_with_url (entry : string * GeneratedImage) : bool :=
  match status entry.2, url entry.2 with
  | done, Some u => negb (bool_decide (u = ""%string))
  | _, _ => false
  end.

(** How far [handleDownloadAll] gets: it returns at a guard with an alert
    (its message key), or it builds the archive, given by the calls
    [zip.file(name, data)] in order.  What JSZip makes of these calls, and
    the [catch] branch for its failures, are outside this model. *)
Inductive DownloadAll : Type :=
| Alert (messageKey : string)
| Archive (files : list (string * string)).

(** [handleDownloadAll] on [Object.entries(generatedImages)]. *)
Definition handleDownloadAll (entries : list (string * GeneratedImage))
  (selectedStyles : list string) : DownloadAll :=
  let imagesToZip := List.filter done_with_url entries in
  if (length imagesToZip =? 0)%nat
  then Alert "photoshoot.noImagesGeneratedError"
  else if (length imagesToZip <? length selectedStyles)%nat
  then Alert "photoshoot.waitForAllImagesError"
  else
    Archive
      (omap (fun entry : string * GeneratedImage =>
               match url entry.2 ≫= data_url_match with
               | Some (mimeType, base64Data) =>
                   Some (safeFileName entry.1 +:+ "." +:+ extension_of mimeType,
                         base64Data)
               | None => None
               end)
            imagesToZip).

End Download.

(** ** The shake gesture of a card ([PolaroidCard]) *)

Module Shake.

Section Shake.

(** [Math.sqrt] *)
Variable sqrt : number -> number.

Record Refs : Type := {
  lastShakeTime : number;
  lastVelocity : number * number
}.

Definition initial : Refs :=
  {| lastShakeTime := Fin 0; lastVelocity := (Fin 0, Fin 0) |}.

Definition handleDragStart (refs : Refs) : Refs :=
  {| lastShakeTime := lastShakeTime refs; lastVelocity := (Fin 0, Fin 0) |}.

(** [handleDrag]: the references afterwards, and whether [onRegenerate(id)]
    was called.  [now] is [Date.now()]. *)
Definition handleDrag (hasOnRegenerate isMobile : bool)
  (velocity : number * number) (now : number) (refs : Refs) : Refs * bool :=
  if negb hasOnRegenerate || isMobile then (refs, false)
  else
    let velocityThreshold := Fin 1500 in
    let shakeCooldown := Fin 2000 in
    let '(x, y) := velocity in
    let '(prevX, prevY) := lastVelocity refs in
    let magnitude := sqrt (add (mul x x) (mul y y)) in
    let dotProduct := add (mul x prevX) (mul y prevY) in
    if gt magnitude velocityThreshold && lt dotProduct (Fin 0)
       && gt (sub now (lastShakeTime refs)) shakeCooldown
    then ({| lastShakeTime := now; lastVelocity := (x, y) |}, true)
    else ({| lastShakeTime := lastShakeTime refs; lastVelocity := (x, y) |}, false).

(** A sequence of drag events on a desktop card with a retry handler: the
    times at which a regeneration was requested, in order. *)
Fixpoint regenerations (events : list (number * number * number)) (refs : Refs)
  : list number :=
  match events with
  | [] => []
  | (velocity, now) :: events' =>
      let '(refs', fired) := handleDrag true false velocity now refs in
      if fired then now :: regenerations events' refs'
      else regenerations events' refs'
  end.

End Shake.

End Shake.

(** ** Print sheets of the portrait generator ([PortraitGenerator]) *)

Module PortraitGenerator.

Definition PRINT_SIZE_OPTIONS : list string :=
  ["2x3"; "3x4"; "4x6"; "3.5x4.5"; "5x5"].

(** [const [width, height] = printSize.split('x').map(Number)] *)
Definition size_components (printSize : string)
  : option number * option number :=
  let parts := map Number (split "x" printSize) in
  (parts !! 0%nat, parts !! 1%nat).

(** [const [wCm, hCm] = printSize.split('x').map(Number)] and
    [const targetAspectRatio = wCm / hCm] of [handleGenerate]: the ratio
    passed to [cropImageToAspectRatio]. *)
Definition targetAspectRatio (printSize : string) : number :=
  let '(wCm, hCm) := size_components printSize in
  rnd (div (Utils.component wCm) (Utils.component hCm)).

(** The state [handleGeneratePrintSheet] writes. *)
Record SheetState : Type := {
  printSheet : option string;
  error : option string;
  isCreatingSheet : bool
}.

(** [handleGeneratePrintSheet].  A call of [createPrintSheet] that hangs
    leaves [isCreatingSheet] set. *)
Definition handleGeneratePrintSheet (b : Browser)
  (generatedImage : option string) (printSize : string) (st : SheetState)
  : SheetState :=
  match generatedImage with
  | None | Some ""%string => st
  | Some portrait =>
      let '(width, height) := size_components printSize in
      match (PrintUtils.createPrintSheet b portrait (Utils.component width)
                                         (Utils.component height)).2 with
      | PrintUtils.Returns sheetUrl =>
          {| printSheet := Some sheetUrl; error := error st;
             isCreatingSheet := false |}
      | PrintUtils.Throws (Error message) =>
          {| printSheet := printSheet st;
             error := Some ("Sheet creation failed: " +:+ message);
             isCreatingSheet := false |}
      | PrintUtils.Throws NotAnError =>
          {| printSheet := printSheet st;
             error := Some "An unknown error occurred while creating the print sheet.";
             isCreatingSheet := false |}
      | PrintUtils.Hangs =>
          {| printSheet := printSheet st; error := error st;
             isCreatingSheet := true |}
      end
  end.

End PortraitGenerator.

(** ** Sample inputs *)

Definition sample_url : string := "data:image/png;base64,iVBORw0KGgo=".

(** A browser that decodes every URL to an 800 x 600 image. *)
Definition sample_browser : Browser :=
  {| decode := fun url => Some {| src := url; width := 800; height := 600 |};
     has_context := true;
     toDataURL := fun c type _ =>
       "data:" +:+ type +:+ ";"
       +:+ pretty (canvas_width c) +:+ "x" +:+ pretty (canvas_height c) |}.

Definition sample_image : Image :=
  {| src := sample_url; width := 800; height := 600 |}.

Definition sample_styles : list Photoshoot.Style :=
  [ {| Photoshoot.style_id := "smiling_portrait";
       Photoshoot.prompt := "A portrait of the person from the original photo, but they are smiling warmly at the camera. Maintain the exact same background, lighting, and overall style as the original image." |};
    {| Photoshoot.style_id := "laughing_portrait";
       Photoshoot.prompt := "A portrait of the person from the original photo, captured mid-laugh, looking genuinely happy. Maintain the exact same background, clothing, lighting, and overall style as the original image." |};
    {| Photoshoot.style_id := "serious_close_up";
       Photoshoot.prompt := "A dramatic close-up shot focusing on the person's face, with a serious and confident expression. Maintain the exact same background, clothing, lighting, and overall style as the original image." |} ].

Definition laughing_portrait : Photoshoot.Style :=
  {| Photoshoot.style_id := "laughing_portrait";
     Photoshoot.prompt := "A portrait of the person from the original photo, captured mid-laugh, looking genuinely happy. Maintain the exact same background, clothing, lighting, and overall style as the original image." |}.

(** A provider that refuses the second style and serves the others. *)
Definition sample_generate (style : Photoshoot.Style) : Promise string :=
  if bool_decide (Photoshoot.style_id style = "laughing_portrait")
  then Rejected (Error "Rate limit exceeded")
  else Resolved ("data:image/png;base64," +:+ Photoshoot.style_id style).

Definition sample_batch : @Pool.State Photoshoot.Style :=
  Pool.init Photoshoot.style_id Photoshoot.concurrencyLimit sample_styles [].

(** Both workers start a request, the first one settles and takes the last
    style, then everything settles and both workers leave their loop. *)
Definition sample_schedule : list nat := [0; 1; 0; 0; 1; 1; 0; 0]%nat.

Definition run_sample (schedule : list nat) : @Pool.State Photoshoot.Style :=
  match Photoshoot.exec sample_generate schedule sample_batch with
  | Some s => s
  | None => sample_batch
  end.

(** A selection of the product scene generator with an id that names no
    angle option. *)
Definition sample_angles : list string := ["front"; "hologram"; "top"].

(** A provider that refuses the top view and serves the others. *)
Definition sample_angle_generate (prompt : string) : Promise string :=
  if bool_decide (prompt = "top")
  then Rejected (Error "Rate limit exceeded")
  else Resolved ("data:image/png;base64," +:+ prompt).

(** The three workers take one id each, the two requests settle, and the
    workers leave their loop. *)
Definition sample_angle_schedule : list nat := [0; 1; 2; 0; 1; 2; 0; 2]%nat.

Definition run_angles (selectedAngles : list string) (schedule : list nat)
  : @Pool.State string :=
  let s0 := Pool.init (fun angleId => angleId) ProductScene.concurrencyLimit
                      selectedAngles [] in
  match ProductScene.exec (Some sample_url) sample_angle_generate schedule s0 with
  | Some s => s
  | None => s0
  end.

(** Clicks that select the front view, the top view, and unselect the front
    view again. *)
Definition sample_clicks : list string := ["front"; "top"; "front"].

(** A selection with an id that names no style, and the batch it starts:
    one job for two workers. *)
Definition sample_selection : list string := ["smiling_portrait"; "made_up"].

Definition run_selection (schedule : list nat) : @Pool.State Photoshoot.Style :=
  let s0 := Pool.init Photoshoot.style_id Photoshoot.concurrencyLimit
              (filter (fun style => Photoshoot.style_id style ∈ sample_selection)
                      sample_styles) [] in
  match Photoshoot.exec sample_generate schedule s0 with
  | Some s => s
  | None => s0
  end.

(** The entries of a job map with a data URL and a remote URL. *)
Definition sample_entries : list (string * GeneratedImage) :=
  [ ("smiling_portrait",
     {| status := done; url := Some sample_url; error_message := None |});
    ("serious_close_up",
     {| status := done; url := Some "https://example.com/serious.jpg";
        error_message := None |}) ].

(** [Math.sqrt] on the squares of whole numbers. *)
Definition sample_sqrt (x : number) : number :=
  match x with
  | Fin q => if Qle_bool 0 q then Fin (inject_Z (Z.sqrt (Qfloor q))) else NaN
  | PosInf => PosInf
  | NegInf | NaN => NaN
  end.

(** A card shaken back and forth: velocities and times of four drag
    events. *)
Definition sample_drags : list (number * number * number) :=
  [ (Fin 1200, Fin 1600, Fin 10000);
    (Fin (-1200), Fin (-1600), Fin 10016);
    (Fin 1200, Fin 1600, Fin 10032);
    (Fin (-1200), Fin (-1600), Fin 13000) ].

(** A 300 x 408 scan, and a browser that decodes every URL to it. *)
Definition sample_scan : Image :=
  {| src := sample_url; width := 300; height := 408 |}.

Definition sample_scan_browser : Browser :=
  {| decode := fun _ => Some sample_scan;
     has_context := true;
     toDataURL := toDataURL sample_browser |}.

(** * Properties *)

Import Utils PrintUtils.

(** ** Parsing *)

Example Number_16 : Number "16" = Fin (16 # 1).
Proof. reflexivity. Qed.

Example Number_fraction : Qeq_bool (match Number " -2.5e1 " with Fin q => q | _ => 0 end) (-25) = true.
Proof. reflexivity. Qed.

Example Number_empty : Number "" = Fin 0.
Proof. reflexivity. Qed.

Example Number_word : Number "wide" = NaN.
Proof. reflexivity. Qed.

Example split_ratio : split ":" "16:9" = ["16"; "9"]%string.
Proof. reflexivity. Qed.

Example split_empty : split ":" "" = [""]%string.
Proof. reflexivity. Qed.

(** ** Geometry *)

Lemma lt_Fin (a b : Q) : lt (Fin a) (Fin b) = true <-> a < b.
Proof.
  unfold lt. rewrite Qlt_alt. destruct (a ?= b); split; congruence.
Qed.

Lemma lt_Fin_false (a b : Q) : lt (Fin a) (Fin b) = false <-> b <= a.
Proof.
  unfold lt. destruct (a ?= b) eqn:E.
  - apply Qeq_alt in E. split; [intros _; lra | reflexivity].
  - apply Qlt_alt in E. split; [discriminate | intros; lra].
  - apply Qgt_alt in E. split; [intros _; lra | reflexivity].
Qed.

Lemma Qeq_bool_false (a b : Q) : ~ a == b -> Qeq_bool a b = false.
Proof.
  intros H. destruct (Qeq_bool a b) eqn:E; [|reflexivity].
  apply Qeq_bool_iff in E. contradiction.
Qed.

Lemma div_Fin (a b : Q) : ~ b == 0 -> div (Fin a) (Fin b) = Fin (a / b).
Proof. intros H. unfold div. now rewrite Qeq_bool_false. Qed.

Lemma inject_Z_pos (z : Z) : (0 < z)%Z -> 0 < inject_Z z.
Proof. intros H. change 0 with (inject_Z 0). now rewrite <- Zlt_Qlt. Qed.

Lemma lt_tolerance_finite (x y : number) :
  lt (abs (sub x y)) (Fin (1 # 100)) = true ->
  exists a b, x = Fin a /\ y = Fin b.
Proof.
  destruct x, y; simpl; try discriminate; eauto.
Qed.

(** C4.  When the image decodes, a 2D context exists and the source ratio
    differs from the parsed target ratio by less than 0.01,
    [resizeImageToAspectRatio] resolves with the very data URL it was given:
    nothing is padded and nothing is re-encoded.  (A difference below the
    tolerance is a finite number, so the ratio string has passed the format
    check.) *)
Theorem resize_tolerance_noop (b : Browser) (dataUrl aspectRatio : string) (img : Image) :
  decode b dataUrl = Some img ->
  has_context b = true ->
  lt (abs (sub (div (component (ratio_components aspectRatio).1)
                    (component (ratio_components aspectRatio).2))
               (div (of_px (width img)) (of_px (height img)))))
     (Fin (1 # 100)) = true ->
  resizeImageToAspectRatio b dataUrl aspectRatio = Resolved dataUrl.
Proof.
  intros Hdec Hctx Htol. unfold resizeImageToAspectRatio.
  destruct (ratio_components aspectRatio) as [wRatio hRatio]. simpl in Htol.
  destruct (lt_tolerance_finite _ _ Htol) as (t & o & Ht & Ho).
  assert (Hvalid : isNaN wRatio || isNaN hRatio || is_zero hRatio = false).
  { destruct wRatio as [[qw| | |]|], hRatio as [[q| | |]|]; simpl in *; try discriminate; try reflexivity.
    all: try (destruct (Qeq_bool q 0) eqn:E; [|reflexivity]; rewrite ?E in Ht).
    all: try (destruct (_ ?= 0); discriminate).
    all: try discriminate.
  }
  rewrite Hvalid, Hdec, Hctx. simpl. now rewrite Htol.
Qed.

Lemma gt_Fin (a b : Q) : gt (Fin a) (Fin b) = true <-> b < a.
Proof. unfold gt. apply lt_Fin. Qed.

Lemma gt_Fin_false (a b : Q) : gt (Fin a) (Fin b) = false <-> a <= b.
Proof. unfold gt. apply lt_Fin_false. Qed.

Lemma round_near (x : Q) :
  Qabs (inject_Z (Qfloor (x + (1 # 2))) - x) <= 1 # 2.
Proof.
  pose proof (Qfloor_le (x + (1 # 2))) as Hlo.
  pose proof (Qlt_floor (x + (1 # 2))) as Hhi.
  rewrite inject_Z_plus in Hhi. change (inject_Z 1) with 1 in Hhi.
  apply Qabs_case; intros; lra.
Qed.

Lemma round_range (x : Q) (n : Z) :
  0 <= x -> x <= inject_Z n ->
  (0 <= Qfloor (x + (1 # 2)) <= n)%Z.
Proof.
  intros H0 Hn. split.
  - change 0%Z with (Qfloor 0). apply Qfloor_resp_le. lra.
  - destruct (Qlt_le_dec (inject_Z n) (x + (1#2))) as [Hlt|Hle].
    + apply Z.lt_succ_r. rewrite Zlt_Qlt.
      eapply Qle_lt_trans; [apply Qfloor_le|].
      unfold Z.succ. rewrite inject_Z_plus. change (inject_Z 1) with 1. lra.
    + rewrite <- (Qfloor_Z n). now apply Qfloor_resp_le.
Qed.

Lemma set_dimension_small (d n : Z) :
  (0 <= n <= 2147483647)%Z -> set_dimension d (Fin (inject_Z n)) = n.
Proof.
  intros H. unfold set_dimension, ToUint32.
  assert (Hq : Qle_bool 0 (inject_Z n) = true).
  { apply Qle_bool_iff. change 0 with (inject_Z 0). rewrite <- Zle_Qle. lia. }
  rewrite Hq, Qfloor_Z, Z.mod_small by lia.
  destruct (2147483647 <? n)%Z eqn:E; [apply Z.ltb_lt in E; lia | reflexivity].
Qed.

(** For a positive unscaled canvas the scale is positive and brings both
    sides below [MAX_DIMENSION]. *)
Lemma scaleFor_spec (cw ch : Q) :
  0 < cw -> 0 < ch ->
  exists s, scaleFor (Fin cw) (Fin ch) = Fin s /\ 0 < s /\
            cw * s <= 1024 /\ ch * s <= 1024.
Proof.
  intros Hw Hh. unfold scaleFor, MAX_DIMENSION.
  destruct (gt (Fin cw) (Fin 1024)) eqn:E1; cbn [orb].
  - apply gt_Fin in E1.
    destruct (gt (Fin cw) (Fin ch)) eqn:E2.
    + apply gt_Fin in E2. rewrite div_Fin by lra.
      exists (1024 / cw). split; [reflexivity|].
      assert (0 < / cw) by now apply Qinv_lt_0_compat.
      assert (Hc : cw * (1024 / cw) == 1024) by (field; lra).
      assert (Hd : ch * (1024 / cw) == 1024 * (ch * / cw)) by (field; lra).
      assert (ch * / cw <= 1).
      { apply Qle_shift_div_r; lra. }
      repeat split; [unfold Qdiv; nra | lra | lra].
    + apply gt_Fin_false in E2. rewrite div_Fin by lra.
      exists (1024 / ch). split; [reflexivity|].
      assert (0 < / ch) by now apply Qinv_lt_0_compat.
      assert (Hc : ch * (1024 / ch) == 1024) by (field; lra).
      assert (Hd : cw * (1024 / ch) == 1024 * (cw * / ch)) by (field; lra).
      assert (cw * / ch <= 1).
      { apply Qle_shift_div_r; lra. }
      repeat split; [unfold Qdiv; nra | lra | lra].
  - apply gt_Fin_false in E1.
    destruct (gt (Fin ch) (Fin 1024)) eqn:E3.
    + apply gt_Fin in E3.
      assert (E2 : gt (Fin cw) (Fin ch) = false) by (apply gt_Fin_false; lra).
      rewrite E2, div_Fin by lra.
      exists (1024 / ch). split; [reflexivity|].
      assert (0 < / ch) by now apply Qinv_lt_0_compat.
      assert (Hc : ch * (1024 / ch) == 1024) by (field; lra).
      assert (Hd : cw * (1024 / ch) == 1024 * (cw * / ch)) by (field; lra).
      assert (cw * / ch <= 1).
      { apply Qle_shift_div_r; lra. }
      repeat split; [unfold Qdiv; nra | lra | lra].
    + apply gt_Fin_false in E3. exists 1. repeat split; lra.
Qed.

Lemma paddedSize_spec (r ow oh : Q) :
  0 < r -> 0 < ow -> 0 < oh ->
  exists cw ch,
    paddedSize (Fin r) (Fin ow) (Fin oh) (Fin (ow / oh)) = (Fin cw, Fin ch) /\
    0 < cw /\ 0 < ch /\ cw == r * ch.
Proof.
  intros Hr Hw Hh. unfold paddedSize.
  destruct (gt (Fin r) (Fin (ow / oh))).
  - exists (oh * r), oh. cbn [mul]. repeat split; [nra | lra | ring].
  - rewrite div_Fin by lra. exists ow, (ow / r).
    assert (0 < / r) by now apply Qinv_lt_0_compat.
    repeat split; [lra | unfold Qdiv; nra | field; lra].
Qed.

(** C5.  For a ratio string with positive components, an image with positive
    dimensions and a source ratio outside the tolerance,
    [resizeImageToAspectRatio] resolves with the encoding of [paddedCanvas];
    neither side of that canvas exceeds 1024 pixels, and its sides are within
    half a pixel (the rounding of [Math.round]) of a rectangle [w' x h'] whose
    ratio is exactly the target ratio. *)
Theorem resize_padded_dimensions (b : Browser) (dataUrl aspectRatio : string)
    (img : Image) (w h : Q) :
  ratio_components aspectRatio = (Some (Fin w), Some (Fin h)) ->
  0 < w -> 0 < h ->
  decode b dataUrl = Some img ->
  has_context b = true ->
  (0 < width img)%Z -> (0 < height img)%Z ->
  lt (abs (sub (div (Fin w) (Fin h))
               (div (of_px (width img)) (of_px (height img)))))
     (Fin (1 # 100)) = false ->
  let c := paddedCanvas img (div (Fin w) (Fin h)) in
  resizeImageToAspectRatio b dataUrl aspectRatio
    = Resolved (toDataURL b c "image/jpeg" (95 # 100)) /\
  (0 <= canvas_width c <= 1024)%Z /\
  (0 <= canvas_height c <= 1024)%Z /\
  exists w' h' : Q,
    w' == (w / h) * h' /\
    Qabs (inject_Z (canvas_width c) - w') <= 1 # 2 /\
    Qabs (inject_Z (canvas_height c) - h') <= 1 # 2.
Proof.
  intros Hcomp Hw Hh Hdec Hctx Hiw Hih Htol c. subst c.
  split.
  - unfold resizeImageToAspectRatio. rewrite Hcomp. cbn [isNaN is_zero orb strict_eq].
    rewrite Qeq_bool_false by lra. cbn [component].
    rewrite Hdec, Hctx. cbn [negb]. now rewrite Htol.
  - rewrite div_Fin by lra.
    assert (Hr : 0 < w / h).
    { assert (0 < / h) by now apply Qinv_lt_0_compat. unfold Qdiv. nra. }
    pose proof (inject_Z_pos _ Hiw) as How. pose proof (inject_Z_pos _ Hih) as Hoh.
    unfold paddedCanvas, of_px. rewrite (div_Fin (inject_Z (width img))) by lra.
    destruct (paddedSize_spec (w / h) _ _ Hr How Hoh) as (cw & ch & -> & Hcw & Hch & Hrat).
    destruct (scaleFor_spec cw ch Hcw Hch) as (s & -> & Hs & Hsw & Hsh).
    cbn [mul round canvas_width canvas_height].
    assert (Rw := round_range (cw * s) 1024 ltac:(nra) Hsw).
    assert (Rh := round_range (ch * s) 1024 ltac:(nra) Hsh).
    rewrite !set_dimension_small by lia.
    split; [exact Rw|]. split; [exact Rh|].
    exists (cw * s), (ch * s). split; [rewrite Hrat; ring|].
    split; apply round_near.
Qed.

Lemma inject_Z_le_int (z n : Z) : (z <= n)%Z -> inject_Z z <= inject_Z n.
Proof. intros. now rewrite <- Zle_Qle. Qed.

(** ** Rounding to a double *)

Lemma pow2_pos (e : Z) : 0 < 2 ^ e.
Proof. now apply Qpower_0_lt. Qed.

Lemma pow2_inject (n : Z) : (0 <= n)%Z -> 2 ^ n == inject_Z (2 ^ n).
Proof. intros H. now rewrite Zpower_Qpower. Qed.

Lemma pow2_split (n m : Z) : 2 ^ (n + m) == 2 ^ n * 2 ^ m.
Proof. apply Qpower_plus. discriminate. Qed.

(** [ilog2] is the binade. *)
Lemma ilog2_spec (q : Q) :
  0 < q -> 2 ^ ilog2 q <= q /\ q < 2 ^ (ilog2 q + 1).
Proof.
  intros Hq. unfold ilog2.
  set (a := Z.log2 (Qnum q)). set (b := Z.log2 (Zpos (Qden q))).
  assert (Hn : (0 < Qnum q)%Z).
  { destruct q as [n d]. unfold Qlt in Hq. cbn in Hq |- *. lia. }
  destruct (Z.log2_spec (Qnum q) Hn) as [Ha1 Ha2]. fold a in Ha1, Ha2.
  destruct (Z.log2_spec (Zpos (Qden q)) eq_refl) as [Hb1 Hb2]. fold b in Hb1, Hb2.
  assert (Ha0 : (0 <= a)%Z) by apply Z.log2_nonneg.
  assert (Hb0 : (0 <= b)%Z) by apply Z.log2_nonneg.
  assert (Eq : q == inject_Z (Qnum q) / inject_Z (Zpos (Qden q))).
  { destruct q as [n d]. apply Qmake_Qdiv. }
  set (N := inject_Z (Qnum q)) in *. set (D := inject_Z (Zpos (Qden q))) in *.
  assert (HD : 0 < D) by (apply inject_Z_pos; lia).
  assert (A1 : 2 ^ a <= N).
  { rewrite pow2_inject by lia. unfold N. rewrite <- Zle_Qle. exact Ha1. }
  assert (A2 : N < 2 ^ (a + 1)).
  { rewrite pow2_inject by lia. unfold N. rewrite <- Zlt_Qlt. exact Ha2. }
  assert (B1 : 2 ^ b <= D).
  { rewrite pow2_inject by lia. unfold D. rewrite <- Zle_Qle. exact Hb1. }
  assert (B2 : D < 2 ^ (b + 1)).
  { rewrite pow2_inject by lia. unfold D. rewrite <- Zlt_Qlt. exact Hb2. }
  assert (Lo : 2 ^ (a - b - 1) < q).
  { rewrite Eq. apply Qlt_shift_div_l; [exact HD|].
    assert (E : 2 ^ (a - b - 1) * 2 ^ (b + 1) == 2 ^ a).
    { rewrite <- pow2_split. now replace (a - b - 1 + (b + 1))%Z with a by lia. }
    pose proof (pow2_pos (a - b - 1)) as P.
    clearbody N D. nra. }
  assert (Hi : q < 2 ^ (a - b + 1)).
  { rewrite Eq. apply Qlt_shift_div_r; [exact HD|].
    assert (E : 2 ^ (a - b + 1) * 2 ^ b == 2 ^ (a + 1)).
    { rewrite <- pow2_split. now replace (a - b + 1 + b)%Z with (a + 1)%Z by lia. }
    pose proof (pow2_pos (a - b + 1)) as P.
    clearbody N D. nra. }
  destruct (Qle_bool (2 ^ (a - b)) q) eqn:E.
  - apply Qle_bool_iff in E. split; [exact E | exact Hi].
  - assert (E' : q < 2 ^ (a - b)).
    { apply Qnot_le_lt. intros H. apply Qle_bool_iff in H. congruence. }
    split; [apply Qlt_le_weak; exact Lo|].
    now replace (a - b - 1 + 1)%Z with (a - b)%Z by lia.
Qed.

Lemma round_half_even_near (q : Q) :
  Qabs (inject_Z (round_half_even q) - q) <= 1 # 2.
Proof.
  unfold round_half_even.
  pose proof (Qfloor_le q) as Hlo. pose proof (Qlt_floor q) as Hhi.
  rewrite inject_Z_plus in Hhi. change (inject_Z 1) with 1 in Hhi.
  destruct (Qcompare (q - inject_Z (Qfloor q)) (1 # 2)) eqn:E.
  - apply Qeq_alt in E.
    destruct (Z.even (Qfloor q)); [|rewrite inject_Z_plus; change (inject_Z 1) with 1];
      apply Qabs_Qle_condition; split; lra.
  - apply Qlt_alt in E. apply Qabs_Qle_condition. split; lra.
  - apply Qgt_alt in E. rewrite inject_Z_plus. change (inject_Z 1) with 1.
    apply Qabs_Qle_condition. split; lra.
Qed.

Lemma round_half_even_ge (q : Q) (j : Z) :
  inject_Z j <= q -> (j <= round_half_even q)%Z.
Proof.
  intros H. assert (F : (j <= Qfloor q)%Z).
  { rewrite <- (Qfloor_Z j). now apply Qfloor_resp_le. }
  unfold round_half_even.
  destruct (Qcompare (q - inject_Z (Qfloor q)) (1 # 2)); [|lia|lia].
  destruct (Z.even (Qfloor q)); lia.
Qed.

Lemma round_half_even_le (q : Q) (j : Z) :
  q <= inject_Z j -> (round_half_even q <= j)%Z.
Proof.
  intros H.
  pose proof (Qfloor_le q) as Hlo.
  assert (F : (Qfloor q <= j)%Z).
  { rewrite <- (Qfloor_Z j). now apply Qfloor_resp_le. }
  destruct (Z.eq_dec (Qfloor q) j) as [E|E].
  - assert (D : q - inject_Z (Qfloor q) == 0) by (rewrite E in *; lra).
    unfold round_half_even.
    destruct (Qcompare (q - inject_Z (Qfloor q)) (1 # 2)) eqn:C.
    + apply Qeq_alt in C. lra.
    + lia.
    + apply Qgt_alt in C. lra.
  - unfold round_half_even.
    destruct (Qcompare (q - inject_Z (Qfloor q)) (1 # 2)); [|lia|lia].
    destruct (Z.even (Qfloor q)); lia.
Qed.

Lemma pow2_le (a b : Z) : (a <= b)%Z -> 2 ^ a <= 2 ^ b.
Proof. intros H. apply Qpower_le_compat_l; [exact H | discriminate]. Qed.

Lemma pow2_lt_inv (a b : Z) : 2 ^ a < 2 ^ b -> (a < b)%Z.
Proof. intros H. apply (Qpower_lt_compat_l_inv 2); [exact H | reflexivity]. Qed.

Lemma nearest_error (q : Q) :
  Qabs (nearest q - q) <= 2 ^ ulp_exponent q * (1 # 2).
Proof.
  unfold nearest. set (e := ulp_exponent q).
  pose proof (pow2_pos e) as P.
  pose proof (round_half_even_near (q / 2 ^ e)) as H.
  assert (E : q == q / 2 ^ e * 2 ^ e) by (field; lra).
  set (m := inject_Z (round_half_even (q / 2 ^ e))) in *.
  set (y := q / 2 ^ e) in *. set (u := 2 ^ e) in *.
  clearbody m y u.
  apply Qabs_Qle_condition in H as [H1 H2].
  apply Qabs_Qle_condition. rewrite E. split; nra.
Qed.

Lemma ulp_exponent_le (q : Q) (n : Z) :
  0 < q -> q < 2 ^ n -> (-1021 <= n)%Z -> (ulp_exponent q <= n - 53)%Z.
Proof.
  intros Hq Hn Hr. destruct (ilog2_spec q Hq) as [L _].
  assert (K : (ilog2 q < n)%Z).
  { apply pow2_lt_inv. eapply Qle_lt_trans; [exact L | exact Hn]. }
  unfold ulp_exponent. lia.
Qed.

(** Rounding never crosses a whole number below [2 ^ 53]. *)
Lemma nearest_whole (q : Q) (m : Z) :
  0 < q -> q < 2 ^ 53 ->
  (inject_Z m <= q -> inject_Z m <= nearest q) /\
  (q <= inject_Z m -> nearest q <= inject_Z m).
Proof.
  intros Hq Hn.
  assert (He : (ulp_exponent q <= 0)%Z).
  { pose proof (ulp_exponent_le q 53 Hq Hn). lia. }
  unfold nearest. set (e := ulp_exponent q) in *.
  pose proof (pow2_pos e) as P. pose proof (pow2_pos (- e)) as N.
  assert (PN : 2 ^ e * 2 ^ (- e) == 1).
  { rewrite <- pow2_split. now replace (e + - e)%Z with 0%Z by lia. }
  assert (NZ : 2 ^ (- e) == inject_Z (2 ^ (- e))) by (apply pow2_inject; lia).
  assert (E : q == q / 2 ^ e * 2 ^ e) by (field; lra).
  set (y := q / 2 ^ e) in *.
  split; intros H.
  - assert (Hy : inject_Z (m * 2 ^ (- e)) <= y).
    { rewrite inject_Z_mult, <- NZ.
      set (u := 2 ^ e) in *. set (v := 2 ^ (- e)) in *. set (k := inject_Z m) in *.
      clearbody u v k y. nra. }
    apply round_half_even_ge in Hy. apply inject_Z_le_int in Hy.
    rewrite inject_Z_mult, <- NZ in Hy.
    set (R := inject_Z (round_half_even y)) in *.
    set (u := 2 ^ e) in *. set (v := 2 ^ (- e)) in *. set (k := inject_Z m) in *.
    clearbody R u v k y. nra.
  - assert (Hy : y <= inject_Z (m * 2 ^ (- e))).
    { rewrite inject_Z_mult, <- NZ.
      set (u := 2 ^ e) in *. set (v := 2 ^ (- e)) in *. set (k := inject_Z m) in *.
      clearbody u v k y. nra. }
    apply round_half_even_le in Hy. apply inject_Z_le_int in Hy.
    rewrite inject_Z_mult, <- NZ in Hy.
    set (R := inject_Z (round_half_even y)) in *.
    set (u := 2 ^ e) in *. set (v := 2 ^ (- e)) in *. set (k := inject_Z m) in *.
    clearbody R u v k y. nra.
Qed.

Lemma below_overflow (v : Q) : v < 8589934592 -> Qle_bool (2 ^ 1024) v = false.
Proof.
  intros H. destruct (Qle_bool (2 ^ 1024) v) eqn:E; [|reflexivity].
  apply Qle_bool_iff in E.
  assert (B : 2 ^ 33 <= 2 ^ 1024) by (apply pow2_le; lia).
  assert (C : 2 ^ 33 == 8589934592) by reflexivity.
  rewrite C in B. exfalso.
  generalize dependent (2 ^ 1024). intros t E B. lra.
Qed.

Lemma nearest_small (q : Q) :
  0 < q -> q < 4294967296 -> Qabs (nearest q - q) <= 1 # 4194304.
Proof.
  intros Hq Hn.
  assert (He : (ulp_exponent q <= -21)%Z).
  { assert (C : 4294967296 == 2 ^ 32) by reflexivity.
    rewrite C in Hn. pose proof (ulp_exponent_le q 32 Hq Hn). lia. }
  eapply Qle_trans; [apply nearest_error|].
  apply pow2_le in He.
  assert (C : 2 ^ (-21) == 1 # 2097152) by reflexivity.
  rewrite C in He.
  generalize dependent (2 ^ ulp_exponent q). intros t Ht. lra.
Qed.

Lemma nearest_relative (q : Q) :
  1 # 4294967296 <= q ->
  Qabs (nearest q - q) <= q * (1 # 9007199254740992).
Proof.
  intros Hq.
  assert (Hq0 : 0 < q) by lra.
  destruct (ilog2_spec q Hq0) as [L _].
  eapply Qle_trans; [apply nearest_error|].
  unfold ulp_exponent.
  destruct (Z.max_spec (ilog2 q - 52) (-1074)) as [[_ ->]|[_ ->]].
  - assert (C : 2 ^ (-1074) <= 2 ^ (-90)) by (apply pow2_le; lia).
    assert (D : 2 ^ (-90) == 1 # 1237940039285380274899124224) by reflexivity.
    rewrite D in C.
    generalize dependent (2 ^ (-1074)). intros t Ht. lra.
  - assert (C : 2 ^ (ilog2 q - 52) == 2 ^ ilog2 q * 2 ^ (-52)).
    { replace (ilog2 q - 52)%Z with (ilog2 q + -52)%Z by lia. apply pow2_split. }
    assert (D : 2 ^ (-52) == 1 # 4503599627370496) by reflexivity.
    rewrite C, D.
    generalize dependent (2 ^ ilog2 q). intros t Ht. lra.
Qed.

Lemma round_double_pos (q : Q) :
  0 < q -> nearest q < 8589934592 -> round_double q = Fin (nearest q).
Proof.
  intros Hq Hv. unfold round_double.
  assert (C : Qcompare q 0 = Gt) by now apply Qgt_alt.
  rewrite C. cbv zeta. now rewrite below_overflow.
Qed.

Lemma round_double_neg (q : Q) :
  q < 0 -> nearest (- q) < 8589934592 -> round_double q = Fin (- nearest (- q)).
Proof.
  intros Hq Hv. unfold round_double.
  assert (C : Qcompare q 0 = Lt) by now apply Qlt_alt.
  rewrite C. cbv zeta. now rewrite below_overflow.
Qed.

Lemma round_double_zero (q : Q) : q == 0 -> round_double q = Fin 0.
Proof.
  intros Hq. unfold round_double.
  assert (C : Qcompare q 0 = Eq) by now apply Qeq_alt.
  now rewrite C.
Qed.

(** A result below [2 ^ 32] in absolute value is stored with an error of at
    most [2 ^ -22]. *)
Lemma round_double_abs (q : Q) :
  Qabs q < 4294967296 ->
  exists v, round_double q = Fin v /\ Qabs (v - q) <= 1 # 4194304.
Proof.
  intros H. apply Qabs_Qlt_condition in H as [H1 H2].
  destruct (Qcompare q 0) eqn:C.
  - apply Qeq_alt in C. exists 0. split; [now apply round_double_zero|].
    apply Qabs_Qle_condition. split; lra.
  - apply Qlt_alt in C.
    assert (P : 0 < - q) by lra. assert (B : - q < 4294967296) by lra.
    pose proof (nearest_small (- q) P B) as E.
    apply Qabs_Qle_condition in E as [E1 E2].
    exists (- nearest (- q)). split.
    + apply round_double_neg; [exact C | lra].
    + apply Qabs_Qle_condition. split; lra.
  - apply Qgt_alt in C.
    pose proof (nearest_small q C H2) as E.
    apply Qabs_Qle_condition in E as [E1 E2].
    exists (nearest q). split.
    + apply round_double_pos; [exact C | lra].
    + apply Qabs_Qle_condition. split; lra.
Qed.

(** A non-negative result below [2 ^ 32]: the error, and the whole numbers
    the stored value cannot cross. *)
Lemma round_double_small (q : Q) :
  0 <= q -> q < 4294967296 ->
  exists v, round_double q = Fin v /\
    Qabs (v - q) <= 1 # 4194304 /\
    (forall m : Z, inject_Z m <= q -> inject_Z m <= v) /\
    (forall m : Z, q <= inject_Z m -> v <= inject_Z m).
Proof.
  intros H0 H1.
  destruct (Qcompare q 0) eqn:C.
  - apply Qeq_alt in C. exists 0. split; [now apply round_double_zero|].
    split; [apply Qabs_Qle_condition; split; lra|].
    split; intros m Hm; lra.
  - apply Qlt_alt in C. lra.
  - apply Qgt_alt in C.
    pose proof (nearest_small q C H1) as E.
    assert (B : q < 2 ^ 53).
    { assert (D : 2 ^ 53 == 9007199254740992) by reflexivity. rewrite D. lra. }
    exists (nearest q). split.
    + apply Qabs_Qle_condition in E as [E1 E2].
      apply round_double_pos; [exact C | lra].
    + split; [exact E|].
      split; intros m Hm; now apply (nearest_whole q m C B).
Qed.

(** A result between [2 ^ -32] and [2 ^ 32] is stored with a relative error
    of at most [2 ^ -53]. *)
Lemma round_double_relative (q : Q) :
  1 # 4294967296 <= q -> q < 4294967296 ->
  exists v, round_double q = Fin v /\
    Qabs (v - q) <= q * (1 # 9007199254740992).
Proof.
  intros H0 H1. assert (P : 0 < q) by lra.
  pose proof (nearest_small q P H1) as E.
  apply Qabs_Qle_condition in E as [E1 E2].
  exists (nearest q). split.
  - apply round_double_pos; [exact P | lra].
  - now apply nearest_relative.
Qed.

Example round_double_two_thirds :
  round_double (2 # 3) = Fin (6004799503160661 # 9007199254740992).
Proof. vm_compute. reflexivity. Qed.

Example round_double_tenth :
  round_double (1 # 10) = Fin (7205759403792794 # 72057594037927936).
Proof. vm_compute. reflexivity. Qed.

Example round_double_overflow : round_double (2 ^ 1024) = PosInf.
Proof. vm_compute. reflexivity. Qed.

Example round_double_underflow :
  exists v, round_double (2 ^ (-1075)) = Fin v /\ v == 0.
Proof. eexists. split; [vm_compute; reflexivity | reflexivity]. Qed.

Lemma set_dimension_trunc (d : Z) (q : Q) :
  0 <= q -> q < 2147483648 -> set_dimension d (Fin q) = Qfloor q.
Proof.
  intros H0 H1. unfold set_dimension, ToUint32.
  assert (Hq : Qle_bool 0 q = true) by now apply Qle_bool_iff.
  assert (Hlo : (0 <= Qfloor q)%Z).
  { change 0%Z with (Qfloor 0). now apply Qfloor_resp_le. }
  assert (Hhi : (Qfloor q < 2147483648)%Z).
  { rewrite Zlt_Qlt. eapply Qle_lt_trans; [apply Qfloor_le | exact H1]. }
  rewrite Hq, Z.mod_small by lia.
  destruct (2147483647 <? Qfloor q)%Z eqn:E; [apply Z.ltb_lt in E; lia | reflexivity].
Qed.

(** The cropped side: the product or the quotient [x] as it is stored, and
    the canvas dimension made of it. *)
Lemma crop_side (d : Z) (x : Q) (lim : Z) :
  0 <= x -> x <= inject_Z lim + (1 # 2097152) ->
  (0 < lim <= 2147483647)%Z ->
  exists s : Q,
    round_double x = Fin s /\
    0 <= s /\
    Qabs (s - x) <= 1 # 4194304 /\
    set_dimension d (Fin s) = Qfloor s /\
    (0 <= Qfloor s <= lim)%Z /\
    Qabs (inject_Z (Qfloor s) - x) < 1.
Proof.
  intros H0 H1 Hl.
  assert (Bl : inject_Z lim <= 2147483647) by (apply (inject_Z_le_int _ 2147483647); lia).
  destruct (round_double_small x) as (s & Hs & He & Hge & Hle); [exact H0 | lra |].
  exists s. split; [exact Hs|].
  assert (S0 : 0 <= s) by (apply (Hge 0%Z); exact H0).
  apply Qabs_Qle_condition in He as [E1 E2].
  pose proof (Qfloor_le s) as Flo. pose proof (Qlt_floor s) as Fhi.
  rewrite inject_Z_plus in Fhi. change (inject_Z 1) with 1 in Fhi.
  assert (F0 : (0 <= Qfloor s)%Z).
  { change 0%Z with (Qfloor 0). now apply Qfloor_resp_le. }
  assert (F1 : (Qfloor s <= lim)%Z).
  { apply Z.lt_succ_r. rewrite Zlt_Qlt. unfold Z.succ. rewrite inject_Z_plus.
    change (inject_Z 1) with 1. lra. }
  split; [exact S0|]. split; [apply Qabs_Qle_condition; split; lra|].
  split; [apply set_dimension_trunc; lra|]. split; [lia|].
  apply Qabs_Qlt_condition. split; [|lra].
  destruct (Qlt_le_dec x (inject_Z (Qfloor s + 1))) as [L|L].
  - rewrite inject_Z_plus in L. change (inject_Z 1) with 1 in L. lra.
  - apply Hge in L. rewrite inject_Z_plus in L. change (inject_Z 1) with 1 in L. lra.
Qed.

(** The corner of the crop rectangle: [(orig - side) / 2] as it is stored. *)
Lemma crop_corner (o s : Q) :
  0 <= o -> o <= 2147483647 ->
  0 <= s -> s <= o + 1 ->
  exists x : Q,
    rnd (div (rnd (sub (Fin o) (Fin s))) (Fin 2)) = Fin x /\
    Qabs (x - (o - s) / 2) <= 1 # 2097152.
Proof.
  intros Ho0 Ho1 Hs0 Hs1. cbn [sub add neg rnd].
  destruct (round_double_abs (o + - s)) as (z & Hz & Ez).
  { apply Qabs_Qlt_condition. split; lra. }
  rewrite Hz. rewrite div_Fin by lra.
  apply Qabs_Qle_condition in Ez as [Z1 Z2].
  assert (Hh : z / 2 == z * (1 # 2)) by (field; lra).
  cbn [rnd].
  destruct (round_double_abs (z / 2)) as (x & Hx & Ex).
  { apply Qabs_Qlt_condition. rewrite Hh. split; lra. }
  exists x. split; [exact Hx|].
  apply Qabs_Qle_condition in Ex as [X1 X2]. rewrite Hh in X1, X2.
  assert (Hd : (o - s) / 2 == (o - s) * (1 # 2)) by (field; lra).
  apply Qabs_Qle_condition. rewrite Hd. split; lra.
Qed.

(** The ratio of the image as it is stored. *)
Lemma stored_ratio (ow oh : Z) :
  (0 < ow <= 2147483647)%Z -> (0 < oh <= 2147483647)%Z ->
  exists rho : Q,
    rnd (div (of_px ow) (of_px oh)) = Fin rho /\
    Qabs (rho - inject_Z ow / inject_Z oh)
    <= inject_Z ow / inject_Z oh * (1 # 9007199254740992).
Proof.
  intros Hw Hh. unfold of_px.
  assert (How : 1 <= inject_Z ow) by (apply (inject_Z_le_int 1); lia).
  assert (Hoh : 1 <= inject_Z oh) by (apply (inject_Z_le_int 1); lia).
  assert (Bw : inject_Z ow <= 2147483647) by (apply (inject_Z_le_int _ 2147483647); lia).
  assert (Bh : inject_Z oh <= 2147483647) by (apply (inject_Z_le_int _ 2147483647); lia).
  rewrite div_Fin by lra. cbn [rnd].
  apply round_double_relative.
  - apply Qle_shift_div_l; [lra|]. lra.
  - apply Qlt_shift_div_r; [lra|]. nra.
Qed.

(** C6.  For an image with positive dimensions and a positive target ratio
    [r], [cropImageToAspectRatio] resolves with the encoding of a canvas that
    received one [drawImage] call whose destination size equals its source
    size (a crop, never a scaling).  One side of the crop rectangle is the
    original side, kept exactly by the canvas; the other is the product
    [origHeight * r] or the quotient [origWidth / r] as a double, and the
    canvas keeps its integer part: a dimension that is within one pixel of
    the exact ratio and never exceeds the original.  The rectangle is
    centered: the margins on its two sides are equal up to the rounding of
    its corner (at most [2 ^ -20] pixel), and the margins of what the canvas
    shows differ by less than one pixel more. *)
Theorem crop_exact_centered (b : Browser) (dataUrl : string) (img : Image) (r : Q) :
  decode b dataUrl = Some img ->
  has_context b = true ->
  (0 < width img <= 2147483647)%Z ->
  (0 < height img <= 2147483647)%Z ->
  0 < r ->
  let ow := inject_Z (width img) in
  let oh := inject_Z (height img) in
  let c := croppedCanvas img (Fin r) in
  let tol := 1 # 1048576 in
  cropImageToAspectRatio b dataUrl (Fin r)
    = Resolved (toDataURL b c "image/jpeg" (95 # 100)) /\
  exists cropX cropY cropW cropH : Q,
    calls c = [ drawImage9 img (Fin cropX) (Fin cropY) (Fin cropW) (Fin cropH)
                           (Fin 0) (Fin 0) (Fin cropW) (Fin cropH) ] /\
    canvas_width c = Qfloor cropW /\
    canvas_height c = Qfloor cropH /\
    (0 <= canvas_width c <= width img)%Z /\
    (0 <= canvas_height c <= height img)%Z /\
    (cropH = oh /\ cropY = 0 /\ canvas_height c = height img /\
     Qabs (cropW - r * oh) <= tol /\
     Qabs (inject_Z (canvas_width c) - r * oh) < 1
     \/
     cropW = ow /\ cropX = 0 /\ canvas_width c = width img /\
     Qabs (cropH - ow / r) <= tol /\
     Qabs (inject_Z (canvas_height c) - ow / r) < 1) /\
    Qabs (cropX - (ow - cropW) / 2) <= tol /\
    Qabs (cropY - (oh - cropH) / 2) <= tol /\
    Qabs ((ow - (cropX + cropW)) - cropX) <= tol /\
    Qabs ((oh - (cropY + cropH)) - cropY) <= tol /\
    - tol <= (ow - (cropX + inject_Z (canvas_width c))) - cropX < 1 + tol /\
    - tol <= (oh - (cropY + inject_Z (canvas_height c))) - cropY < 1 + tol.
Proof.
  intros Hdec Hctx Hiw Hih Hr ow oh c tol. split.
  { unfold cropImageToAspectRatio. now rewrite Hdec, Hctx. }
  assert (How : 1 <= ow) by (apply (inject_Z_le_int 1); lia).
  assert (Hoh : 1 <= oh) by (apply (inject_Z_le_int 1); lia).
  assert (Bw : ow <= 2147483647) by (apply (inject_Z_le_int _ 2147483647); lia).
  assert (Bh : oh <= 2147483647) by (apply (inject_Z_le_int _ 2147483647); lia).
  destruct (stored_ratio (width img) (height img) Hiw Hih) as (rho & Hrho & Erho).
  fold ow oh in Erho.
  assert (Et : ow / oh * oh == ow) by (field; lra).
  assert (Ht : 0 < ow / oh) by (apply Qlt_shift_div_l; lra).
  set (t := ow / oh) in *.
  apply Qabs_Qle_condition in Erho as [R1 R2].
  subst c. unfold croppedCanvas, cropRect. rewrite Hrho.
  destruct (gt (Fin rho) (Fin r)) eqn:E.
  - apply gt_Fin in E.
    assert (Hx0 : 0 <= oh * r) by nra.
    assert (Hx1 : oh * r <= ow + (1 # 2097152)).
    { assert (A : r < t + t * (1 # 9007199254740992)) by lra.
      assert (B : oh * r <= oh * (t + t * (1 # 9007199254740992))) by nra.
      assert (C : oh * (t + t * (1 # 9007199254740992))
                  == ow + ow * (1 # 9007199254740992)).
      { rewrite <- Et at 1 2. ring. }
      rewrite C in B. lra. }
    destruct (crop_side 300 (oh * r) (width img) Hx0 Hx1 Hiw)
      as (w & Hw & W0 & Ew & Dw & Fw & Nw).
    assert (Emul : rnd (mul (of_px (height img)) (Fin r)) = Fin w) by exact Hw.
    destruct (crop_corner ow w) as (x & Hx & Ex); try lra.
    { apply Qabs_Qle_condition in Ew as [E1 E2]. lra. }
    assert (Ecor : rnd (div (rnd (sub (of_px (width img)) (Fin w))) (Fin 2)) = Fin x)
      by exact Hx.
    rewrite !Emul, Ecor. cbn [calls canvas_width canvas_height].
    rewrite Dw. unfold of_px.
    rewrite (set_dimension_small 150 (height img)) by lia.
    exists x, 0, w, oh.
    split; [reflexivity|]. split; [reflexivity|].
    split; [unfold oh; now rewrite Qfloor_Z|]. split; [exact Fw|]. split; [lia|].
    pose proof (Qfloor_le w) as Flo. pose proof (Qlt_floor w) as Fhi.
    rewrite inject_Z_plus in Fhi. change (inject_Z 1) with 1 in Fhi.
    apply Qabs_Qle_condition in Ew as [E1 E2].
    apply Qabs_Qle_condition in Ex as [X1 X2].
    assert (Hd : (ow - w) / 2 == (ow - w) * (1 # 2)) by (field; lra).
    rewrite Hd in X1, X2.
    assert (Hc : r * oh == oh * r) by ring.
    split.
    { left. split; [reflexivity|]. split; [reflexivity|]. split; [reflexivity|].
      rewrite Hc. split; [apply Qabs_Qle_condition; unfold tol; split; lra | exact Nw]. }
    split; [apply Qabs_Qle_condition; rewrite Hd; unfold tol; split; lra|].
    split.
    { assert (Hz : (oh - oh) / 2 == 0) by (field; lra).
      apply Qabs_Qle_condition. rewrite Hz. unfold tol. split; lra. }
    split; [apply Qabs_Qle_condition; unfold tol; split; lra|].
    split; [apply Qabs_Qle_condition; unfold tol; split; lra|].
    fold ow oh. unfold tol. split; split; lra.
  - apply gt_Fin_false in E.
    assert (Hxr : ow / r * r == ow) by (field; lra).
    assert (Hx0 : 0 <= ow / r) by (apply Qle_shift_div_l; lra).
    assert (Hx1 : ow / r <= oh + (1 # 2097152)).
    { set (y := ow / r) in *.
      assert (A : t - t * (1 # 9007199254740992) <= r) by lra.
      assert (B : y * (1 - (1 # 9007199254740992)) <= oh).
      { clearbody y t. nra. }
      lra. }
    destruct (crop_side 150 (ow / r) (height img) Hx0 Hx1 Hih)
      as (h & Hh & H0 & Eh & Dh & Fh & Nh).
    assert (Ediv : rnd (div (of_px (width img)) (Fin r)) = Fin h).
    { unfold of_px. fold ow. rewrite div_Fin by lra. exact Hh. }
    destruct (crop_corner oh h) as (y & Hy & Ey); try lra.
    { apply Qabs_Qle_condition in Eh as [E1 E2]. lra. }
    assert (Ecor : rnd (div (rnd (sub (of_px (height img)) (Fin h))) (Fin 2)) = Fin y)
      by exact Hy.
    rewrite !Ediv, Ecor. cbn [calls canvas_width canvas_height].
    rewrite Dh. unfold of_px.
    rewrite (set_dimension_small 300 (width img)) by lia.
    exists 0, y, ow, h.
    split; [reflexivity|]. split; [unfold ow; now rewrite Qfloor_Z|].
    split; [reflexivity|]. split; [lia|]. split; [exact Fh|].
    pose proof (Qfloor_le h) as Flo. pose proof (Qlt_floor h) as Fhi.
    rewrite inject_Z_plus in Fhi. change (inject_Z 1) with 1 in Fhi.
    apply Qabs_Qle_condition in Eh as [E1 E2].
    apply Qabs_Qle_condition in Ey as [Y1 Y2].
    assert (Hd : (oh - h) / 2 == (oh - h) * (1 # 2)) by (field; lra).
    rewrite Hd in Y1, Y2.
    split.
    { right. split; [reflexivity|]. split; [reflexivity|]. split; [reflexivity|].
      split; [apply Qabs_Qle_condition; unfold tol; split; lra | exact Nh]. }
    split.
    { assert (Hz : (ow - ow) / 2 == 0) by (field; lra).
      apply Qabs_Qle_condition. rewrite Hz. unfold tol. split; lra. }
    split; [apply Qabs_Qle_condition; rewrite Hd; unfold tol; split; lra|].
    split; [apply Qabs_Qle_condition; unfold tol; split; lra|].
    split; [apply Qabs_Qle_condition; unfold tol; split; lra|].
    fold ow oh. unfold tol. split; split; lra.
Qed.

Lemma length_bind_const {A B : Type} (f : A -> list B) (k : nat) (l : list A) :
  (forall x, length (f x) = k) -> length (l ≫= f) = (length l * k)%nat.
Proof.
  intros Hf. induction l as [|a l IH]; [reflexivity|].
  rewrite bind_cons, length_app, IH, Hf. cbn [length]. lia.
Qed.

Lemma length_cellCalls (img : Image) (g : Grid) (w h p : number) (nrows ncols : nat) :
  length (cellCalls img g w h p nrows ncols) = (nrows * ncols)%nat.
Proof.
  unfold cellCalls.
  rewrite (length_bind_const _ ncols).
  - now rewrite length_seq.
  - intros row. rewrite (length_bind_const _ 1%nat); [|reflexivity].
    rewrite length_seq. lia.
Qed.

Lemma elem_of_cellCalls (img : Image) (g : Grid) (sx sy w h p : Q)
    (nrows ncols : nat) (op : DrawOp) :
  startX g = Fin sx -> startY g = Fin sy ->
  op ∈ cellCalls img g (Fin w) (Fin h) (Fin p) nrows ncols <->
  exists row col : nat,
    (row < nrows)%nat /\ (col < ncols)%nat /\
    op = drawImage5 img
           (Fin (sx + inject_Z (Z.of_nat col) * (w + p)))
           (Fin (sy + inject_Z (Z.of_nat row) * (h + p)))
           (Fin w) (Fin h).
Proof.
  intros Hx Hy. unfold cellCalls. rewrite Hx, Hy. rewrite list_elem_of_bind. split.
  - intros (row & Hop & Hrow). apply list_elem_of_bind in Hop as (col & Hop & Hcol).
    apply list_elem_of_singleton in Hop. apply elem_of_seq in Hrow, Hcol.
    exists row, col. split; [lia|]. split; [lia|]. exact Hop.
  - intros (row & col & Hrow & Hcol & ->). exists row. split.
    + apply list_elem_of_bind. exists col. split; [now left|].
      apply elem_of_seq. lia.
    + apply elem_of_seq. lia.
Qed.

Lemma iterations_whole (n : Z) :
  iterations (Fin (inject_Z n)) = Some (Z.to_nat n).
Proof. unfold iterations. now rewrite Qceiling_Z. Qed.

(** C7.  The layout computed by [createPrintSheet], for any paper, positive
    cell size and non-negative padding with [cols * rows >= 1].  The numbers
    of columns and rows are the floors [cols = floor((paperWidth - padding) /
    (cellWidth + padding))] and likewise [rows]; the total grid size is
    [cols * cell + (cols - 1) * padding], which does not exceed the paper;
    the grid starts at half of what is left, so the margin on the left
    equals the margin on the right, and likewise top and bottom.  The cells
    the loops draw are exactly those of columns [0 .. cols - 1] and rows
    [0 .. rows - 1], at the start plus a whole number of cell-and-padding
    steps: the first column starts at the left margin and the last one ends
    at the right margin.  Either both counts are positive and [cols * rows]
    cells are drawn, or the padding exceeds the paper, both counts are
    negative and nothing is drawn. *)
Theorem print_grid_fits_centered (pw ph w h p : Q) (img : Image) :
  0 < w -> 0 < h -> 0 <= p ->
  let g := gridLayout (Fin pw) (Fin ph) (Fin w) (Fin h) (Fin p) in
  let c := Qfloor ((pw - p) / (w + p)) in
  let r := Qfloor ((ph - p) / (h + p)) in
  let cells := cellCalls img g (Fin w) (Fin h) (Fin p) (Z.to_nat r) (Z.to_nat c) in
  (1 <= c * r)%Z ->
  cols g = Fin (inject_Z c) /\ rows g = Fin (inject_Z r) /\
  iterations (rows g) = Some (Z.to_nat r) /\
  iterations (cols g) = Some (Z.to_nat c) /\
  exists tw th sx sy : Q,
    totalGridWidth g = Fin tw /\ totalGridHeight g = Fin th /\
    startX g = Fin sx /\ startY g = Fin sy /\
    tw == inject_Z c * w + (inject_Z c - 1) * p /\
    th == inject_Z r * h + (inject_Z r - 1) * p /\
    tw <= pw /\ th <= ph /\
    0 <= sx /\ 0 <= sy /\
    sx == pw - (sx + tw) /\ sy == ph - (sy + th) /\
    (forall op, op ∈ cells <->
       exists col row : Z,
         (0 <= col < c)%Z /\ (0 <= row < r)%Z /\
         op = drawImage5 img (Fin (sx + inject_Z col * (w + p)))
                             (Fin (sy + inject_Z row * (h + p)))
                             (Fin w) (Fin h)) /\
    sx + (inject_Z c - 1) * (w + p) + w == pw - sx /\
    sy + (inject_Z r - 1) * (h + p) + h == ph - sy /\
    ((1 <= c)%Z /\ (1 <= r)%Z /\ length cells = Z.to_nat (c * r)
     \/ (c <= -1)%Z /\ (r <= -1)%Z /\ pw < p /\ ph < p /\ cells = []).
Proof.
  intros Hw Hh Hp g c r cells Hcr.
  set (tw := inject_Z c * w + (inject_Z c + - 1) * p).
  set (th := inject_Z r * h + (inject_Z r + - 1) * p).
  assert (G : g = {| cols := Fin (inject_Z c); rows := Fin (inject_Z r);
                     totalGridWidth := Fin tw; totalGridHeight := Fin th;
                     startX := Fin ((pw + - tw) / 2);
                     startY := Fin ((ph + - th) / 2) |}).
  { unfold g, gridLayout. cbn [sub add neg]. rewrite !div_Fin by lra.
    cbn [floor]. cbn [mul sub add neg]. rewrite !div_Fin by lra. reflexivity. }
  assert (Gc : cols g = Fin (inject_Z c)) by now rewrite G.
  assert (Gr : rows g = Fin (inject_Z r)) by now rewrite G.
  assert (Gtw : totalGridWidth g = Fin tw) by now rewrite G.
  assert (Gth : totalGridHeight g = Fin th) by now rewrite G.
  assert (Gsx : startX g = Fin ((pw + - tw) / 2)) by now rewrite G.
  assert (Gsy : startY g = Fin ((ph + - th) / 2)) by now rewrite G.
  clearbody g. clear G.
  split; [exact Gc|]. split; [exact Gr|].
  split; [rewrite Gr; apply iterations_whole|].
  split; [rewrite Gc; apply iterations_whole|].
  pose proof (Qfloor_le ((pw - p) / (w + p))) as Fc.
  pose proof (Qfloor_le ((ph - p) / (h + p))) as Fr.
  pose proof (Qlt_floor ((pw - p) / (w + p))) as Uc.
  pose proof (Qlt_floor ((ph - p) / (h + p))) as Ur.
  fold c in Fc, Uc. fold r in Fr, Ur.
  rewrite inject_Z_plus in Uc, Ur. change (inject_Z 1) with 1 in Uc, Ur.
  assert (Ec : (pw - p) / (w + p) * (w + p) == pw - p) by (field; lra).
  assert (Er : (ph - p) / (h + p) * (h + p) == ph - p) by (field; lra).
  set (qc := (pw - p) / (w + p)) in *. set (qr := (ph - p) / (h + p)) in *.
  set (cz := inject_Z c) in *. set (rz := inject_Z r) in *.
  assert (Mc : cz * (w + p) <= pw - p) by (clearbody qc cz; nra).
  assert (Mr : rz * (h + p) <= ph - p) by (clearbody qr rz; nra).
  exists tw, th, ((pw + - tw) / 2), ((ph + - th) / 2).
  do 4 (split; [assumption|]).
  assert (Hx : (pw + - tw) / 2 == (pw - tw) * (1 # 2)) by (field; lra).
  assert (Hy : (ph + - th) / 2 == (ph - th) * (1 # 2)) by (field; lra).
  assert (Tw : tw == cz * w + (cz - 1) * p) by (unfold tw; ring).
  assert (Th : th == rz * h + (rz - 1) * p) by (unfold th; ring).
  assert (Tw' : tw == cz * (w + p) - p) by (unfold tw; ring).
  assert (Th' : th == rz * (h + p) - p) by (unfold th; ring).
  split; [exact Tw|]. split; [exact Th|].
  split; [lra|]. split; [lra|].
  split; [rewrite Hx; lra|]. split; [rewrite Hy; lra|].
  split; [rewrite Hx; lra|]. split; [rewrite Hy; lra|].
  split.
  { intros op. subst cells.
    rewrite (elem_of_cellCalls img g _ _ w h p _ _ op Gsx Gsy). split.
    - intros (row & col & Hrow & Hcol & ->).
      exists (Z.of_nat col), (Z.of_nat row).
      split; [lia|]. split; [lia|]. reflexivity.
    - intros (col & row & Hcol & Hrow & ->).
      exists (Z.to_nat row), (Z.to_nat col).
      split; [lia|]. split; [lia|].
      now rewrite !Z2Nat.id by lia. }
  split; [rewrite Hx; lra|]. split; [rewrite Hy; lra|].
  destruct (Z_lt_le_dec c 1) as [Lc|Lc].
  - right.
    assert (Cn : (c <= -1)%Z).
    { clear -Hcr Lc. clearbody c r.
      destruct (Z.eq_dec c 0%Z) as [Z0|Z0]; [rewrite Z0 in Hcr; lia | lia]. }
    assert (Rn : (r <= -1)%Z) by (clear -Hcr Cn; clearbody c r; nia).
    split; [exact Cn|]. split; [exact Rn|].
    assert (Cq : cz <= -1) by (apply (inject_Z_le_int c (-1)); exact Cn).
    assert (Rq : rz <= -1) by (apply (inject_Z_le_int r (-1)); exact Rn).
    split; [clearbody qc cz; nra|]. split; [clearbody qr rz; nra|].
    subst cells. now replace (Z.to_nat r) with 0%nat by lia.
  - left.
    assert (Rp : (1 <= r)%Z) by (clear -Hcr Lc; clearbody c r; nia).
    split; [exact Lc|]. split; [exact Rp|].
    subst cells. rewrite length_cellCalls.
    rewrite Z2Nat.inj_mul by lia. apply Nat.mul_comm.
Qed.

Lemma Qfloor_unit (x : Q) : 0 <= x -> x < 1 -> Qfloor x = 0%Z.
Proof.
  intros H0 H1.
  pose proof (Qfloor_le x) as Hlo. pose proof (Qlt_floor x) as Hhi.
  assert (A : (Qfloor x < 1)%Z).
  { rewrite Zlt_Qlt. eapply Qle_lt_trans; [apply Hlo | exact H1]. }
  assert (B : (0 < Qfloor x + 1)%Z).
  { rewrite Zlt_Qlt. eapply Qle_lt_trans; [apply H0 | exact Hhi]. }
  lia.
Qed.

(** A cell wider than the paper leaves no column. *)
Lemma no_cell_fits (paper cell pad : number) (P p : Q) :
  paper = Fin P -> pad = Fin p -> 0 < p -> p < P ->
  gt cell paper = true ->
  floor (div (sub paper pad) (add cell pad)) = Fin 0.
Proof.
  intros -> -> Hp HP Hgt.
  destruct cell as [w| | |]; try discriminate.
  - apply gt_Fin in Hgt. cbn [sub add neg]. rewrite div_Fin by lra.
    cbn [floor]. rewrite (Qfloor_unit ((P + - p) / (w + p))); [reflexivity| |].
    + apply Qle_shift_div_l; lra.
    + apply Qlt_shift_div_r; lra.
  - reflexivity.
Qed.

Lemma oversized_empty (wCm hCm : number) :
  largerThanPaper wCm hCm = true -> emptyGrid (sheetGrid wCm hCm) = true.
Proof.
  unfold largerThanPaper, emptyGrid, sheetGrid, gridLayout.
  cbn [cols rows]. intros H. apply orb_true_iff in H. apply orb_true_iff.
  destruct H as [H|H]; [left|right].
  - erewrite no_cell_fits; [reflexivity | reflexivity | reflexivity | | | exact H];
      vm_compute; reflexivity.
  - erewrite no_cell_fits; [reflexivity | reflexivity | reflexivity | | | exact H];
      vm_compute; reflexivity.
Qed.

(** C8 (as amended).  When the 2D context exists and the portrait decodes, a
    portrait size whose grid has no column or no row (in particular a
    portrait wider or taller than the paper) makes [createPrintSheet] throw
    the capacity error; no sheet is encoded and no portrait is drawn, but the
    canvas has already received the white background [fillRect]. *)
Theorem capacity_error_after_background (b : Browser) (portraitDataUrl : string)
    (wCm hCm : number) (img : Image) :
  has_context b = true ->
  decode b portraitDataUrl = Some img ->
  emptyGrid (sheetGrid wCm hCm) = true \/ largerThanPaper wCm hCm = true ->
  createPrintSheet b portraitDataUrl wCm hCm
  = ({| canvas_width := 1200; canvas_height := 1800;
        calls := [fillRect "#FFFFFF" (Fin 0) (Fin 0) (Fin 1200) (Fin 1800)] |},
     Throws (Error "Portrait size is too large to fit on a 4x6 inch paper.")).
Proof.
  intros Hctx Hdec H.
  assert (He : emptyGrid (sheetGrid wCm hCm) = true).
  { destruct H as [H|H]; [exact H | now apply oversized_empty]. }
  unfold createPrintSheet. rewrite Hctx, Hdec. cbn [negb].
  fold (sheetGrid wCm hCm). rewrite He. reflexivity.
Qed.

(** C8 as stated fails.  For a 20 cm x 20 cm portrait the grid is empty and
    the capacity error is thrown, yet the canvas has received a drawing call
    by then: the white background. *)
Lemma capacity_error_draws_background :
  createPrintSheet sample_browser sample_url (Fin 20) (Fin 20)
  = ({| canvas_width := 1200; canvas_height := 1800;
        calls := [fillRect "#FFFFFF" (Fin 0) (Fin 0) (Fin 1200) (Fin 1800)] |},
     Throws (Error "Portrait size is too large to fit on a 4x6 inch paper."))
  /\ calls (createPrintSheet sample_browser sample_url (Fin 20) (Fin 20)).1 <> [].
Proof. split; [vm_compute; reflexivity | vm_compute; discriminate]. Qed.

Lemma validation_iff (b : Browser) (dataUrl aspectRatio : string) :
  resizeImageToAspectRatio b dataUrl aspectRatio = Rejected format_error
  <-> isNaN (ratio_components aspectRatio).1
      || isNaN (ratio_components aspectRatio).2
      || is_zero (ratio_components aspectRatio).2 = true.
Proof.
  unfold resizeImageToAspectRatio, format_error.
  destruct (ratio_components aspectRatio) as [wRatio hRatio]. cbn [fst snd].
  destruct (isNaN wRatio || isNaN hRatio || is_zero hRatio).
  - split; reflexivity.
  - split; [|discriminate].
    destruct (decode b dataUrl); [|discriminate].
    destruct (has_context b); cbn [negb]; [|discriminate].
    destruct (lt _ _); discriminate.
Qed.

(** C10.  [resizeImageToAspectRatio] rejects with the format error exactly
    when a parsed component is [NaN] (or missing) or the height component is
    zero.  ["0:4"] parses to [(0, 4)] and ["-16:9"] to a negative width, and
    neither is rejected.  With ["0:4"] the target ratio is zero, and for an
    image outside the tolerance the letterbox branch computes the canvas
    height [origWidth / 0 = Infinity]; the call resolves, with the encoding of
    a canvas of size 0 x 0. *)
Theorem zero_width_ratio_passes_validation :
  (forall (b : Browser) (dataUrl aspectRatio : string),
     resizeImageToAspectRatio b dataUrl aspectRatio = Rejected format_error
     <-> isNaN (ratio_components aspectRatio).1
         || isNaN (ratio_components aspectRatio).2
         || is_zero (ratio_components aspectRatio).2 = true) /\
  ratio_components "0:4" = (Some (Fin 0), Some (Fin 4)) /\
  (exists w, ratio_components "-16:9" = (Some (Fin w), Some (Fin 9)) /\ w < 0) /\
  (forall (b : Browser) (dataUrl : string),
     resizeImageToAspectRatio b dataUrl "-16:9" <> Rejected format_error) /\
  forall (b : Browser) (dataUrl : string) (img : Image),
    decode b dataUrl = Some img ->
    has_context b = true ->
    (0 < width img)%Z -> (0 < height img)%Z ->
    let targetRatio := div (Fin 0) (Fin 4) in
    let origWidth := of_px (width img) in
    let origHeight := of_px (height img) in
    lt (abs (sub targetRatio (div origWidth origHeight))) (Fin (1 # 100)) = false ->
    strict_eq targetRatio (Fin 0) = true /\
    paddedSize targetRatio origWidth origHeight (div origWidth origHeight)
      = (origWidth, PosInf) /\
    resizeImageToAspectRatio b dataUrl "0:4"
      = Resolved (toDataURL b (paddedCanvas img targetRatio)
                            "image/jpeg" (95 # 100)) /\
    canvas_width (paddedCanvas img targetRatio) = 0%Z /\
    canvas_height (paddedCanvas img targetRatio) = 0%Z.
Proof.
  split; [exact validation_iff|].
  split; [reflexivity|].
  split; [eexists; split; [reflexivity | reflexivity]|].
  split.
  { intros b dataUrl H. apply validation_iff in H. discriminate H. }
  intros b dataUrl img Hdec Hctx Hw Hh targetRatio origWidth origHeight Htol.
  pose proof (inject_Z_pos _ Hw) as How. pose proof (inject_Z_pos _ Hh) as Hoh.
  assert (Hio : 0 < / inject_Z (height img)) by now apply Qinv_lt_0_compat.
  assert (Hpad : paddedSize targetRatio origWidth origHeight (div origWidth origHeight)
                 = (origWidth, PosInf)).
  { subst targetRatio origWidth origHeight. unfold paddedSize, of_px.
    rewrite (div_Fin (inject_Z (width img))) by lra.
    assert (G : gt (div (Fin 0) (Fin 4))
                   (Fin (inject_Z (width img) / inject_Z (height img))) = false).
    { rewrite div_Fin by lra. apply gt_Fin_false.
      assert (Z4 : 0 / 4 == 0) by reflexivity.
      assert (0 < inject_Z (width img) * / inject_Z (height img)) by nra.
      rewrite Z4. unfold Qdiv. lra. }
    rewrite G. f_equal. unfold div. cbn [Qeq_bool Qdiv]. 
    change (Qeq_bool (0 / 4) 0) with true. cbn iota.
    apply Qgt_alt in How. now rewrite How. }
  split; [reflexivity|]. split; [exact Hpad|].
  split.
  { unfold resizeImageToAspectRatio.
    change (ratio_components "0:4") with (Some (Fin 0), Some (Fin 4)).
    cbn [isNaN is_zero orb strict_eq component]. change (Qeq_bool 4 0) with false.
    cbn iota. rewrite Hdec, Hctx. cbn [negb].
    fold targetRatio origWidth origHeight. now rewrite Htol. }
  unfold paddedCanvas. fold origWidth origHeight. rewrite Hpad.
  assert (S : scaleFor origWidth PosInf = Fin 0).
  { unfold scaleFor, origWidth, of_px, gt, MAX_DIMENSION. cbn [lt].
    rewrite orb_true_r. reflexivity. }
  rewrite S. cbn [canvas_width canvas_height]. split; [|reflexivity].
  unfold origWidth, of_px. cbn [mul round].
  rewrite (Qfloor_comp _ (1 # 2)) by ring. reflexivity.
Qed.

(** ** Properties of the worker pool *)

Section ListFacts.

Context {A : Type}.

Lemma elem_of_insert_inv (l : list A) (i : nat) (x y : A) :
  y ∈ <[i := x]> l -> y = x \/ y ∈ l.
Proof.
  intros H. apply list_elem_of_lookup in H as [k Hk].
  apply list_lookup_insert_Some in Hk as [(-> & -> & _) | (_ & Hk)].
  - now left.
  - right. apply list_elem_of_lookup. eauto.
Qed.

Lemma elem_of_insert_keep (l : list A) (i : nat) (x x0 y : A) :
  l !! i = Some x0 -> y ∈ l -> y <> x0 -> y ∈ <[i := x]> l.
Proof.
  intros Hi H Hne. apply list_elem_of_lookup in H as [k Hk].
  apply list_elem_of_lookup. exists k.
  rewrite list_lookup_insert_ne; [exact Hk|].
  intros ->. congruence.
Qed.

Lemma elem_of_insert_new (l : list A) (i : nat) (x x0 : A) :
  l !! i = Some x0 -> x ∈ <[i := x]> l.
Proof.
  intros Hi. apply list_elem_of_lookup. exists i.
  apply list_lookup_insert_eq. eapply lookup_lt_Some, Hi.
Qed.

Lemma fmap_NoDup_inj {B : Type} (f : A -> B) (l : list A) (x y : A) :
  NoDup (f <$> l) -> x ∈ l -> y ∈ l -> f x = f y -> x = y.
Proof.
  induction l as [|a l IH]; intros Hnd Hx Hy Hf.
  - inversion Hx.
  - rewrite fmap_cons in Hnd. apply NoDup_cons in Hnd as [Ha Hnd].
    apply elem_of_cons in Hx as [->|Hx]; apply elem_of_cons in Hy as [->|Hy].
    + reflexivity.
    + exfalso. apply Ha. rewrite Hf. now apply list_elem_of_fmap_2.
    + exfalso. apply Ha. rewrite <- Hf. now apply list_elem_of_fmap_2.
    + now apply IH.
Qed.

End ListFacts.

Lemma singleton_union_absorb (k : string) (X : gset string) :
  k ∈ X -> {[k]} ∪ X = X.
Proof.
  intros H. apply set_eq. intros x. rewrite elem_of_union, elem_of_singleton.
  split; [intros [->|Hx]; assumption | auto].
Qed.

Lemma union_insert_shift (k : string) (D L : gset string) :
  {[k]} ∪ D ∪ L = D ∪ ({[k]} ∪ L).
Proof. apply set_eq. intros x. rewrite !elem_of_union. tauto. Qed.

Section PoolFacts.

Import Pool.

Context {Job : Type}.
Variable job_id : Job -> string.
Variable starts : Job -> bool.
Variable marks_pending : bool.
Variable to_library : bool.
Variable work : Job -> Promise string.

Local Abbreviation State := (@State Job).
Local Abbreviation step := (Pool.step job_id starts marks_pending to_library work).
Local Abbreviation exec := (Pool.exec job_id starts marks_pending to_library work).
Local Abbreviation init := (Pool.init job_id).

Lemma awaiting_count_insert (ws : list (@Worker Job)) (i : nat) (w0 w : Worker) :
  ws !! i = Some w0 ->
  Z.of_nat (awaiting_count (<[i := w]> ws))
  = (Z.of_nat (awaiting_count ws) - flight_weight w0 + flight_weight w)%Z.
Proof.
  unfold flight_weight.
  revert i. induction ws as [|a ws IH]; intros [|i] Hi; try discriminate.
  - injection Hi as ->. cbn [insert list_insert awaiting_count].
    destruct (is_awaiting w0), (is_awaiting w); lia.
  - specialize (IH i Hi). change (<[S i := w]> (a :: ws)) with (a :: <[i := w]> ws).
    cbn [awaiting_count]. revert IH.
    destruct (is_awaiting w0), (is_awaiting w), (is_awaiting a); lia.
Qed.

Lemma awaiting_count_le (ws : list (@Worker Job)) :
  (awaiting_count ws <= length ws)%nat.
Proof.
  induction ws as [|w ws IH]; cbn [awaiting_count length]; [lia|].
  destruct (is_awaiting w); lia.
Qed.

Lemma awaiting_count_replicate (n : nat) :
  awaiting_count (replicate n (@AtLoopHead Job)) = 0%nat.
Proof. induction n as [|n IH]; [reflexivity | exact IH]. Qed.

Lemma dom_initialImages (jobs : list Job) :
  dom (initialImages job_id jobs) = list_to_set (job_id <$> jobs).
Proof.
  unfold initialImages.
  assert (G : forall m : gmap string GeneratedImage,
             dom (foldl (fun m j => <[job_id j := pending_entry]> m) m jobs)
             = dom m ∪ list_to_set (job_id <$> jobs)).
  { induction jobs as [|j jobs IH]; intros m; cbn [foldl].
    - rewrite fmap_nil, list_to_set_nil. now rewrite (right_id_L _ _).
    - rewrite IH, dom_insert_L, fmap_cons, list_to_set_cons.
      apply union_insert_shift. }
  rewrite G, dom_empty_L. now rewrite (left_id_L _ _).
Qed.

Variable jobs : list Job.
Variable concurrencyLimit : nat.

Hypothesis jobs_start : forall j, j ∈ jobs -> starts j = true.
Hypothesis jobs_distinct : NoDup (job_id <$> jobs).

Local Abbreviation invariant := (Pool.invariant job_id work jobs concurrencyLimit).

Lemma invariant_init (library0 : list string) :
  invariant (init concurrencyLimit jobs library0).
Proof.
  split; cbn [init queue workers generatedImages events in_flight].
  - intros j Hj. now left.
  - auto.
  - intros j Hj. apply elem_of_replicate in Hj as [Hj _]. discriminate.
  - apply dom_initialImages.
  - intros H. apply elem_of_replicate in H as [H _]. discriminate.
  - apply length_replicate.
  - now rewrite awaiting_count_replicate.
Qed.

Lemma id_in_jobs (j : Job) : j ∈ jobs -> job_id j ∈ (list_to_set (job_id <$> jobs) : gset string).
Proof. intros H. apply elem_of_list_to_set. now apply list_elem_of_fmap_2. Qed.

Lemma invariant_step (i : nat) (s s' : State) :
  invariant s -> step i s = Some s' -> invariant s'.
Proof.
  intros [Hcov Hq Haw Hdom Hex Hsz Hfl] Hstep. unfold Pool.step in Hstep.
  destruct (workers s !! i) as [[|j'|]|] eqn:Hi; try discriminate.
  - (* at the loop head *)
    destruct (queue s) as [|j' rest] eqn:Hqueue.
    + (* the queue is empty: the worker returns *)
      injection Hstep as <-.
      split; cbn [set_worker queue workers generatedImages events].
      * intros j Hj. destruct (Hcov j Hj) as [H|[H|H]].
        -- inversion H.
        -- right; left. apply (elem_of_insert_keep _ _ _ _ _ Hi H). discriminate.
        -- now right; right.
      * rewrite Hqueue. exact Hq.
      * intros j Hj. apply elem_of_insert_inv in Hj as [Hj|Hj]; [discriminate | auto].
      * exact Hdom.
      * intros _. exact Hqueue.
      * now rewrite length_insert.
      * rewrite (awaiting_count_insert _ _ _ _ Hi). unfold flight_weight. cbn. lia.
    + (* an item is popped and its request starts *)
      assert (Hj' : j' ∈ jobs) by (apply Hq; left).
      rewrite (jobs_start _ Hj') in Hstep. injection Hstep as <-.
      split; cbn [queue workers generatedImages events in_flight].
      * intros j Hj. destruct (decide (job_id j = job_id j')) as [E|E].
        { assert (j = j') as -> by (eapply fmap_NoDup_inj; eauto).
          right; left. apply (elem_of_insert_new _ _ _ _ Hi). }
        destruct (Hcov j Hj) as [H|[H|H]].
        -- left. apply elem_of_cons in H as [->|H]; [congruence | exact H].
        -- right; left. apply (elem_of_insert_keep _ _ _ _ _ Hi H). discriminate.
        -- right; right. destruct marks_pending; [|exact H].
           rewrite lookup_insert_ne; [exact H | congruence].
      * intros j Hj. apply Hq. now right.
      * intros j Hj. apply elem_of_insert_inv in Hj as [Hj|Hj]; [|auto].
        injection Hj as ->. exact Hj'.
      * destruct marks_pending; [|exact Hdom].
        rewrite dom_insert_L, Hdom. apply singleton_union_absorb, id_in_jobs, Hj'.
      * intros H. apply elem_of_insert_inv in H as [H|H]; [discriminate|].
        specialize (Hex H). discriminate.
      * now rewrite length_insert.
      * rewrite (awaiting_count_insert _ _ _ _ Hi), Hfl. unfold flight_weight. cbn. lia.
  - (* the awaited request settles *)
    injection Hstep as <-.
    assert (Hj' : j' ∈ jobs).
    { apply Haw. apply list_elem_of_lookup. eauto. }
    split; cbn [set_worker settle queue workers generatedImages events in_flight].
    + intros j Hj. destruct (decide (job_id j = job_id j')) as [E|E].
      { assert (j = j') as -> by (eapply fmap_NoDup_inj; eauto).
        right; right. apply lookup_insert_eq. }
      destruct (Hcov j Hj) as [H|[H|H]].
      * now left.
      * right; left. apply (elem_of_insert_keep _ _ _ _ _ Hi H). congruence.
      * right; right. rewrite lookup_insert_ne; [exact H | congruence].
    + exact Hq.
    + intros j Hj. apply elem_of_insert_inv in Hj as [Hj|Hj]; [discriminate | auto].
    + rewrite dom_insert_L, Hdom. apply singleton_union_absorb, id_in_jobs, Hj'.
    + intros H. apply elem_of_insert_inv in H as [H|H]; [discriminate | auto].
    + now rewrite length_insert.
    + rewrite (awaiting_count_insert _ _ _ _ Hi), Hfl. unfold flight_weight. cbn. lia.
Qed.

Lemma invariant_exec (schedule : list nat) (s s' : State) :
  invariant s -> exec schedule s = Some s' -> invariant s'.
Proof.
  revert s. induction schedule as [|i schedule IH]; intros s Hinv Hexec.
  - injection Hexec as <-. exact Hinv.
  - cbn [Pool.exec] in Hexec. destruct (step i s) as [s1|] eqn:Hs; [|discriminate].
    eapply IH; [|exact Hexec]. eapply invariant_step; eauto.
Qed.

Lemma completed_all_exited (s : State) (w : Worker) :
  completed s = true -> w ∈ workers s -> w = Exited.
Proof.
  unfold completed. intros Hc Hw.
  rewrite forallb_forall in Hc. apply list_elem_of_In, Hc in Hw.
  destruct w; [discriminate | discriminate | reflexivity].
Qed.

Lemma completed_queue_empty (s : State) :
  invariant s -> (1 <= concurrencyLimit)%nat -> completed s = true ->
  queue s = [].
Proof.
  intros Hinv HC Hc. apply (inv_exit _ _ _ _ s Hinv).
  destruct (workers s) as [|w ws] eqn:E.
  - pose proof (inv_size _ _ _ _ s Hinv) as Hsz. rewrite E in Hsz. cbn in Hsz. lia.
  - assert (Hw : w ∈ workers s) by (rewrite E; left).
    rewrite (completed_all_exited s w Hc Hw) in Hw. now rewrite <- E.
Qed.

(** Once the pool has completed, the entry of every job is the one its own
    request produced. *)
Lemma completed_entries (s : State) (j : Job) :
  invariant s -> (1 <= concurrencyLimit)%nat -> completed s = true ->
  j ∈ jobs ->
  generatedImages s !! job_id j = Some (settled_entry (work j)).
Proof.
  intros Hinv HC Hc Hj.
  destruct (inv_cover _ _ _ _ s Hinv j Hj) as [H|[H|H]].
  - rewrite (completed_queue_empty s Hinv HC Hc) in H. inversion H.
  - apply (completed_all_exited s _ Hc) in H. discriminate.
  - exact H.
Qed.

Lemma entry_key_is_job (s : State) (k : string) (g : GeneratedImage) :
  invariant s -> generatedImages s !! k = Some g ->
  exists j, j ∈ jobs /\ k = job_id j.
Proof.
  intros Hinv Hk.
  assert (Hd : k ∈ dom (generatedImages s)) by (apply elem_of_dom; eauto).
  rewrite (inv_dom _ _ _ _ s Hinv) in Hd. apply elem_of_list_to_set in Hd.
  apply list_elem_of_fmap in Hd as (j & -> & Hj). eauto.
Qed.

Lemma settled_entry_terminal (outcome : Promise string) :
  is_terminal (settled_entry outcome) = true.
Proof. now destruct outcome. Qed.

Lemma completed_terminal_count (s : State) :
  invariant s -> (1 <= concurrencyLimit)%nat -> completed s = true ->
  terminal_count (generatedImages s) = length jobs.
Proof.
  intros Hinv HC Hc. unfold terminal_count.
  rewrite map_filter_id.
  - rewrite <- size_dom, (inv_dom _ _ _ _ s Hinv), size_list_to_set by exact jobs_distinct.
    apply length_fmap.
  - intros k g Hk. cbn [snd].
    destruct (entry_key_is_job s k g Hinv Hk) as (j & Hj & ->).
    rewrite (completed_entries s j Hinv HC Hc Hj) in Hk. injection Hk as <-.
    apply settled_entry_terminal.
Qed.

(** C1.  Take a batch of jobs with distinct ids, each of which reaches its
    request, run by a pool of [concurrencyLimit >= 1] workers.  In every
    state an execution can reach in which all workers have left their loop,
    each job has an entry whose status is [done] or [error] (one status, so
    never both), the job map has no other entry, and the number of entries
    in a terminal state is the number of jobs. *)
Theorem batch_accounting (library0 : list string) (schedule : list nat) (s : State) :
  (1 <= concurrencyLimit)%nat ->
  exec schedule (init concurrencyLimit jobs library0) = Some s ->
  completed s = true ->
  (forall j, j ∈ jobs ->
     exists g, generatedImages s !! job_id j = Some g /\
               (status g = done /\ status g <> error
                \/ status g = error /\ status g <> done)) /\
  (forall k g, generatedImages s !! k = Some g -> k ∈ job_id <$> jobs) /\
  terminal_count (generatedImages s) = length jobs.
Proof.
  intros HC Hexec Hc.
  assert (Hinv : invariant s).
  { eapply invariant_exec; [apply invariant_init | exact Hexec]. }
  split; [|split].
  - intros j Hj. exists (settled_entry (work j)).
    split; [now apply completed_entries|].
    destruct (work j); cbn; [left | right]; split; congruence.
  - intros k g Hk. destruct (entry_key_is_job s k g Hinv Hk) as (j & Hj & ->).
    now apply list_elem_of_fmap_2.
  - now apply completed_terminal_count.
Qed.

(** C2.  In such a batch let the request of job [k] reject with [err].  Once
    the pool has completed, the entry of [k] is [error] with the message
    [errorMessage err]; every other job has a terminal entry, which is [done]
    with its result whenever its own request resolved.  And in any state,
    the worker suspended on [k] resumes at the head of its loop when the
    request settles: the queue and the other workers are as before, the
    entry of [k] records the error and no other entry changes. *)
Theorem failure_isolated (library0 : list string) (schedule : list nat)
    (s : State) (k : Job) (err : thrown) :
  (1 <= concurrencyLimit)%nat ->
  k ∈ jobs ->
  work k = Rejected err ->
  exec schedule (init concurrencyLimit jobs library0) = Some s ->
  completed s = true ->
  generatedImages s !! job_id k
    = Some {| status := error; url := None;
              error_message := Some (errorMessage err) |} /\
  (forall j, j ∈ jobs -> j <> k ->
     (exists g, generatedImages s !! job_id j = Some g /\ is_terminal g = true) /\
     forall resultUrl, work j = Resolved resultUrl ->
       generatedImages s !! job_id j
       = Some {| status := done; url := Some resultUrl; error_message := None |}) /\
  (forall (s1 : State) (i : nat),
     workers s1 !! i = Some (Awaiting k) ->
     exists s2, step i s1 = Some s2 /\
       workers s2 !! i = Some AtLoopHead /\
       queue s2 = queue s1 /\
       (forall i', i' <> i -> workers s2 !! i' = workers s1 !! i') /\
       generatedImages s2 !! job_id k
         = Some {| status := error; url := None;
                   error_message := Some (errorMessage err) |} /\
       (forall key, key <> job_id k ->
          generatedImages s2 !! key = generatedImages s1 !! key)).
Proof.
  intros HC Hk Hwork Hexec Hc.
  assert (Hinv : invariant s).
  { eapply invariant_exec; [apply invariant_init | exact Hexec]. }
  split; [|split].
  - rewrite (completed_entries s k Hinv HC Hc Hk), Hwork. reflexivity.
  - intros j Hj _. pose proof (completed_entries s j Hinv HC Hc Hj) as E. split.
    + eexists. split; [exact E | apply settled_entry_terminal].
    + intros resultUrl Hr. now rewrite E, Hr.
  - intros s1 i Hi. unfold Pool.step. rewrite Hi. eexists. split; [reflexivity|].
    cbn [set_worker settle workers queue generatedImages].
    split; [|split; [reflexivity|split; [|split]]].
    + apply list_lookup_insert_eq. eapply lookup_lt_Some, Hi.
    + intros i' Hne. now apply list_lookup_insert_ne.
    + rewrite lookup_insert_eq, Hwork. reflexivity.
    + intros key Hne. now apply lookup_insert_ne.
Qed.

End PoolFacts.

Section PoolProgress.

Import Pool.

Context {Job : Type}.
Variable job_id : Job -> string.
Variable starts : Job -> bool.
Variable marks_pending : bool.
Variable to_library : bool.
Variable work : Job -> Promise string.

Local Abbreviation State := (@State Job).
Local Abbreviation step := (Pool.step job_id starts marks_pending to_library work).
Local Abbreviation exec := (Pool.exec job_id starts marks_pending to_library work).
Local Abbreviation init := (Pool.init job_id).

Local Abbreviation flight_invariant := (@Pool.flight_invariant Job).

Lemma flight_step (n i : nat) (s s' : State) :
  flight_invariant n s -> step i s = Some s' -> flight_invariant n s'.
Proof.
  intros [Hsz Hfl] Hstep. unfold Pool.step in Hstep.
  destruct (workers s !! i) as [[|j|]|] eqn:Hi; try discriminate.
  - destruct (queue s) as [|j rest].
    + injection Hstep as <-. split; cbn [set_worker workers events].
      * now rewrite length_insert.
      * rewrite (awaiting_count_insert _ _ _ _ Hi), Hfl. unfold flight_weight. cbn. lia.
    + destruct (starts j); injection Hstep as <-;
        split; cbn [workers events in_flight]; auto.
      * now rewrite length_insert.
      * rewrite (awaiting_count_insert _ _ _ _ Hi), Hfl. unfold flight_weight. cbn. lia.
  - injection Hstep as <-. split; cbn [set_worker settle workers events in_flight].
    + now rewrite length_insert.
    + rewrite (awaiting_count_insert _ _ _ _ Hi), Hfl. unfold flight_weight. cbn. lia.
Qed.

Lemma flight_exec (n : nat) (schedule : list nat) (s s' : State) :
  flight_invariant n s -> exec schedule s = Some s' -> flight_invariant n s'.
Proof.
  revert s. induction schedule as [|i schedule IH]; intros s Hinv Hexec.
  - injection Hexec as <-. exact Hinv.
  - cbn [Pool.exec] in Hexec. destruct (step i s) as [s1|] eqn:Hs; [|discriminate].
    eapply IH; [|exact Hexec]. eapply flight_step; eauto.
Qed.

(** C3.  In every state an execution of the pool can reach, the number of
    requests started and not yet settled is between 0 and
    [concurrencyLimit]: there are exactly [concurrencyLimit] workers, the
    requests in flight are those the suspended workers wait for, and the only
    step a suspended worker can take is the settling of its own request, which
    pops nothing from the queue. *)
Theorem at_most_limit_in_flight (concurrencyLimit : nat) (jobs : list Job)
    (library0 : list string) (schedule : list nat) (s : State) :
  exec schedule (init concurrencyLimit jobs library0) = Some s ->
  (0 <= in_flight (events s) <= Z.of_nat concurrencyLimit)%Z /\
  length (workers s) = concurrencyLimit /\
  in_flight (events s) = Z.of_nat (awaiting_count (workers s)) /\
  forall i j, workers s !! i = Some (Awaiting j) ->
    exists s', step i s = Some s' /\
      queue s' = queue s /\
      events s' = Settled (job_id j) :: events s /\
      workers s' !! i = Some AtLoopHead.
Proof.
  intros Hexec.
  assert (Hinv : flight_invariant concurrencyLimit s).
  { eapply flight_exec; [|exact Hexec].
    split; cbn [init workers events in_flight].
    - apply length_replicate.
    - now rewrite awaiting_count_replicate. }
  destruct Hinv as [Hsz Hfl].
  pose proof (awaiting_count_le (workers s)) as Hle.
  split; [lia|]. split; [exact Hsz|]. split; [exact Hfl|].
  intros i j Hi. unfold Pool.step. rewrite Hi. eexists. split; [reflexivity|].
  cbn [set_worker settle queue events workers].
  split; [reflexivity|]. split; [reflexivity|].
  apply list_lookup_insert_eq. eapply lookup_lt_Some, Hi.
Qed.

Lemma total_weight_insert (ws : list (@Worker Job)) (i : nat) (w0 w : Worker) :
  ws !! i = Some w0 ->
  (total_weight (<[i := w]> ws) + weight w0 = total_weight ws + weight w)%nat.
Proof.
  revert i. induction ws as [|a ws IH]; intros [|i] Hi; try discriminate.
  - injection Hi as ->. cbn [insert list_insert total_weight]. lia.
  - specialize (IH i Hi). change (<[S i := w]> (a :: ws)) with (a :: <[i := w]> ws).
    cbn [total_weight]. lia.
Qed.

(** Every step uses up part of the bound. *)
Lemma step_decreases (i : nat) (s s' : State) :
  step i s = Some s' -> (remaining s' < remaining s)%nat.
Proof.
  unfold Pool.step, remaining. intros Hstep.
  destruct (workers s !! i) as [[|j|]|] eqn:Hi; try discriminate.
  - destruct (queue s) as [|j rest] eqn:Hq.
    + injection Hstep as <-. cbn [set_worker queue workers]. rewrite Hq.
      pose proof (total_weight_insert _ _ _ Exited Hi). cbn [weight length] in *. lia.
    + destruct (starts j); injection Hstep as <-; cbn [queue workers length].
      * pose proof (total_weight_insert _ _ _ (Awaiting j) Hi). cbn [weight] in *. lia.
      * lia.
  - injection Hstep as <-. cbn [set_worker settle queue workers].
    pose proof (total_weight_insert _ _ _ AtLoopHead Hi). cbn [weight] in *. lia.
Qed.

(** No execution is longer than the bound of its first state. *)
Lemma exec_bounded (schedule : list nat) (s s' : State) :
  exec schedule s = Some s' ->
  (length schedule + remaining s' <= remaining s)%nat.
Proof.
  revert s. induction schedule as [|i schedule IH]; intros s Hexec.
  - injection Hexec as <-. cbn [length]. lia.
  - cbn [Pool.exec] in Hexec. destruct (step i s) as [s1|] eqn:Hs; [|discriminate].
    specialize (IH s1 Hexec). pose proof (step_decreases i s s1 Hs).
    cbn [length]. lia.
Qed.

Lemma unfinished_worker (ws : list (@Worker Job)) :
  forallb is_exited ws = false ->
  exists i w, ws !! i = Some w /\ w <> Exited.
Proof.
  induction ws as [|a ws IH]; [discriminate|]. cbn [forallb].
  destruct a; cbn [is_exited andb].
  - intros _. exists 0%nat, AtLoopHead. split; [reflexivity | discriminate].
  - intros _. exists 0%nat, (Awaiting j). split; [reflexivity | discriminate].
  - intros H. destruct (IH H) as (i & w & Hi & Hw). exists (S i), w. now split.
Qed.

(** A pool that has not completed can take a step. *)
Lemma can_step (s : State) :
  completed s = false -> exists i s', step i s = Some s'.
Proof.
  intros Hc. apply unfinished_worker in Hc as (i & w & Hi & Hw).
  exists i. unfold Pool.step. rewrite Hi.
  destruct w as [|j|]; [|eauto|congruence].
  destruct (queue s) as [|j rest]; [eauto|]. destruct (starts j); eauto.
Qed.

(** From every state some execution completes the pool. *)
Lemma pool_completes (s : State) :
  exists schedule s', exec schedule s = Some s' /\ completed s' = true.
Proof.
  remember (remaining s) as n eqn:Hn.
  revert s Hn. induction n as [n IH] using lt_wf_ind. intros s ->.
  destruct (completed s) eqn:Hc.
  - exists [], s. now split.
  - destruct (can_step s Hc) as (i & s1 & Hs).
    destruct (IH (remaining s1) (step_decreases i s s1 Hs) s1 eq_refl)
      as (schedule & s' & Hexec & Hdone).
    exists (i :: schedule), s'. cbn [Pool.exec]. rewrite Hs. now split.
Qed.

End PoolProgress.

(** ** The photoshoot batch and its retry *)

Section PhotoshootFacts.

Import Pool Photoshoot.

Variable ALL_PHOTO_STYLES : list Style.
Variable generate : Style -> Promise string.

Local Abbreviation State := (@Pool.State Style).

Hypothesis styles_distinct : NoDup (style_id <$> ALL_PHOTO_STYLES).

Lemma stylesToGenerate_distinct (selectedStyles : list string) :
  NoDup (style_id <$>
           filter (fun style => style_id style ∈ selectedStyles) ALL_PHOTO_STYLES).
Proof.
  eapply sublist_NoDup; [exact styles_distinct|].
  apply fmap_sublist, sublist_filter.
Qed.

Lemma handleGenerateClick_Some (uploadedImage : option string)
    (selectedStyles library0 : list string) (s0 : State) :
  handleGenerateClick ALL_PHOTO_STYLES uploadedImage selectedStyles library0 = Some s0 ->
  uploadedImage <> None /\ selectedStyles <> [] /\
  s0 = Pool.init style_id 2
         (filter (fun style => style_id style ∈ selectedStyles) ALL_PHOTO_STYLES)
         library0.
Proof.
  unfold handleGenerateClick.
  destruct (bool_decide (uploadedImage = None)) eqn:E1; [discriminate|].
  destruct (bool_decide (selectedStyles = [])) eqn:E2; [discriminate|].
  cbn [orb]. intros H. injection H as <-.
  apply bool_decide_eq_false in E1. apply bool_decide_eq_false in E2. auto.
Qed.

(** When the photoshoot batch has completed, each selected style holds the
    outcome of its own request. *)
Lemma handleGenerateClick_completed (uploadedImage : option string)
    (selectedStyles library0 : list string) (schedule : list nat)
    (s0 s : State) (style : Style) :
  handleGenerateClick ALL_PHOTO_STYLES uploadedImage selectedStyles library0 = Some s0 ->
  exec generate schedule s0 = Some s ->
  completed s = true ->
  style ∈ ALL_PHOTO_STYLES ->
  style_id style ∈ selectedStyles ->
  generatedImages s !! style_id style = Some (settled_entry (generate style)).
Proof.
  intros H0 Hexec Hc Hin Hsel.
  apply handleGenerateClick_Some in H0 as (_ & _ & ->).
  set (jobs := filter (fun style => style_id style ∈ selectedStyles) ALL_PHOTO_STYLES) in *.
  assert (Hinv : Pool.invariant style_id generate jobs 2 s).
  { eapply invariant_exec;
      [reflexivity | apply stylesToGenerate_distinct
      | apply invariant_init; exact (fun _ => true) | exact Hexec]. }
  eapply completed_entries; [exact Hinv | lia | exact Hc |].
  apply list_elem_of_filter. auto.
Qed.

(** Every key of the job map of a photoshoot batch is the id of a style. *)
Lemma generated_keys_are_styles (uploadedImage : option string)
    (selectedStyles library0 : list string) (schedule : list nat)
    (s0 s : State) (k : string) (g : GeneratedImage) :
  handleGenerateClick ALL_PHOTO_STYLES uploadedImage selectedStyles library0 = Some s0 ->
  exec generate schedule s0 = Some s ->
  generatedImages s !! k = Some g ->
  uploadedImage <> None /\ k ∈ style_id <$> ALL_PHOTO_STYLES.
Proof.
  intros H0 Hexec Hk.
  apply handleGenerateClick_Some in H0 as (Hup & _ & ->). split; [exact Hup|].
  set (jobs := filter (fun style => style_id style ∈ selectedStyles) ALL_PHOTO_STYLES) in *.
  assert (Hinv : Pool.invariant style_id generate jobs 2 s).
  { eapply invariant_exec;
      [reflexivity | apply stylesToGenerate_distinct
      | apply invariant_init; exact (fun _ => true) | exact Hexec]. }
  destruct (entry_key_is_job _ _ _ _ _ k g Hinv Hk) as (j & Hj & ->).
  apply list_elem_of_filter in Hj as [_ Hj]. now apply list_elem_of_fmap_2.
Qed.

End PhotoshootFacts.

Section RetryFacts.

Import Pool Photoshoot.

Variable ALL_PHOTO_STYLES : list Style.

Local Abbreviation State := (@Pool.State Style).

Lemma find_style (photoId : string) :
  photoId ∈ style_id <$> ALL_PHOTO_STYLES ->
  exists style,
    find (fun style => bool_decide (style_id style = photoId)) ALL_PHOTO_STYLES
      = Some style /\
    style_id style = photoId /\ style ∈ ALL_PHOTO_STYLES.
Proof.
  intros H. apply list_elem_of_fmap in H as (st & -> & Hst).
  destruct (find (fun style => bool_decide (style_id style = style_id st))
                 ALL_PHOTO_STYLES) as [style|] eqn:E.
  - apply find_some in E as [Hin Hid]. apply bool_decide_eq_true in Hid.
    exists style. split; [reflexivity|]. split; [exact Hid|].
    now apply list_elem_of_In.
  - apply list_elem_of_In in Hst. eapply find_none in E; [|exact Hst].
    apply bool_decide_eq_false in E. congruence.
Qed.

(** C9.  Let [photoId] be the id of a style whose entry is in a terminal
    state, the main image being present.  [handleRegeneratePhoto] passes its
    guards and sets the entry to [pending]; when its own request settles,
    whatever the job map has become in the meantime, it sets the entry to
    [done] or [error].  Both updates leave every other entry of the map as it
    was, and neither touches the queue or the workers of the pool. *)
Theorem retry_reaches_terminal_leaves_others (uploadedImage photoId : string)
    (s : State) (g : GeneratedImage) :
  photoId ∈ style_id <$> ALL_PHOTO_STYLES ->
  generatedImages s !! photoId = Some g ->
  is_terminal g = true ->
  exists style s1,
    handleRegeneratePhoto_start ALL_PHOTO_STYLES (Some uploadedImage) photoId s
      = Some (style, s1) /\
    style_id style = photoId /\
    generatedImages s1 !! photoId = Some pending_entry /\
    (forall k, k <> photoId -> generatedImages s1 !! k = generatedImages s !! k) /\
    queue s1 = queue s /\ workers s1 = workers s /\ events s1 = events s /\
    forall (outcome : Promise string) (s2 : State),
      let s3 := handleRegeneratePhoto_settle photoId outcome s2 in
      generatedImages s3 !! photoId = Some (settled_entry outcome) /\
      is_terminal (settled_entry outcome) = true /\
      (forall k, k <> photoId -> generatedImages s3 !! k = generatedImages s2 !! k) /\
      queue s3 = queue s2 /\ workers s3 = workers s2 /\ events s3 = events s2.
Proof.
  intros Hid Hg Hterm.
  destruct (find_style photoId Hid) as (style & Hfind & Hsid & _).
  unfold handleRegeneratePhoto_start.
  rewrite bool_decide_eq_false_2 by discriminate.
  rewrite bool_decide_eq_false_2.
  2:{ rewrite Hg. cbn. intros [= E]. unfold is_terminal in Hterm. now rewrite E in Hterm. }
  cbn [orb]. rewrite Hfind. eexists _, _. split; [reflexivity|].
  cbn [generatedImages queue workers events].
  split; [exact Hsid|]. split; [apply lookup_insert_eq|].
  split; [intros k Hk; now apply lookup_insert_ne|].
  do 3 (split; [reflexivity|]).
  intros outcome s2. cbv zeta. unfold handleRegeneratePhoto_settle.
  cbn [generatedImages queue workers events].
  split; [apply lookup_insert_eq|]. split; [apply settled_entry_terminal|].
  split; [intros k Hk; now apply lookup_insert_ne|]. auto.
Qed.

End RetryFacts.

(** ** The product scene batch *)

Section ProductSceneFacts.

Import Pool ProductScene.

Variable uploadedImage : option string.
Variable generate : string -> Promise string.

Local Abbreviation State := (@Pool.State string).

Lemma handleGenerateAll_completed (selectedAngles : list string)
    (schedule : list nat) (s0 s : State) (angleId : string) :
  NoDup selectedAngles ->
  (forall a, a ∈ selectedAngles -> a ∈ angle_id <$> ANGLE_OPTIONS) ->
  handleGenerateAll uploadedImage selectedAngles = Some s0 ->
  exec uploadedImage generate schedule s0 = Some s ->
  completed s = true ->
  angleId ∈ selectedAngles ->
  generatedImages s !! angleId = Some (settled_entry (generate angleId)).
Proof.
  intros Hnd Hknown H0 Hexec Hc Hin. unfold handleGenerateAll in H0.
  destruct (bool_decide (uploadedImage = None)) eqn:E1; [discriminate|].
  destruct (bool_decide (selectedAngles = [])); [discriminate|].
  cbn [orb] in H0. injection H0 as <-. apply bool_decide_eq_false in E1.
  assert (Hstarts : forall a, a ∈ selectedAngles -> starts uploadedImage a = true).
  { intros a Ha. unfold starts. specialize (Hknown a Ha).
    rewrite !andb_true_iff, !bool_decide_eq_true. repeat split; auto.
    intros ->. apply list_elem_of_fmap in Hknown as (angle & Hid & Hopt).
    unfold ANGLE_OPTIONS in Hopt.
    repeat (apply elem_of_cons in Hopt as [->|Hopt]; [discriminate Hid|]).
    inversion Hopt. }
  assert (Hids : NoDup ((fun a : string => a) <$> selectedAngles)).
  { now rewrite list_fmap_id. }
  assert (Hinv : Pool.invariant (fun a => a) generate selectedAngles 3 s).
  { eapply invariant_exec;
      [exact Hstarts | exact Hids
      | apply invariant_init; exact (fun _ => true) | exact Hexec]. }
  apply (completed_entries (fun a => a) generate selectedAngles 3 s angleId Hinv);
    [lia | exact Hc | exact Hin].
Qed.

End ProductSceneFacts.

(** ** The theorems at the sample inputs *)

Lemma resize_tolerance_noop_witness :
  resizeImageToAspectRatio sample_browser sample_url "4:3" = Resolved sample_url.
Proof.
  apply (resize_tolerance_noop sample_browser sample_url "4:3" sample_image);
    vm_compute; reflexivity.
Defined.

Lemma resize_padded_dimensions_witness :
  let c := paddedCanvas sample_image (div (Fin 16) (Fin 9)) in
  resizeImageToAspectRatio sample_browser sample_url "16:9"
    = Resolved (toDataURL sample_browser c "image/jpeg" (95 # 100)) /\
  (0 <= canvas_width c <= 1024)%Z /\
  (0 <= canvas_height c <= 1024)%Z /\
  exists w' h' : Q,
    w' == (16 / 9) * h' /\
    Qabs (inject_Z (canvas_width c) - w') <= 1 # 2 /\
    Qabs (inject_Z (canvas_height c) - h') <= 1 # 2.
Proof.
  apply (resize_padded_dimensions sample_browser sample_url "16:9" sample_image 16 9);
    [reflexivity | lra | lra | reflexivity | reflexivity | cbn; lia | cbn; lia
    | vm_compute; reflexivity].
Defined.

Lemma crop_exact_centered_witness :
  PortraitGenerator.targetAspectRatio "2x3"
    = Fin (6004799503160661 # 9007199254740992) /\
  canvas_width (croppedCanvas sample_image
                  (Fin (6004799503160661 # 9007199254740992))) = 400%Z /\
  canvas_height (croppedCanvas sample_image
                   (Fin (6004799503160661 # 9007199254740992))) = 600%Z /\
  cropImageToAspectRatio sample_browser sample_url
    (Fin (6004799503160661 # 9007199254740992))
  = Resolved (toDataURL sample_browser
                (croppedCanvas sample_image
                   (Fin (6004799503160661 # 9007199254740992)))
                "image/jpeg" (95 # 100)).
Proof.
  split; [vm_compute; reflexivity|].
  split; [vm_compute; reflexivity|].
  split; [vm_compute; reflexivity|].
  apply (crop_exact_centered sample_browser sample_url sample_image
           (6004799503160661 # 9007199254740992));
    [reflexivity | reflexivity | cbn; lia | cbn; lia | reflexivity].
Defined.

Lemma print_grid_fits_centered_witness :
  cols (sheetGrid (Fin 3) (Fin 4)) = Fin 3 /\
  rows (sheetGrid (Fin 3) (Fin 4)) = Fin 3 /\
  length (cellCalls sample_image (sheetGrid (Fin 3) (Fin 4))
            (Fin (3 * (1 / (254 # 100)) * 300))
            (Fin (4 * (1 / (254 # 100)) * 300))
            (Fin ((1 # 10) * (1 / (254 # 100)) * 300)) 3 3) = 9%nat /\
  exists tw th sx sy : Q,
    totalGridWidth (sheetGrid (Fin 3) (Fin 4)) = Fin tw /\
    totalGridHeight (sheetGrid (Fin 3) (Fin 4)) = Fin th /\
    startX (sheetGrid (Fin 3) (Fin 4)) = Fin sx /\
    startY (sheetGrid (Fin 3) (Fin 4)) = Fin sy /\
    tw == 3 * (3 * (1 / (254 # 100)) * 300)
          + (3 - 1) * ((1 # 10) * (1 / (254 # 100)) * 300) /\
    th == 3 * (4 * (1 / (254 # 100)) * 300)
          + (3 - 1) * ((1 # 10) * (1 / (254 # 100)) * 300) /\
    tw <= 4 * 300 /\ th <= 6 * 300 /\
    0 <= sx /\ 0 <= sy /\
    sx == 4 * 300 - (sx + tw) /\ sy == 6 * 300 - (sy + th).
Proof.
  destruct (print_grid_fits_centered
              (4 * 300) (6 * 300)
              (3 * (1 / (254 # 100)) * 300) (4 * (1 / (254 # 100)) * 300)
              ((1 # 10) * (1 / (254 # 100)) * 300) sample_image)
    as (Hc & Hr & _ & _ & tw & th & sx & sy & Htw & Hth & Hsx & Hsy
        & Etw & Eth & Ltw & Lth & Psx & Psy & Csx & Csy & _ & _ & _ & Hn).
  - reflexivity.
  - reflexivity.
  - vm_compute. discriminate.
  - vm_compute. discriminate.
  - split; [exact Hc|]. split; [exact Hr|].
    split.
    { destruct Hn as [(_ & _ & Hl) | (Hneg & _)]; [exact Hl|].
      vm_compute in Hneg. now contradiction Hneg. }
    exists tw, th, sx, sy.
    split; [exact Htw|]. split; [exact Hth|].
    split; [exact Hsx|]. split; [exact Hsy|].
    split; [exact Etw|]. split; [exact Eth|].
    split; [exact Ltw|]. split; [exact Lth|].
    split; [exact Psx|]. split; [exact Psy|].
    split; [exact Csx | exact Csy].
Defined.

Lemma capacity_error_after_background_witness :
  createPrintSheet sample_browser sample_url (Fin 20) (Fin 20)
  = ({| canvas_width := 1200; canvas_height := 1800;
        calls := [fillRect "#FFFFFF" (Fin 0) (Fin 0) (Fin 1200) (Fin 1800)] |},
     Throws (Error "Portrait size is too large to fit on a 4x6 inch paper.")).
Proof.
  apply (capacity_error_after_background sample_browser sample_url
           (Fin 20) (Fin 20) sample_image);
    [reflexivity | reflexivity | right; vm_compute; reflexivity].
Defined.

Lemma zero_width_ratio_witness :
  paddedSize (div (Fin 0) (Fin 4)) (of_px 800) (of_px 600)
             (div (of_px 800) (of_px 600))
    = (of_px 800, PosInf) /\
  resizeImageToAspectRatio sample_browser sample_url "0:4"
    = Resolved (toDataURL sample_browser
                  (paddedCanvas sample_image (div (Fin 0) (Fin 4)))
                  "image/jpeg" (95 # 100)).
Proof.
  destruct (proj2 (proj2 (proj2 (proj2 zero_width_ratio_passes_validation)))
              sample_browser sample_url sample_image)
    as (_ & Hpad & Hres & _); try (vm_compute; reflexivity).
  split; [exact Hpad | exact Hres].
Defined.

Lemma sample_styles_distinct : NoDup (Photoshoot.style_id <$> sample_styles).
Proof. apply (bool_decide_unpack _). vm_compute. exact I. Defined.

Lemma batch_accounting_witness :
  (forall j, j ∈ sample_styles ->
     exists g,
       Pool.generatedImages (run_sample sample_schedule) !! Photoshoot.style_id j
         = Some g /\
       (status g = done /\ status g <> error
        \/ status g = error /\ status g <> done)) /\
  (forall k g,
     Pool.generatedImages (run_sample sample_schedule) !! k = Some g ->
     k ∈ Photoshoot.style_id <$> sample_styles) /\
  Pool.terminal_count (Pool.generatedImages (run_sample sample_schedule)) = 3%nat.
Proof.
  apply (batch_accounting Photoshoot.style_id (fun _ => true) false true
           sample_generate sample_styles 2
           (fun _ _ => eq_refl) sample_styles_distinct
           [] sample_schedule (run_sample sample_schedule));
    [lia | vm_compute; reflexivity | vm_compute; reflexivity].
Defined.

Lemma failure_isolated_witness :
  Pool.generatedImages (run_sample sample_schedule) !! "laughing_portrait"
  = Some {| status := error; url := None;
            error_message := Some "Rate limit exceeded" |}.
Proof.
  apply (failure_isolated Photoshoot.style_id (fun _ => true) false true
           sample_generate sample_styles 2
           (fun _ _ => eq_refl) sample_styles_distinct
           [] sample_schedule (run_sample sample_schedule)
           laughing_portrait (Error "Rate limit exceeded"));
    [lia | apply list_elem_of_further, list_elem_of_here
    | reflexivity | vm_compute; reflexivity | vm_compute; reflexivity].
Defined.

Lemma at_most_limit_in_flight_witness :
  (0 <= Pool.in_flight (Pool.events (run_sample [0; 1]%nat)) <= 2)%Z.
Proof.
  apply (at_most_limit_in_flight Photoshoot.style_id (fun _ => true) false true
           sample_generate 2 sample_styles [] [0; 1]%nat (run_sample [0; 1]%nat)).
  vm_compute. reflexivity.
Defined.

Lemma retry_witness :
  exists style s1,
    Photoshoot.handleRegeneratePhoto_start sample_styles (Some sample_url)
      "laughing_portrait" (run_sample sample_schedule) = Some (style, s1) /\
    Pool.generatedImages s1 !! "laughing_portrait" = Some pending_entry /\
    Pool.generatedImages s1 !! "smiling_portrait"
    = Pool.generatedImages (run_sample sample_schedule) !! "smiling_portrait".
Proof.
  destruct (retry_reaches_terminal_leaves_others sample_styles sample_url
              "laughing_portrait" (run_sample sample_schedule)
              {| status := error; url := None;
                 error_message := Some "Rate limit exceeded" |})
    as (style & s1 & Hstart & _ & Hpending & Hframe & _).
  - apply (bool_decide_unpack _). vm_compute. exact I.
  - vm_compute. reflexivity.
  - reflexivity.
  - exists style, s1. split; [exact Hstart|]. split; [exact Hpending|].
    apply Hframe. discriminate.
Defined.

(** * Further properties of the code *)

(** ** The order of the requests and the end of a batch *)

Section PoolOrder.

Import Pool PoolTrace.

Context {Job : Type}.
Variable job_id : Job -> string.
Variable starts : Job -> bool.
Variable marks_pending : bool.
Variable to_library : bool.
Variable work : Job -> Promise string.

Local Abbreviation State := (@Pool.State Job).
Local Abbreviation step := (Pool.step job_id starts marks_pending to_library work).
Local Abbreviation exec := (Pool.exec job_id starts marks_pending to_library work).
Local Abbreviation init := (Pool.init job_id).
Local Abbreviation order_invariant := (PoolTrace.order_invariant job_id starts).

Lemma order_step (jobs : list Job) (i : nat) (s s' : State) :
  order_invariant jobs s -> step i s = Some s' -> order_invariant jobs s'.
Proof.
  intros [(consumed & Hjobs & Hst) Hex] Hstep. unfold Pool.step in Hstep.
  destruct (workers s !! i) as [[|j|]|] eqn:Hi; try discriminate.
  - destruct (queue s) as [|j rest] eqn:Hq.
    + injection Hstep as <-. split; cbn [set_worker queue workers events].
      * exists consumed. rewrite Hq. now split.
      * intros _. exact Hq.
    + assert (Hnoexit : Exited ∉ workers s).
      { intros H. specialize (Hex H). discriminate. }
      destruct (starts j) eqn:Hsj; injection Hstep as <-;
        (split; cbn [queue workers events started]; [exists (consumed ++ [j])|]).
      * split; [now rewrite <- app_assoc|].
        rewrite filter_app, fmap_app, Hst. cbn. rewrite decide_True by exact Hsj.
        reflexivity.
      * intros H. apply elem_of_insert_inv in H as [H|H]; [discriminate | contradiction].
      * split; [now rewrite <- app_assoc|].
        rewrite filter_app, fmap_app, Hst. cbn.
        rewrite decide_False by (rewrite Hsj; discriminate).
        now rewrite app_nil_r.
      * intros H. contradiction.
  - injection Hstep as <-. split; cbn [set_worker settle queue workers events started].
    + exists consumed. now split.
    + intros H. apply elem_of_insert_inv in H as [H|H]; [discriminate | auto].
Qed.

Lemma order_exec (jobs : list Job) (schedule : list nat) (s s' : State) :
  order_invariant jobs s -> exec schedule s = Some s' -> order_invariant jobs s'.
Proof.
  revert s. induction schedule as [|i schedule IH]; intros s Hinv Hexec.
  - injection Hexec as <-. exact Hinv.
  - cbn [Pool.exec] in Hexec. destruct (step i s) as [s1|] eqn:Hs; [|discriminate].
    eapply IH; [|exact Hexec]. eapply order_step; eauto.
Qed.

Lemma order_init (concurrencyLimit : nat) (jobs : list Job) (library0 : list string) :
  order_invariant jobs (init concurrencyLimit jobs library0).
Proof.
  split; cbn [init queue workers events].
  - exists []. split; reflexivity.
  - intros H. apply elem_of_replicate in H as [H _]. discriminate.
Qed.

(** X1.  Requests start in queue order.  In every state an execution can
    reach, the queue is a suffix of the submitted list, and the requests
    started so far, earliest first, are those of the items consumed before
    it (the ones that reach their request), in the order of the list. *)
Theorem requests_start_in_queue_order (concurrencyLimit : nat) (jobs : list Job)
    (library0 : list string) (schedule : list nat) (s : State) :
  exec schedule (init concurrencyLimit jobs library0) = Some s ->
  exists consumed,
    jobs = consumed ++ queue s /\
    started (events s) = job_id <$> filter (fun j => starts j = true) consumed.
Proof.
  intros Hexec.
  destruct (order_exec jobs schedule _ s (order_init concurrencyLimit jobs library0) Hexec)
    as [H _].
  exact H.
Qed.

(** X2.  No worker leaves while work is queued: in every reachable state
    with a non-empty queue none of the workers has returned, so all
    [concurrencyLimit] of them are still taking items. *)
Theorem no_worker_leaves_while_queued (concurrencyLimit : nat) (jobs : list Job)
    (library0 : list string) (schedule : list nat) (s : State) :
  exec schedule (init concurrencyLimit jobs library0) = Some s ->
  queue s <> [] ->
  length (workers s) = concurrencyLimit /\
  forall w, w ∈ workers s -> w <> Exited.
Proof.
  intros Hexec Hq.
  destruct (order_exec jobs schedule _ s (order_init concurrencyLimit jobs library0) Hexec)
    as [_ Hex].
  split.
  - eapply (flight_exec job_id starts marks_pending to_library work concurrencyLimit);
      [|exact Hexec].
    split; cbn [init workers events in_flight].
    + apply length_replicate.
    + now rewrite awaiting_count_replicate.
  - intros w Hw ->. auto.
Qed.

Lemma awaiting_count_exited (ws : list (@Worker Job)) :
  forallb is_exited ws = true -> awaiting_count ws = 0%nat.
Proof.
  induction ws as [|w ws IH]; [reflexivity|]. cbn [forallb awaiting_count].
  intros H. apply andb_true_iff in H as [Hw Hws].
  destruct w; try discriminate. cbn. now apply IH.
Qed.

Lemma completed_batch_is_drained_queue (concurrencyLimit : nat) (jobs : list Job)
    (library0 : list string) (schedule : list nat) (s : State) :
  (1 <= concurrencyLimit)%nat ->
  exec schedule (init concurrencyLimit jobs library0) = Some s ->
  completed s = true ->
  queue s = [].
Proof.
  intros HC Hexec Hc.
  destruct (order_exec jobs schedule _ s (order_init concurrencyLimit jobs library0) Hexec)
    as [_ Hex].
  assert (Hfl : Pool.flight_invariant concurrencyLimit s).
  { eapply (flight_exec job_id starts marks_pending to_library work concurrencyLimit);
      [|exact Hexec].
    split; cbn [init workers events in_flight].
    - apply length_replicate.
    - now rewrite awaiting_count_replicate. }
  destruct Hfl as [Hsz _].
  apply Hex. destruct (workers s) as [|w ws] eqn:E; [cbn in Hsz; lia|].
  assert (Hw : w ∈ workers s) by (rewrite E; left).
  rewrite (completed_all_exited s w Hc Hw) in Hw. now rewrite <- E.
Qed.

(** X3.  When the pool has completed (at least one worker), the queue is
    empty, no request is in flight, and the requests that were started are
    exactly those of the submitted items that reach their request, each
    once and in the order of the list. *)
Theorem completed_batch_is_drained (concurrencyLimit : nat) (jobs : list Job)
    (library0 : list string) (schedule : list nat) (s : State) :
  (1 <= concurrencyLimit)%nat ->
  exec schedule (init concurrencyLimit jobs library0) = Some s ->
  completed s = true ->
  queue s = [] /\
  in_flight (events s) = 0%Z /\
  started (events s) = job_id <$> filter (fun j => starts j = true) jobs.
Proof.
  intros HC Hexec Hc.
  destruct (order_exec jobs schedule _ s (order_init concurrencyLimit jobs library0) Hexec)
    as [(consumed & Hjobs & Hst) _].
  assert (Hfl : Pool.flight_invariant concurrencyLimit s).
  { eapply (flight_exec job_id starts marks_pending to_library work concurrencyLimit);
      [|exact Hexec].
    split; cbn [init workers events in_flight].
    - apply length_replicate.
    - now rewrite awaiting_count_replicate. }
  destruct Hfl as [_ Hfl].
  pose proof (completed_batch_is_drained_queue concurrencyLimit jobs library0
                schedule s HC Hexec Hc) as Hq.
  split; [exact Hq|]. split.
  - rewrite Hfl. unfold completed in Hc. now rewrite (awaiting_count_exited _ Hc).
  - rewrite Hq, app_nil_r in Hjobs. now subst consumed.
Qed.

Lemma total_weight_replicate (n : nat) :
  total_weight (replicate n (@AtLoopHead Job)) = n.
Proof.
  induction n as [|n IH]; [reflexivity|].
  cbn [replicate total_weight weight]. now rewrite IH.
Qed.

(** X4.  A batch is finite: an execution from the initial state of [N]
    jobs and [C] workers takes at most [2 * N + C] steps. *)
Theorem batch_takes_at_most_2N_plus_C_steps (concurrencyLimit : nat)
    (jobs : list Job) (library0 : list string) (schedule : list nat) (s : State) :
  exec schedule (init concurrencyLimit jobs library0) = Some s ->
  (length schedule <= 2 * length jobs + concurrencyLimit)%nat.
Proof.
  intros Hexec. apply exec_bounded in Hexec.
  unfold remaining at 2 in Hexec. cbn [init queue workers] in Hexec.
  rewrite total_weight_replicate in Hexec. lia.
Qed.

(** X5.  A batch can always be finished: every reachable state extends to
    a completed one, in which every worker has left its loop. *)
Theorem batch_can_always_complete (concurrencyLimit : nat) (jobs : list Job)
    (library0 : list string) (schedule : list nat) (s : State) :
  exec schedule (init concurrencyLimit jobs library0) = Some s ->
  exists rest s',
    exec (schedule ++ rest) (init concurrencyLimit jobs library0) = Some s' /\
    completed s' = true.
Proof.
  intros Hexec.
  destruct (pool_completes job_id starts marks_pending to_library work s)
    as (rest & s' & Hrest & Hdone).
  exists rest, s'. split; [|exact Hdone].
  revert Hexec. generalize (init concurrencyLimit jobs library0).
  induction schedule as [|i schedule IH]; intros s0 Hexec.
  - injection Hexec as ->. exact Hrest.
  - cbn [Pool.exec app] in *. destruct (step i s0); [auto | discriminate].
Qed.

End PoolOrder.

(** ** The media library and the job map during a batch *)

Lemma elem_of_addImageToLibrary (imageUrl x : string) (prev : list string) :
  x ∈ addImageToLibrary imageUrl prev <-> x = imageUrl \/ x ∈ prev.
Proof.
  unfold addImageToLibrary. case_bool_decide as H.
  - split; [auto|]. intros [->|Hx]; assumption.
  - apply elem_of_cons.
Qed.

Lemma NoDup_addImageToLibrary (imageUrl : string) (prev : list string) :
  NoDup prev -> NoDup (addImageToLibrary imageUrl prev).
Proof.
  intros Hnd. unfold addImageToLibrary. case_bool_decide as H; [exact Hnd|].
  now apply NoDup_cons.
Qed.

Section PoolLibrary.

Import Pool PoolStores.

Context {Job : Type}.
Variable job_id : Job -> string.
Variable starts : Job -> bool.
Variable marks_pending : bool.
Variable work : Job -> Promise string.

Local Abbreviation State := (@Pool.State Job).
Local Abbreviation step := (Pool.step job_id starts marks_pending true work).
Local Abbreviation exec := (Pool.exec job_id starts marks_pending true work).
Local Abbreviation init := (Pool.init job_id).
Local Abbreviation library_invariant := (PoolStores.library_invariant work).

Variable jobs : list Job.
Variable library0 : list string.

Hypothesis jobs_start : forall j, j ∈ jobs -> starts j = true.

Lemma library_step (i : nat) (s s' : State) :
  library_invariant jobs library0 s -> step i s = Some s' ->
  library_invariant jobs library0 s'.
Proof.
  intros [Hnd Hgr Hor Hres Hq Haw] Hstep. unfold Pool.step in Hstep.
  destruct (workers s !! i) as [[|j'|]|] eqn:Hi; try discriminate.
  - destruct (queue s) as [|j' rest] eqn:Hqueue.
    + injection Hstep as <-.
      split; cbn [set_worker queue workers library].
      * exact Hnd.
      * exact Hgr.
      * exact Hor.
      * intros j Hj. destruct (Hres j Hj) as [H|[H|H]].
        -- inversion H.
        -- right; left. apply (elem_of_insert_keep _ _ _ _ _ Hi H). discriminate.
        -- now right; right.
      * rewrite Hqueue. exact Hq.
      * intros j Hj. apply elem_of_insert_inv in Hj as [Hj|Hj]; [discriminate | auto].
    + assert (Hj' : j' ∈ jobs) by (apply Hq; left).
      rewrite (jobs_start _ Hj') in Hstep. injection Hstep as <-.
      split; cbn [queue workers library].
      * exact Hnd.
      * exact Hgr.
      * exact Hor.
      * intros j Hj. destruct (Hres j Hj) as [H|[H|H]].
        -- apply elem_of_cons in H as [->|H]; [|now left].
           right; left. apply (elem_of_insert_new _ _ _ _ Hi).
        -- right; left. apply (elem_of_insert_keep _ _ _ _ _ Hi H). discriminate.
        -- now right; right.
      * intros j Hj. apply Hq. now right.
      * intros j Hj. apply elem_of_insert_inv in Hj as [Hj|Hj]; [|auto].
        injection Hj as ->. exact Hj'.
  - injection Hstep as <-.
    assert (Hj' : j' ∈ jobs).
    { apply Haw. apply list_elem_of_lookup. eauto. }
    assert (Hmono : forall u, u ∈ library s -> u ∈ library (settle job_id true work j' s)).
    { intros u Hu. cbn [settle library]. destruct (work j'); [|exact Hu].
      apply elem_of_addImageToLibrary. now right. }
    split; cbn [set_worker queue workers library].
    + intros H0. specialize (Hnd H0). cbn [settle library].
      destruct (work j'); [now apply NoDup_addImageToLibrary | exact Hnd].
    + intros u Hu. apply Hmono, Hgr, Hu.
    + intros u Hu. cbn [settle library] in Hu. destruct (work j') as [r|e] eqn:Hw; [|auto].
      apply elem_of_addImageToLibrary in Hu as [->|Hu]; [|auto].
      right. exists j'. now split.
    + intros j Hj. destruct (Hres j Hj) as [H|[H|H]].
      * now left.
      * apply list_elem_of_lookup in H as [k Hk].
        destruct (decide (k = i)) as [->|Hne].
        -- rewrite Hi in Hk. injection Hk as ->. right; right.
           intros u Hu. cbn [settle library]. rewrite Hu.
           apply elem_of_addImageToLibrary. now left.
        -- right; left. apply list_elem_of_lookup. exists k.
           now rewrite list_lookup_insert_ne.
      * right; right. intros u Hu. apply Hmono, H, Hu.
    + exact Hq.
    + intros j Hj. apply elem_of_insert_inv in Hj as [Hj|Hj]; [discriminate | auto].
Qed.

Lemma library_exec (schedule : list nat) (s s' : State) :
  library_invariant jobs library0 s -> exec schedule s = Some s' ->
  library_invariant jobs library0 s'.
Proof.
  revert s. induction schedule as [|i schedule IH]; intros s Hinv Hexec.
  - injection Hexec as <-. exact Hinv.
  - cbn [Pool.exec] in Hexec. destruct (step i s) as [s1|] eqn:Hs; [|discriminate].
    eapply IH; [|exact Hexec]. eapply library_step; eauto.
Qed.

Lemma library_init (concurrencyLimit : nat) :
  library_invariant jobs library0 (init concurrencyLimit jobs library0).
Proof.
  split; cbn [init queue workers library]; auto.
  intros j Hj. apply elem_of_replicate in Hj as [Hj _]. discriminate.
Qed.

(** X6.  A batch that records its results in the media library (the
    photoshoot does) only ever adds to it: the images it held stay, a
    library without duplicates stays without duplicates, and whatever else
    it holds is the result of one of the batch's requests.  Once the pool
    has completed, the result of every request that resolved is in the
    library. *)
Theorem batch_results_reach_library (concurrencyLimit : nat)
    (schedule : list nat) (s : State) :
  exec schedule (init concurrencyLimit jobs library0) = Some s ->
  (NoDup library0 -> NoDup (library s)) /\
  (forall u, u ∈ library0 -> u ∈ library s) /\
  (forall u, u ∈ library s ->
     u ∈ library0 \/ exists j, j ∈ jobs /\ work j = Resolved u) /\
  ((1 <= concurrencyLimit)%nat -> completed s = true ->
   forall j u, j ∈ jobs -> work j = Resolved u -> u ∈ library s).
Proof.
  intros Hexec.
  destruct (library_exec schedule _ s (library_init concurrencyLimit) Hexec)
    as [Hnd Hgr Hor Hres _ _].
  split; [exact Hnd|]. split; [exact Hgr|]. split; [exact Hor|].
  intros HC Hc j u Hj Hu.
  pose proof (completed_batch_is_drained_queue job_id starts marks_pending true work
                concurrencyLimit jobs library0 schedule s HC Hexec Hc) as Hq.
  destruct (Hres j Hj) as [H|[H|H]].
  - rewrite Hq in H. inversion H.
  - apply (completed_all_exited s _ Hc) in H. discriminate.
  - now apply H.
Qed.

End PoolLibrary.

Lemma lookup_initialImages {Job : Type} (job_id : Job -> string)
    (jobs : list Job) (k : string) :
  Pool.initialImages job_id jobs !! k
  = if decide (k ∈ job_id <$> jobs) then Some pending_entry else None.
Proof.
  unfold Pool.initialImages.
  assert (G : forall m : gmap string GeneratedImage,
             foldl (fun m j => <[job_id j := pending_entry]> m) m jobs !! k
             = if decide (k ∈ job_id <$> jobs) then Some pending_entry else m !! k).
  { induction jobs as [|j jobs IH]; intros m; cbn [foldl].
    - rewrite decide_False; [reflexivity | cbn; apply not_elem_of_nil].
    - rewrite IH, fmap_cons. destruct (decide (k ∈ job_id <$> jobs)) as [Hin|Hnin].
      + rewrite decide_True; [reflexivity | now right].
      + destruct (decide (k = job_id j)) as [->|Hne].
        * rewrite decide_True by left. apply lookup_insert_eq.
        * rewrite decide_False.
          -- apply lookup_insert_ne. congruence.
          -- intros H. apply elem_of_cons in H as [H|H]; contradiction. }
  rewrite G. destruct (decide _); [reflexivity | apply lookup_empty].
Qed.

Section PhotoshootStart.

Import Pool Photoshoot.

Variable ALL_PHOTO_STYLES : list Style.

(** X7.  When [handleGenerateClick] starts a batch, the job map it
    installs holds a [pending] entry for exactly the selected ids that are
    ids of a style, and nothing else; the queue holds those styles in the
    order of the style table (not of the selection), both workers are at the
    head of their loop and no request has been started. *)
Theorem handleGenerateClick_initial_state (uploadedImage : option string)
    (selectedStyles library0 : list string) (s0 : @Pool.State Style) :
  handleGenerateClick ALL_PHOTO_STYLES uploadedImage selectedStyles library0 = Some s0 ->
  (forall k,
     generatedImages s0 !! k
     = if decide (k ∈ selectedStyles /\ k ∈ style_id <$> ALL_PHOTO_STYLES)
       then Some pending_entry else None) /\
  queue s0 = filter (fun style => style_id style ∈ selectedStyles) ALL_PHOTO_STYLES /\
  workers s0 = [AtLoopHead; AtLoopHead] /\
  events s0 = [] /\
  library s0 = library0.
Proof.
  intros H0. apply handleGenerateClick_Some in H0 as (_ & _ & ->).
  cbn [init queue workers events library generatedImages].
  split; [|repeat split].
  intros k. rewrite lookup_initialImages.
  destruct (decide (k ∈ style_id <$>
              filter (fun style => style_id style ∈ selectedStyles) ALL_PHOTO_STYLES))
    as [Hin|Hnin].
  - rewrite decide_True; [reflexivity|].
    apply list_elem_of_fmap in Hin as (st & -> & Hst).
    apply list_elem_of_filter in Hst as [Hsel Hst].
    split; [exact Hsel | now apply list_elem_of_fmap_2].
  - rewrite decide_False; [reflexivity|].
    intros [Hsel Hid]. apply Hnin.
    apply list_elem_of_fmap in Hid as (st & -> & Hst).
    apply list_elem_of_fmap_2, list_elem_of_filter. now split.
Qed.

End PhotoshootStart.

Section PoolUnstarted.

Import Pool PoolStores.

Context {Job : Type}.
Variable job_id : Job -> string.
Variable starts : Job -> bool.
Variable marks_pending : bool.
Variable to_library : bool.
Variable work : Job -> Promise string.

Local Abbreviation State := (@Pool.State Job).
Local Abbreviation step := (Pool.step job_id starts marks_pending to_library work).
Local Abbreviation exec := (Pool.exec job_id starts marks_pending to_library work).
Local Abbreviation init := (Pool.init job_id).
Local Abbreviation unstarted_invariant := (PoolStores.unstarted_invariant job_id starts).

Variable jobs : list Job.
Hypothesis jobs_distinct : NoDup (job_id <$> jobs).

Lemma unstarted_step (i : nat) (s s' : State) :
  (forall j, j ∈ queue s -> j ∈ jobs) ->
  unstarted_invariant jobs s -> step i s = Some s' ->
  (forall j, j ∈ queue s' -> j ∈ jobs) /\ unstarted_invariant jobs s'.
Proof.
  intros Hq [Hpend Haw] Hstep. unfold Pool.step in Hstep.
  destruct (workers s !! i) as [[|j'|]|] eqn:Hi; try discriminate.
  - destruct (queue s) as [|j' rest] eqn:Hqueue.
    + injection Hstep as <-. cbn [set_worker queue workers generatedImages].
      split; [now rewrite Hqueue|]. split; cbn [set_worker queue workers generatedImages].
      * exact Hpend.
      * intros j Hj. apply elem_of_insert_inv in Hj as [Hj|Hj]; [discriminate | auto].
    + assert (Hj' : j' ∈ jobs) by (apply Hq; left).
      destruct (starts j') eqn:Hsj; injection Hstep as <-;
        cbn [queue workers generatedImages];
        (split; [intros j Hj; apply Hq; now right|]);
        split; cbn [queue workers generatedImages].
      * intros j Hj Hs. destruct marks_pending; [|auto].
        destruct (decide (job_id j' = job_id j)) as [E|E].
        -- rewrite E. apply lookup_insert_eq.
        -- rewrite lookup_insert_ne by exact E. auto.
      * intros j Hj. apply elem_of_insert_inv in Hj as [Hj|Hj]; [|auto].
        injection Hj as ->. now split.
      * exact Hpend.
      * exact Haw.
  - injection Hstep as <-. cbn [set_worker settle queue workers generatedImages].
    split; [exact Hq|].
    assert (Hj' : j' ∈ jobs /\ starts j' = true).
    { apply Haw. apply list_elem_of_lookup. eauto. }
    split; cbn [set_worker settle queue workers generatedImages].
    + intros j Hj Hs. rewrite lookup_insert_ne; [auto|].
      intros E. destruct Hj' as [Hj' Hs'].
      assert (j' = j) by (eapply fmap_NoDup_inj; eauto). congruence.
    + intros j Hj. apply elem_of_insert_inv in Hj as [Hj|Hj]; [discriminate | auto].
Qed.

Lemma unstarted_exec (schedule : list nat) (s s' : State) :
  (forall j, j ∈ queue s -> j ∈ jobs) ->
  unstarted_invariant jobs s -> exec schedule s = Some s' ->
  unstarted_invariant jobs s'.
Proof.
  revert s. induction schedule as [|i schedule IH]; intros s Hq Hinv Hexec.
  - injection Hexec as <-. exact Hinv.
  - cbn [Pool.exec] in Hexec. destruct (step i s) as [s1|] eqn:Hs; [|discriminate].
    destruct (unstarted_step i s s1 Hq Hinv Hs) as [Hq1 Hinv1].
    eapply IH; eauto.
Qed.

(** An item that does not reach its request keeps the [pending] entry the
    batch gave it at the start, whatever the other items do. *)
Lemma unstarted_stays_pending (concurrencyLimit : nat) (library0 : list string)
    (schedule : list nat) (s : State) (j : Job) :
  exec schedule (init concurrencyLimit jobs library0) = Some s ->
  j ∈ jobs -> starts j = false ->
  generatedImages s !! job_id j = Some pending_entry.
Proof.
  intros Hexec Hj Hs.
  assert (Hinv : unstarted_invariant jobs (init concurrencyLimit jobs library0)).
  { split; cbn [init queue workers generatedImages].
    - intros j0 Hj0 _. rewrite lookup_initialImages.
      rewrite decide_True; [reflexivity | now apply list_elem_of_fmap_2].
    - intros j0 H. apply elem_of_replicate in H as [H _]. discriminate. }
  assert (Hq : forall j0, j0 ∈ queue (init concurrencyLimit jobs library0) -> j0 ∈ jobs)
    by (intros j0 H; exact H).
  apply (uns_pending _ _ _ _ (unstarted_exec schedule _ s Hq Hinv Hexec) j Hj Hs).
Qed.

End PoolUnstarted.

Section ProductSceneUnknown.

Import Pool ProductScene.

Variable uploadedImage : option string.
Variable generate : string -> Promise string.

(** X8.  In the product scene generator a selected id that is not the id
    of an angle option (or is the empty string) gets its [pending] entry
    when the batch starts and keeps it in every state the batch can reach:
    no request is ever made for it, so the batch completes around an entry
    that never leaves [pending]. *)
Theorem unknown_angle_stays_pending (selectedAngles : list string)
    (schedule : list nat) (s0 s : @Pool.State string) (angleId : string) :
  NoDup selectedAngles ->
  handleGenerateAll uploadedImage selectedAngles = Some s0 ->
  exec uploadedImage generate schedule s0 = Some s ->
  angleId ∈ selectedAngles ->
  angleId ∉ angle_id <$> ANGLE_OPTIONS \/ angleId = "" ->
  generatedImages s !! angleId = Some pending_entry.
Proof.
  intros Hnd H0 Hexec Hin Hunknown. unfold handleGenerateAll in H0.
  destruct (bool_decide (uploadedImage = None) || bool_decide (selectedAngles = []));
    [discriminate|].
  injection H0 as <-.
  apply (unstarted_stays_pending (fun a : string => a) (starts uploadedImage)
           true false generate selectedAngles) with (j := angleId) in Hexec;
    [exact Hexec | now rewrite list_fmap_id | exact Hin |].
  unfold starts. destruct Hunknown as [H| ->].
  - rewrite (bool_decide_eq_false_2 _ H). now rewrite andb_false_r.
  - reflexivity.
Qed.

End ProductSceneUnknown.

(** ** The media library and the selection lists *)

(** X9.  [addImageToLibrary] puts the image in the library without ever
    duplicating one: the result holds the image and what was there before
    and nothing else, a library without duplicates stays so, an image that is
    already there leaves the library as it is, and adding twice is adding
    once. *)
Theorem addImageToLibrary_no_duplicates (imageUrl : string) (prev : list string) :
  (forall x, x ∈ addImageToLibrary imageUrl prev <-> x = imageUrl \/ x ∈ prev) /\
  (NoDup prev -> NoDup (addImageToLibrary imageUrl prev)) /\
  (imageUrl ∈ prev -> addImageToLibrary imageUrl prev = prev) /\
  addImageToLibrary imageUrl (addImageToLibrary imageUrl prev)
  = addImageToLibrary imageUrl prev.
Proof.
  split; [intros x; apply elem_of_addImageToLibrary|].
  split; [apply NoDup_addImageToLibrary|].
  assert (Hid : forall l, imageUrl ∈ l -> addImageToLibrary imageUrl l = l).
  { intros l H. unfold addImageToLibrary. now rewrite bool_decide_eq_true_2. }
  split; [apply Hid|].
  apply Hid, elem_of_addImageToLibrary. now left.
Qed.

Lemma elem_of_removeImagesFromLibrary (imageUrls prev : list string) (x : string) :
  x ∈ MediaLibrary.removeImagesFromLibrary imageUrls prev
  <-> x ∈ prev /\ x ∉ imageUrls.
Proof.
  unfold MediaLibrary.removeImagesFromLibrary. rewrite list_elem_of_filter. tauto.
Qed.

Lemma filter_all {A : Type} (P : A -> Prop) `{forall x, Decision (P x)} (l : list A) :
  (forall x, x ∈ l -> P x) -> filter P l = l.
Proof.
  induction l as [|a l IH]; intros Hall; [reflexivity|].
  rewrite filter_cons, decide_True by (apply Hall; left).
  f_equal. apply IH. intros x Hx. apply Hall. now right.
Qed.

(** X10.  [removeImagesFromLibrary] removes exactly the listed images: what
    is left are the other images, in their order; removing an image that was
    just added to a library that did not hold it gives the library back, and
    removing no image changes nothing. *)
Theorem removeImagesFromLibrary_removes_listed (imageUrls prev : list string) :
  (forall x, x ∈ MediaLibrary.removeImagesFromLibrary imageUrls prev
             <-> x ∈ prev /\ x ∉ imageUrls) /\
  MediaLibrary.removeImagesFromLibrary imageUrls prev `sublist_of` prev /\
  (NoDup prev -> NoDup (MediaLibrary.removeImagesFromLibrary imageUrls prev)) /\
  MediaLibrary.removeImagesFromLibrary [] prev = prev /\
  (forall u, u ∉ prev ->
     MediaLibrary.removeImagesFromLibrary [u] (addImageToLibrary u prev) = prev).
Proof.
  split; [intros x; apply elem_of_removeImagesFromLibrary|].
  split; [apply sublist_filter|].
  split; [apply NoDup_filter|].
  split.
  - apply filter_all. intros x _. apply not_elem_of_nil.
  - intros u Hu. unfold addImageToLibrary. rewrite bool_decide_eq_false_2 by exact Hu.
    unfold MediaLibrary.removeImagesFromLibrary.
    rewrite filter_cons, decide_False by (intros H; apply H; left).
    apply filter_all. intros x Hx H. apply list_elem_of_singleton in H as ->. contradiction.
Qed.

Lemma elem_of_toggle (id x : string) (prev : list string) :
  x ∈ Selection.toggle id prev
  <-> (x = id /\ id ∉ prev) \/ (x <> id /\ x ∈ prev).
Proof.
  unfold Selection.toggle. case_bool_decide as H.
  - rewrite list_elem_of_filter. split.
    + intros [Hne Hx]. now right.
    + intros [[_ Hn]|[Hne Hx]]; [contradiction | now split].
  - rewrite elem_of_app, list_elem_of_singleton. split.
    + intros [Hx| ->]; [|now left]. right. split; [|exact Hx]. intros ->. contradiction.
    + intros [[-> _]|[_ Hx]]; auto.
Qed.

Lemma NoDup_toggle (id : string) (prev : list string) :
  NoDup prev -> NoDup (Selection.toggle id prev).
Proof.
  intros Hnd. unfold Selection.toggle. case_bool_decide as H.
  - now apply NoDup_filter.
  - apply NoDup_app. split; [exact Hnd|]. split; [|apply NoDup_singleton].
    intros x Hx Hid. apply list_elem_of_singleton in Hid as ->. contradiction.
Qed.

(** X11.  Toggling an id in a selection list ([toggleStyleSelection],
    [toggleAngle]) flips whether that id is selected and nothing else: every
    other id is selected after exactly if it was before.  A newly selected id
    goes to the end of the list, a selection without duplicates stays so, and
    toggling an unselected id twice gives the list back. *)
Theorem toggle_flips_one_id (id : string) (prev : list string) :
  (id ∈ Selection.toggleStyleSelection id prev <-> id ∉ prev) /\
  (forall x, x <> id ->
     (x ∈ Selection.toggleStyleSelection id prev <-> x ∈ prev)) /\
  (id ∉ prev -> Selection.toggleStyleSelection id prev = prev ++ [id]) /\
  (NoDup prev -> NoDup (Selection.toggleStyleSelection id prev)) /\
  (id ∉ prev ->
   Selection.toggleStyleSelection id (Selection.toggleStyleSelection id prev)
   = prev).
Proof.
  unfold Selection.toggleStyleSelection.
  split; [rewrite elem_of_toggle; tauto|].
  split; [intros x Hne; rewrite elem_of_toggle; tauto|].
  assert (Hadd : id ∉ prev -> Selection.toggle id prev = prev ++ [id]).
  { intros H. unfold Selection.toggle. now rewrite bool_decide_eq_false_2. }
  split; [exact Hadd|]. split; [apply NoDup_toggle|].
  intros H. rewrite (Hadd H). unfold Selection.toggle.
  rewrite bool_decide_eq_true_2 by (apply elem_of_app; right; left).
  rewrite filter_app, filter_cons, decide_False by (intros E; now apply E).
  cbn. rewrite app_nil_r. apply filter_all. intros x Hx ->. contradiction.
Qed.

Lemma after_clicks_snoc (clicks : list string) (id : string) :
  Selection.after_clicks (clicks ++ [id])
  = Selection.toggleAngle id (Selection.after_clicks clicks).
Proof. unfold Selection.after_clicks. now rewrite foldl_app. Qed.

Lemma after_clicks_spec (clicks : list string) :
  NoDup (Selection.after_clicks clicks) /\
  forall x, x ∈ Selection.after_clicks clicks -> x ∈ clicks.
Proof.
  induction clicks as [|id clicks IH] using rev_ind.
  - split; [apply NoDup_nil_2 | intros x H; inversion H].
  - rewrite after_clicks_snoc. destruct IH as [Hnd Hsub]. split.
    + now apply NoDup_toggle.
    + intros x Hx. apply elem_of_toggle in Hx as [[-> _]|[_ Hx]].
      * apply elem_of_app. right. left.
      * apply elem_of_app. left. auto.
Qed.

Section ProductSceneClicks.

Import Pool ProductScene.

Variable generate : string -> Promise string.

(** X12.  Whatever sequence of angle buttons was clicked, the selection it
    leaves has no duplicate and holds only ids of angle options; so when
    [handleGenerateAll] runs on it with an image uploaded and the pool has
    completed, every selected angle holds the outcome of its own request,
    [done] or [error]. *)
Theorem clicked_angles_all_settle (image : string) (clicks : list string)
    (schedule : list nat) (s0 s : @Pool.State string) :
  (forall a, a ∈ clicks -> a ∈ angle_id <$> ANGLE_OPTIONS) ->
  handleGenerateAll (Some image) (Selection.after_clicks clicks) = Some s0 ->
  exec (Some image) generate schedule s0 = Some s ->
  completed s = true ->
  NoDup (Selection.after_clicks clicks) /\
  forall angleId, angleId ∈ Selection.after_clicks clicks ->
    angleId ∈ angle_id <$> ANGLE_OPTIONS /\
    generatedImages s !! angleId = Some (settled_entry (generate angleId)) /\
    is_terminal (settled_entry (generate angleId)) = true.
Proof.
  intros Hknown H0 Hexec Hc.
  destruct (after_clicks_spec clicks) as [Hnd Hsub].
  split; [exact Hnd|]. intros angleId Hin.
  split; [auto|]. split; [|apply settled_entry_terminal].
  eapply handleGenerateAll_completed; eauto.
Qed.

End ProductSceneClicks.

Section DeleteActiveImage.

Import Pool Photoshoot PhotoshootLibrary.

Variable ALL_PHOTO_STYLES : list Style.

(** X13.  After [handleDeleteFromLibrary] the deleted image is in neither
    library and is not the main image, while every other image stays in
    both libraries.  If it was the main image, no generation can start until
    another image is chosen: [handleGenerateClick] and
    [handleRegeneratePhoto] both return at their guard. *)
Theorem delete_active_image_blocks_generation (imageUrlToDelete : string)
    (st : Stores) :
  let st' := handleDeleteFromLibrary imageUrlToDelete st in
  (imageUrlToDelete ∉ localLibrary st') /\
  (imageUrlToDelete ∉ mediaLibrary st') /\
  uploadedImage st' <> Some imageUrlToDelete /\
  (forall x, x <> imageUrlToDelete ->
     (x ∈ localLibrary st' <-> x ∈ localLibrary st) /\
     (x ∈ mediaLibrary st' <-> x ∈ mediaLibrary st)) /\
  (uploadedImage st = Some imageUrlToDelete ->
   (forall selectedStyles library0,
      handleGenerateClick ALL_PHOTO_STYLES (uploadedImage st') selectedStyles library0
      = None) /\
   (forall photoId s,
      handleRegeneratePhoto_start ALL_PHOTO_STYLES (uploadedImage st') photoId s
      = None)).
Proof.
  cbv zeta. unfold handleDeleteFromLibrary.
  cbn [localLibrary mediaLibrary uploadedImage].
  split; [rewrite list_elem_of_filter; tauto|].
  split.
  { case_bool_decide as H; [|exact H].
    rewrite elem_of_removeImagesFromLibrary. intros [_ Hn]. apply Hn. left. }
  split.
  { case_bool_decide as H; [discriminate | exact H]. }
  split.
  { intros x Hne. split.
    - rewrite list_elem_of_filter. tauto.
    - case_bool_decide as H; [|tauto].
      rewrite elem_of_removeImagesFromLibrary, list_elem_of_singleton. tauto. }
  intros Hup. rewrite bool_decide_eq_true_2 by exact Hup. split.
  - intros sel lib. reflexivity.
  - intros photoId s. reflexivity.
Qed.

End DeleteActiveImage.

(** ** The cells of the print sheet *)

Section PrintSheetCells.

Import Utils PrintUtils.

Lemma portrait_px (cm : Q) :
  mul (mul (Fin cm) CM_TO_INCH) DPI = Fin (cm * (1 / (254 # 100)) * 300).
Proof. reflexivity. Qed.

Lemma px_pos (cm : Q) : 0 < cm -> 0 < cm * (1 / (254 # 100)) * 300.
Proof.
  intros H. apply Qmult_lt_0_compat; [|reflexivity].
  apply Qmult_lt_0_compat; [exact H | reflexivity].
Qed.

(** The grid of a portrait of positive size: whole numbers of columns and
    rows, a total size that fits the page and non-negative margins. *)
Lemma sheetGrid_spec (a b : Q) :
  0 < a -> 0 < b ->
  let w := a * (1 / (254 # 100)) * 300 in
  let h := b * (1 / (254 # 100)) * 300 in
  let p := (1 # 10) * (1 / (254 # 100)) * 300 in
  exists (c r : Z) (sx sy : Q),
    cols (sheetGrid (Fin a) (Fin b)) = Fin (inject_Z c) /\
    rows (sheetGrid (Fin a) (Fin b)) = Fin (inject_Z r) /\
    startX (sheetGrid (Fin a) (Fin b)) = Fin sx /\
    startY (sheetGrid (Fin a) (Fin b)) = Fin sy /\
    (0 <= c)%Z /\ (0 <= r)%Z /\
    0 <= sx /\ 0 <= sy /\
    sx + (inject_Z c * (w + p) - p) <= 1200 /\
    sy + (inject_Z r * (h + p) - p) <= 1800.
Proof.
  intros Ha Hb w h p.
  assert (Hw : 0 < w) by (apply px_pos; assumption).
  assert (Hh : 0 < h) by (apply px_pos; assumption).
  assert (Hp : 0 < p) by reflexivity.
  assert (Hp1 : p < 1200) by reflexivity.
  assert (Hp2 : p < 1800) by reflexivity.
  unfold sheetGrid, gridLayout. rewrite !portrait_px. fold w h p.
  change (mul PAPER_WIDTH_INCHES DPI) with (Fin 1200).
  change (mul PAPER_HEIGHT_INCHES DPI) with (Fin 1800).
  cbn [cols rows startX startY sub add neg].
  rewrite !div_Fin by lra. cbn [floor mul sub add neg]. rewrite !div_Fin by lra.
  set (c := Qfloor ((1200 + - p) / (w + p))).
  set (r := Qfloor ((1800 + - p) / (h + p))).
  pose proof (Qfloor_le ((1200 + - p) / (w + p))) as Fc. fold c in Fc.
  pose proof (Qfloor_le ((1800 + - p) / (h + p))) as Fr. fold r in Fr.
  assert (Ec : (1200 + - p) / (w + p) * (w + p) == 1200 - p) by (field; lra).
  assert (Er : (1800 + - p) / (h + p) * (h + p) == 1800 - p) by (field; lra).
  assert (Mc : inject_Z c * (w + p) <= (1200 + - p) / (w + p) * (w + p))
    by (apply Qmult_le_compat_r; [exact Fc | lra]).
  assert (Mr : inject_Z r * (h + p) <= (1800 + - p) / (h + p) * (h + p))
    by (apply Qmult_le_compat_r; [exact Fr | lra]).
  rewrite Ec in Mc. rewrite Er in Mr.
  assert (Hc0 : (0 <= c)%Z).
  { change 0%Z with (Qfloor 0). apply Qfloor_resp_le. apply Qle_shift_div_l; lra. }
  assert (Hr0 : (0 <= r)%Z).
  { change 0%Z with (Qfloor 0). apply Qfloor_resp_le. apply Qle_shift_div_l; lra. }
  exists c, r,
    ((1200 + - (inject_Z c * w + (inject_Z c + - 1) * p)) / 2),
    ((1800 + - (inject_Z r * h + (inject_Z r + - 1) * p)) / 2).
  do 4 (split; [reflexivity|]). split; [exact Hc0|]. split; [exact Hr0|].
  clearbody c r. clear Fc Fr Ec Er Hc0 Hr0.
  set (cq := inject_Z c) in *. set (rq := inject_Z r) in *.
  clearbody cq rq p w h.
  assert (Tx : cq * w + (cq + - 1) * p == cq * (w + p) - p) by ring.
  assert (Ty : rq * h + (rq + - 1) * p == rq * (h + p) - p) by ring.
  set (tw := cq * w + (cq + - 1) * p) in *.
  set (th := rq * h + (rq + - 1) * p) in *. clearbody tw th.
  assert (Hx : (1200 + - tw) / 2 == (1200 - tw) * (1 # 2)) by (field; lra).
  assert (Hy : (1800 + - th) / 2 == (1800 - th) * (1 # 2)) by (field; lra).
  repeat split; rewrite ?Hx, ?Hy; lra.
Qed.

Lemma emptyGrid_false (g : Grid) (c r : Z) :
  cols g = Fin (inject_Z c) -> rows g = Fin (inject_Z r) ->
  emptyGrid g = false -> c <> 0%Z /\ r <> 0%Z.
Proof.
  unfold emptyGrid. intros -> -> H. apply orb_false_iff in H as [Hc Hr].
  split; intros ->; discriminate.
Qed.

(** What [createPrintSheet] returns for a portrait of positive size whose
    grid is not empty. *)
Lemma createPrintSheet_returns (b : Browser) (portraitDataUrl : string)
    (wCm hCm : Q) (img : Image) :
  has_context b = true ->
  decode b portraitDataUrl = Some img ->
  0 < wCm -> 0 < hCm ->
  emptyGrid (sheetGrid (Fin wCm) (Fin hCm)) = false ->
  let w := wCm * (1 / (254 # 100)) * 300 in
  let h := hCm * (1 / (254 # 100)) * 300 in
  let p := (1 # 10) * (1 / (254 # 100)) * 300 in
  exists (c r : Z) (sx sy : Q) (canvas : Canvas),
    cols (sheetGrid (Fin wCm) (Fin hCm)) = Fin (inject_Z c) /\
    rows (sheetGrid (Fin wCm) (Fin hCm)) = Fin (inject_Z r) /\
    startX (sheetGrid (Fin wCm) (Fin hCm)) = Fin sx /\
    startY (sheetGrid (Fin wCm) (Fin hCm)) = Fin sy /\
    (1 <= c)%Z /\ (1 <= r)%Z /\
    0 <= sx /\ 0 <= sy /\
    sx + (inject_Z c * (w + p) - p) <= 1200 /\
    sy + (inject_Z r * (h + p) - p) <= 1800 /\
    createPrintSheet b portraitDataUrl (Fin wCm) (Fin hCm)
    = (canvas, Returns (toDataURL b canvas "image/jpeg" (95 # 100))) /\
    canvas_width canvas = 1200%Z /\ canvas_height canvas = 1800%Z /\
    calls canvas
    = fillRect "#FFFFFF" (Fin 0) (Fin 0) (Fin 1200) (Fin 1800)
      :: cellCalls img (sheetGrid (Fin wCm) (Fin hCm)) (Fin w) (Fin h) (Fin p)
                   (Z.to_nat r) (Z.to_nat c).
Proof.
  intros Hctx Hdec Ha Hb Hne w h p.
  destruct (sheetGrid_spec wCm hCm Ha Hb)
    as (c & r & sx & sy & Hc & Hr & Hsx & Hsy & Hc0 & Hr0 & Hx0 & Hy0 & Hxw & Hyh).
  destruct (emptyGrid_false _ c r Hc Hr Hne) as [Hcn Hrn].
  exists c, r, sx, sy. eexists.
  do 4 (split; [assumption|]). split; [lia|]. split; [lia|].
  do 4 (split; [assumption|]).
  unfold createPrintSheet. rewrite Hctx, Hdec. cbn [negb].
  fold (sheetGrid (Fin wCm) (Fin hCm)). rewrite Hne, Hc, Hr, !iterations_whole.
  rewrite !portrait_px. fold w h p.
  destruct (Z.to_nat r) as [|n] eqn:E; [lia|]. rewrite <- E.
  split; [reflexivity|]. split; [reflexivity|]. split; reflexivity.
Qed.

(** X14.  For a portrait of positive size whose grid is not empty (with a
    2D context and a decodable image), [createPrintSheet] returns the
    encoding of a 1200 x 1800 canvas that received the white background and
    then exactly [cols * rows] portraits, at least one.  Every portrait is
    drawn at the requested size in pixels, unscaled by the layout, and lies
    entirely on the page. *)
Theorem print_sheet_cells_on_page (b : Browser) (portraitDataUrl : string)
    (wCm hCm : Q) (img : Image) :
  has_context b = true ->
  decode b portraitDataUrl = Some img ->
  0 < wCm -> 0 < hCm ->
  emptyGrid (sheetGrid (Fin wCm) (Fin hCm)) = false ->
  let w := wCm * (1 / (254 # 100)) * 300 in
  let h := hCm * (1 / (254 # 100)) * 300 in
  exists (c r : Z) (canvas : Canvas) (cells : list DrawOp),
    cols (sheetGrid (Fin wCm) (Fin hCm)) = Fin (inject_Z c) /\
    rows (sheetGrid (Fin wCm) (Fin hCm)) = Fin (inject_Z r) /\
    (1 <= c)%Z /\ (1 <= r)%Z /\
    createPrintSheet b portraitDataUrl (Fin wCm) (Fin hCm)
    = (canvas, Returns (toDataURL b canvas "image/jpeg" (95 # 100))) /\
    canvas_width canvas = 1200%Z /\ canvas_height canvas = 1800%Z /\
    calls canvas
    = fillRect "#FFFFFF" (Fin 0) (Fin 0) (Fin 1200) (Fin 1800) :: cells /\
    length cells = Z.to_nat (c * r) /\
    forall op, op ∈ cells ->
      exists x y : Q,
        op = drawImage5 img (Fin x) (Fin y) (Fin w) (Fin h) /\
        0 <= x /\ x + w <= 1200 /\ 0 <= y /\ y + h <= 1800.
Proof.
  intros Hctx Hdec Ha Hb Hne w h.
  destruct (createPrintSheet_returns b portraitDataUrl wCm hCm img Hctx Hdec Ha Hb Hne)
    as (c & r & sx & sy & canvas & Hc & Hr & Hsx & Hsy & Hc1 & Hr1
        & Hx0 & Hy0 & Hxw & Hyh & Hres & Hcw & Hch & Hcalls).
  fold w h in Hxw, Hyh, Hcalls.
  set (p := (1 # 10) * (1 / (254 # 100)) * 300) in *.
  assert (Hp : 0 < p) by reflexivity.
  assert (Hw : 0 < w) by (apply px_pos; assumption).
  assert (Hh : 0 < h) by (apply px_pos; assumption).
  exists c, r, canvas. eexists.
  do 4 (split; [assumption|]). split; [exact Hres|].
  split; [exact Hcw|]. split; [exact Hch|]. split; [exact Hcalls|].
  split.
  - rewrite length_cellCalls. lia.
  - intros op Hop. apply (elem_of_cellCalls img _ sx sy w h p _ _ op Hsx Hsy) in Hop
      as (row & col & Hrow & Hcol & ->).
    eexists _, _. split; [reflexivity|].
    assert (Bc : inject_Z (Z.of_nat col) + 1 <= inject_Z c).
    { change 1 with (inject_Z 1). rewrite <- inject_Z_plus, <- Zle_Qle. lia. }
    assert (Br : inject_Z (Z.of_nat row) + 1 <= inject_Z r).
    { change 1 with (inject_Z 1). rewrite <- inject_Z_plus, <- Zle_Qle. lia. }
    assert (Pc : 0 <= inject_Z (Z.of_nat col)).
    { change 0 with (inject_Z 0). rewrite <- Zle_Qle. lia. }
    assert (Pr : 0 <= inject_Z (Z.of_nat row)).
    { change 0 with (inject_Z 0). rewrite <- Zle_Qle. lia. }
    clearbody p w h.
    set (cq := inject_Z (Z.of_nat col)) in *. set (rq := inject_Z (Z.of_nat row)) in *.
    set (C := inject_Z c) in *. set (R := inject_Z r) in *.
    clearbody cq rq C R.
    assert (cq * (w + p) <= (C - 1) * (w + p)) by (apply Qmult_le_compat_r; lra).
    assert (rq * (h + p) <= (R - 1) * (h + p)) by (apply Qmult_le_compat_r; lra).
    assert (0 <= cq * (w + p)) by (apply Qmult_le_0_compat; lra).
    assert (0 <= rq * (h + p)) by (apply Qmult_le_0_compat; lra).
    repeat split; lra.
Qed.

(** X15.  Two portraits of a print sheet never overlap: two drawing calls
    of the grid are the same cell, or their rectangles are at least the
    padding apart, horizontally or vertically. *)
Theorem print_sheet_cells_apart (b : Browser) (portraitDataUrl : string)
    (wCm hCm : Q) (img : Image) :
  has_context b = true ->
  decode b portraitDataUrl = Some img ->
  0 < wCm -> 0 < hCm ->
  emptyGrid (sheetGrid (Fin wCm) (Fin hCm)) = false ->
  let w := wCm * (1 / (254 # 100)) * 300 in
  let h := hCm * (1 / (254 # 100)) * 300 in
  let p := (1 # 10) * (1 / (254 # 100)) * 300 in
  forall op1 op2,
    op1 ∈ calls (createPrintSheet b portraitDataUrl (Fin wCm) (Fin hCm)).1 ->
    op2 ∈ calls (createPrintSheet b portraitDataUrl (Fin wCm) (Fin hCm)).1 ->
    forall x1 y1 x2 y2 : Q,
      op1 = drawImage5 img (Fin x1) (Fin y1) (Fin w) (Fin h) ->
      op2 = drawImage5 img (Fin x2) (Fin y2) (Fin w) (Fin h) ->
      (x1 == x2 /\ y1 == y2) \/
      x1 + w + p <= x2 \/ x2 + w + p <= x1 \/
      y1 + h + p <= y2 \/ y2 + h + p <= y1.
Proof.
  intros Hctx Hdec Ha Hb Hne w h p op1 op2 H1 H2 x1 y1 x2 y2 E1 E2.
  destruct (createPrintSheet_returns b portraitDataUrl wCm hCm img Hctx Hdec Ha Hb Hne)
    as (c & r & sx & sy & canvas & Hc & Hr & Hsx & Hsy & _ & _
        & _ & _ & _ & _ & Hres & _ & _ & Hcalls).
  fold w h p in Hcalls. rewrite Hres in H1, H2. cbn [fst] in H1, H2.
  rewrite Hcalls in H1, H2.
  apply elem_of_cons in H1 as [H1|H1]; [subst op1; discriminate|].
  apply elem_of_cons in H2 as [H2|H2]; [subst op2; discriminate|].
  apply (elem_of_cellCalls img _ sx sy w h p _ _ op1 Hsx Hsy) in H1
    as (row1 & col1 & _ & _ & F1).
  apply (elem_of_cellCalls img _ sx sy w h p _ _ op2 Hsx Hsy) in H2
    as (row2 & col2 & _ & _ & F2).
  rewrite E1 in F1. rewrite E2 in F2.
  injection F1 as -> ->. injection F2 as -> ->.
  assert (Hp : 0 < p) by reflexivity.
  assert (Hw : 0 < w) by (apply px_pos; assumption).
  assert (Hh : 0 < h) by (apply px_pos; assumption).
  clearbody p w h.
  assert (Step : forall (m n : nat) (d : Q), 0 < d -> (m < n)%nat ->
            inject_Z (Z.of_nat m) * d + d <= inject_Z (Z.of_nat n) * d).
  { intros m n d Hd Hmn.
    assert (inject_Z (Z.of_nat m) + 1 <= inject_Z (Z.of_nat n)).
    { change 1 with (inject_Z 1). rewrite <- inject_Z_plus, <- Zle_Qle. lia. }
    assert ((inject_Z (Z.of_nat m) + 1) * d <= inject_Z (Z.of_nat n) * d)
      by (apply Qmult_le_compat_r; lra).
    lra. }
  destruct (lt_eq_lt_dec col1 col2) as [[Hlt| ->]|Hgt].
  - right; left. pose proof (Step col1 col2 (w + p) ltac:(lra) Hlt). lra.
  - destruct (lt_eq_lt_dec row1 row2) as [[Hlt| ->]|Hgt].
    + right; right; right; left. pose proof (Step row1 row2 (h + p) ltac:(lra) Hlt). lra.
    + left. split; reflexivity.
    + right; right; right; right. pose proof (Step row2 row1 (h + p) ltac:(lra) Hgt). lra.
  - right; right; left. pose proof (Step col2 col1 (w + p) ltac:(lra) Hgt). lra.
Qed.

End PrintSheetCells.

(** ** Where the padded image is drawn *)

Section ResizePlacement.

Import Utils.

Lemma paddedSize_cases (r ow oh : Q) :
  0 < r -> 0 < ow -> 0 < oh ->
  paddedSize (Fin r) (Fin ow) (Fin oh) (Fin (ow / oh)) = (Fin (oh * r), Fin oh)
    /\ ow <= oh * r
  \/ paddedSize (Fin r) (Fin ow) (Fin oh) (Fin (ow / oh)) = (Fin ow, Fin (ow / r))
    /\ oh <= ow / r.
Proof.
  intros Hr Hw Hh. unfold paddedSize.
  assert (E : ow / oh * oh == ow) by (field; lra).
  destruct (gt (Fin r) (Fin (ow / oh))) eqn:G.
  - left. split; [reflexivity|]. apply gt_Fin in G. nra.
  - right. rewrite div_Fin by lra. split; [reflexivity|].
    apply gt_Fin_false in G. apply Qle_shift_div_l; [lra|]. nra.
Qed.

Lemma scaleFor_cases (cw ch : Q) :
  0 < cw -> 0 < ch ->
  scaleFor (Fin cw) (Fin ch) = Fin 1 /\ cw <= 1024 /\ ch <= 1024
  \/ (exists s, scaleFor (Fin cw) (Fin ch) = Fin s /\ 0 < s /\ s <= 1 /\
                cw * s == 1024 /\ ch * s <= 1024)
  \/ (exists s, scaleFor (Fin cw) (Fin ch) = Fin s /\ 0 < s /\ s <= 1 /\
                ch * s == 1024 /\ cw * s <= 1024).
Proof.
  intros Hw Hh. unfold scaleFor, MAX_DIMENSION.
  assert (Big : forall a c : Q, 0 < a -> 0 < c -> 1024 < a -> c <= a ->
            0 < 1024 / a /\ 1024 / a <= 1 /\ a * (1024 / a) == 1024 /\ c * (1024 / a) <= 1024).
  { intros a c Ha Hc Hbig Hle.
    assert (0 < / a) by now apply Qinv_lt_0_compat.
    assert (Ea : a * (1024 / a) == 1024) by (field; lra).
    assert (Ec : c * (1024 / a) == 1024 * (c * / a)) by (field; lra).
    assert (c * / a <= 1) by (apply Qle_shift_div_r; lra).
    assert (1024 / a <= 1) by (apply Qle_shift_div_r; lra).
    repeat split; [unfold Qdiv; nra | lra | lra | lra]. }
  destruct (gt (Fin cw) (Fin 1024)) eqn:E1; cbn [orb].
  - apply gt_Fin in E1. destruct (gt (Fin cw) (Fin ch)) eqn:E2.
    + apply gt_Fin in E2. rewrite div_Fin by lra. right; left.
      exists (1024 / cw). split; [reflexivity|].
      destruct (Big cw ch Hw Hh E1 ltac:(lra)) as (? & ? & ? & ?). auto.
    + apply gt_Fin_false in E2. rewrite div_Fin by lra. right; right.
      exists (1024 / ch). split; [reflexivity|].
      destruct (Big ch cw Hh Hw ltac:(lra) E2) as (? & ? & ? & ?). auto.
  - apply gt_Fin_false in E1. destruct (gt (Fin ch) (Fin 1024)) eqn:E3.
    + apply gt_Fin in E3.
      assert (E2 : gt (Fin cw) (Fin ch) = false) by (apply gt_Fin_false; lra).
      rewrite E2, div_Fin by lra. right; right.
      exists (1024 / ch). split; [reflexivity|].
      destruct (Big ch cw Hh Hw E3 ltac:(lra)) as (? & ? & ? & ?). auto.
    + apply gt_Fin_false in E3. left. auto.
Qed.

Lemma Qfloor_half (n : Z) : Qfloor (inject_Z n + (1 # 2)) = n.
Proof.
  apply Z.le_antisymm.
  - apply Z.lt_succ_r. rewrite Zlt_Qlt.
    eapply Qle_lt_trans; [apply Qfloor_le|].
    unfold Z.succ. rewrite inject_Z_plus. change (inject_Z 1) with 1. lra.
  - rewrite <- (Qfloor_Z n) at 1. apply Qfloor_resp_le. lra.
Qed.

Lemma round_whole (x : Q) (n : Z) : x == inject_Z n -> Qfloor (x + (1 # 2)) = n.
Proof. intros E. rewrite (Qfloor_comp _ (inject_Z n + (1 # 2))) by lra. apply Qfloor_half. Qed.

Lemma round_mono (x y : Q) : x <= y -> (Qfloor (x + (1 # 2)) <= Qfloor (y + (1 # 2)))%Z.
Proof. intros H. apply Qfloor_resp_le. lra. Qed.

Lemma round_nonneg (x : Q) : 0 <= x -> (0 <= Qfloor (x + (1 # 2)))%Z.
Proof. intros H. change 0%Z with (Qfloor 0). apply Qfloor_resp_le. lra. Qed.

(** X16.  When [resizeImageToAspectRatio] pads (positive ratio components,
    positive image size), the canvas is first filled with black over its
    whole area and the whole source image is then drawn once, inside the
    canvas and centered.  The image is never enlarged; it spans the canvas on
    one axis, so bars appear on the other axis only; and it is either drawn
    at its original size or scaled down so that the long side of the canvas
    is exactly 1024 pixels. *)
Theorem padded_image_centered_inside (img : Image) (w h : Q) :
  0 < w -> 0 < h ->
  (0 < width img)%Z -> (0 < height img)%Z ->
  let c := paddedCanvas img (div (Fin w) (Fin h)) in
  exists (iw ih : Z),
    calls c
    = [ fillRect "#000000" (Fin 0) (Fin 0)
                 (of_px (canvas_width c)) (of_px (canvas_height c));
        drawImage9 img (Fin 0) (Fin 0) (of_px (width img)) (of_px (height img))
                   (Fin ((inject_Z (canvas_width c) + - inject_Z iw) / 2))
                   (Fin ((inject_Z (canvas_height c) + - inject_Z ih) / 2))
                   (of_px iw) (of_px ih) ] /\
    (0 <= iw <= canvas_width c)%Z /\
    (0 <= ih <= canvas_height c)%Z /\
    (iw <= width img)%Z /\ (ih <= height img)%Z /\
    (iw = canvas_width c \/ ih = canvas_height c) /\
    (iw = width img /\ ih = height img
     \/ canvas_width c = 1024%Z \/ canvas_height c = 1024%Z).
Proof.
  intros Hw Hh Hiw Hih c. subst c.
  rewrite div_Fin by lra.
  assert (Hr : 0 < w / h).
  { assert (0 < / h) by now apply Qinv_lt_0_compat. unfold Qdiv. nra. }
  pose proof (inject_Z_pos _ Hiw) as How. pose proof (inject_Z_pos _ Hih) as Hoh.
  set (ow := inject_Z (width img)) in *. set (oh := inject_Z (height img)) in *.
  set (r := w / h) in *.
  assert (Hir : 0 < / r) by now apply Qinv_lt_0_compat.
  unfold paddedCanvas, of_px. fold ow oh. rewrite (div_Fin ow) by lra.
  assert (Main : forall cw ch s,
    0 < cw -> 0 < ch -> ow <= cw -> oh <= ch -> (cw == ow \/ ch == oh) ->
    0 < s -> s <= 1 -> cw * s <= 1024 -> ch * s <= 1024 ->
    (s == 1 \/ cw * s == 1024 \/ ch * s == 1024) ->
    let W := Qfloor (cw * s + (1 # 2)) in
    let H := Qfloor (ch * s + (1 # 2)) in
    let iw := Qfloor (ow * s + (1 # 2)) in
    let ih := Qfloor (oh * s + (1 # 2)) in
    (0 <= W <= 1024)%Z /\ (0 <= H <= 1024)%Z /\
    (0 <= iw <= W)%Z /\ (0 <= ih <= H)%Z /\
    (iw <= width img)%Z /\ (ih <= height img)%Z /\
    (iw = W \/ ih = H) /\
    (iw = width img /\ ih = height img \/ W = 1024%Z \/ H = 1024%Z)).
  { intros cw ch s Hcw Hch Hwle Hhle Hone Hs Hs1 Bw Bh Hsc W H iw ih.
    assert (0 <= ow * s) by nra. assert (0 <= oh * s) by nra.
    assert (ow * s <= cw * s) by nra. assert (oh * s <= ch * s) by nra.
    assert (ow * s <= ow) by nra. assert (oh * s <= oh) by nra.
    split; [apply round_range; [nra | exact Bw]|].
    split; [apply round_range; [nra | exact Bh]|].
    split; [split; [now apply round_nonneg | now apply round_mono]|].
    split; [split; [now apply round_nonneg | now apply round_mono]|].
    split.
    { unfold iw. rewrite <- (Qfloor_half (width img)). fold ow. now apply round_mono. }
    split.
    { unfold ih. rewrite <- (Qfloor_half (height img)). fold oh. now apply round_mono. }
    split.
    { destruct Hone as [E|E]; [left | right]; unfold iw, W, ih, H;
        apply Qfloor_comp; rewrite E; reflexivity. }
    destruct Hsc as [E|[E|E]].
    - left. unfold iw, ih. split; apply round_whole; rewrite E; unfold ow, oh; ring.
    - right; left. unfold W. apply (round_whole _ 1024). exact E.
    - right; right. unfold H. apply (round_whole _ 1024). exact E. }
  destruct (paddedSize_cases r ow oh Hr How Hoh) as [[-> Hle]|[-> Hle]].
  - assert (Hcw : 0 < oh * r) by nra.
    destruct (scaleFor_cases (oh * r) oh Hcw Hoh)
      as [(-> & B1 & B2)|[(s & -> & S0 & S1 & E & B)|(s & -> & S0 & S1 & E & B)]].
    + destruct (Main (oh * r) oh 1 Hcw Hoh Hle ltac:(lra) ltac:(right; reflexivity)
                  ltac:(lra) ltac:(lra) ltac:(lra) ltac:(lra) ltac:(left; reflexivity))
        as (RW & RH & Iw & Ih & Lw & Lh & One & Sc).
      cbn [mul round sub add neg canvas_width canvas_height calls].
      rewrite !div_Fin by lra. rewrite !set_dimension_small by lia.
      eexists _, _. split; [reflexivity|]. auto 10.
    + destruct (Main (oh * r) oh s Hcw Hoh Hle ltac:(lra) ltac:(right; reflexivity)
                  S0 S1 ltac:(lra) B ltac:(right; left; exact E))
        as (RW & RH & Iw & Ih & Lw & Lh & One & Sc).
      cbn [mul round sub add neg canvas_width canvas_height calls].
      rewrite !div_Fin by lra. rewrite !set_dimension_small by lia.
      eexists _, _. split; [reflexivity|]. auto 10.
    + destruct (Main (oh * r) oh s Hcw Hoh Hle ltac:(lra) ltac:(right; reflexivity)
                  S0 S1 B ltac:(lra) ltac:(right; right; exact E))
        as (RW & RH & Iw & Ih & Lw & Lh & One & Sc).
      cbn [mul round sub add neg canvas_width canvas_height calls].
      rewrite !div_Fin by lra. rewrite !set_dimension_small by lia.
      eexists _, _. split; [reflexivity|]. auto 10.
  - assert (Hch : 0 < ow / r) by (unfold Qdiv; nra).
    destruct (scaleFor_cases ow (ow / r) How Hch)
      as [(-> & B1 & B2)|[(s & -> & S0 & S1 & E & B)|(s & -> & S0 & S1 & E & B)]].
    + destruct (Main ow (ow / r) 1 How Hch ltac:(lra) Hle ltac:(left; reflexivity)
                  ltac:(lra) ltac:(lra) ltac:(lra) ltac:(lra) ltac:(left; reflexivity))
        as (RW & RH & Iw & Ih & Lw & Lh & One & Sc).
      cbn [mul round sub add neg canvas_width canvas_height calls].
      rewrite !div_Fin by lra. rewrite !set_dimension_small by lia.
      eexists _, _. split; [reflexivity|]. auto 10.
    + destruct (Main ow (ow / r) s How Hch ltac:(lra) Hle ltac:(left; reflexivity)
                  S0 S1 ltac:(lra) B ltac:(right; left; exact E))
        as (RW & RH & Iw & Ih & Lw & Lh & One & Sc).
      cbn [mul round sub add neg canvas_width canvas_height calls].
      rewrite !div_Fin by lra. rewrite !set_dimension_small by lia.
      eexists _, _. split; [reflexivity|]. auto 10.
    + destruct (Main ow (ow / r) s How Hch ltac:(lra) Hle ltac:(left; reflexivity)
                  S0 S1 B ltac:(lra) ltac:(right; right; exact E))
        as (RW & RH & Iw & Ih & Lw & Lh & One & Sc).
      cbn [mul round sub add neg canvas_width canvas_height calls].
      rewrite !div_Fin by lra. rewrite !set_dimension_small by lia.
      eexists _, _. split; [reflexivity|]. auto 10.
Qed.

(** X17.  Cropping an image to its own ratio, computed as the program
    computes a ratio ([width / height], a double): there is no shortcut as in
    [resizeImageToAspectRatio], the image is drawn and encoded again.  The
    width is kept and the crop height is [width / ratio] as a double, which
    can fall just below the height: the canvas has the height of the image or
    one row less. *)
Theorem crop_to_own_ratio_loses_at_most_one_row (b : Browser) (dataUrl : string)
    (img : Image) :
  decode b dataUrl = Some img ->
  has_context b = true ->
  (0 < width img <= 2147483647)%Z ->
  (0 < height img <= 2147483647)%Z ->
  let ratio := rnd (div (of_px (width img)) (of_px (height img))) in
  let c := croppedCanvas img ratio in
  cropImageToAspectRatio b dataUrl ratio
    = Resolved (toDataURL b c "image/jpeg" (95 # 100)) /\
  canvas_width c = width img /\
  (canvas_height c = height img \/ canvas_height c = (height img - 1)%Z) /\
  exists cropY cropH : Q,
    calls c = [ drawImage9 img (Fin 0) (Fin cropY) (of_px (width img)) (Fin cropH)
                           (Fin 0) (Fin 0) (of_px (width img)) (Fin cropH) ] /\
    Qabs (cropH - inject_Z (height img)) <= 1 # 1048576 /\
    Qabs cropY <= 1 # 1048576.
Proof.
  intros Hdec Hctx Hiw Hih ratio c. split.
  { unfold cropImageToAspectRatio. now rewrite Hdec, Hctx. }
  set (ow := inject_Z (width img)). set (oh := inject_Z (height img)).
  assert (How : 1 <= ow) by (apply (inject_Z_le_int 1); lia).
  assert (Hoh : 1 <= oh) by (apply (inject_Z_le_int 1); lia).
  assert (Bw : ow <= 2147483647) by (apply (inject_Z_le_int _ 2147483647); lia).
  assert (Bh : oh <= 2147483647) by (apply (inject_Z_le_int _ 2147483647); lia).
  destruct (stored_ratio (width img) (height img) Hiw Hih) as (rho & Hrho & Erho).
  fold ow oh in Erho.
  assert (Et : ow / oh * oh == ow) by (field; lra).
  assert (Ht : 0 < ow / oh) by (apply Qlt_shift_div_l; lra).
  set (t := ow / oh) in *.
  apply Qabs_Qle_condition in Erho as [R1 R2].
  assert (Hrho0 : 0 < rho) by nra.
  subst c ratio. unfold croppedCanvas, cropRect. rewrite !Hrho.
  assert (E : gt (Fin rho) (Fin rho) = false) by (apply gt_Fin_false; lra).
  rewrite E.
  assert (Hxr : ow / rho * rho == ow) by (field; lra).
  assert (Hx0 : 0 <= ow / rho) by (apply Qle_shift_div_l; lra).
  assert (Hx1 : ow / rho <= oh + (1 # 2097152)).
  { set (y := ow / rho) in *.
    assert (B : y * (1 - (1 # 9007199254740992)) <= oh) by (clearbody y t; nra).
    lra. }
  assert (Hx2 : oh - (1 # 2097152) <= ow / rho).
  { set (y := ow / rho) in *.
    assert (B : oh <= y * (1 + (1 # 9007199254740992))) by (clearbody y t; nra).
    lra. }
  destruct (crop_side 150 (ow / rho) (height img) Hx0 Hx1 Hih)
    as (h & Hh & H0 & Eh & Dh & Fh & Nh).
  assert (Ediv : rnd (div (of_px (width img)) (Fin rho)) = Fin h).
  { unfold of_px. fold ow. rewrite div_Fin by lra. exact Hh. }
  apply Qabs_Qle_condition in Eh as [E1 E2].
  destruct (crop_corner oh h) as (y & Hy & Ey); try lra.
  assert (Ecor : rnd (div (rnd (sub (of_px (height img)) (Fin h))) (Fin 2)) = Fin y)
    by exact Hy.
  rewrite !Ediv, Ecor. cbn [calls canvas_width canvas_height].
  rewrite Dh. unfold of_px.
  rewrite (set_dimension_small 300 (width img)) by lia.
  split; [reflexivity|]. split.
  { assert (F : (height img - 1 <= Qfloor h)%Z).
    { rewrite <- (Qfloor_Z (height img - 1)). apply Qfloor_resp_le.
      unfold Z.sub. rewrite inject_Z_plus. fold oh.
      change (inject_Z (- (1))) with (- (1)). lra. }
    lia. }
  exists y, h. split; [reflexivity|].
  apply Qabs_Qle_condition in Ey as [Y1 Y2].
  assert (Hd : (oh - h) / 2 == (oh - h) * (1 # 2)) by (field; lra).
  rewrite Hd in Y1, Y2. fold oh.
  split; apply Qabs_Qle_condition; split; lra.
Qed.

End ResizePlacement.

(** ** File names of the downloads *)

Section SafeFileName.

Import Download.

Lemma safe_char_not_dash (c : ascii) : is_safe_char c = true -> c <> "-"%char.
Proof. intros H ->. discriminate. Qed.

Lemma safe_char_lower (c : ascii) :
  is_safe_char c = true -> toLowerCase_char c = c.
Proof.
  intros H. unfold toLowerCase_char. cbn zeta.
  destruct ((65 <=? nat_of_ascii c) && (nat_of_ascii c <=? 90))%nat eqn:E;
    [|reflexivity].
  exfalso. unfold is_safe_char in H. cbn zeta in H.
  apply andb_true_iff in E as [E1 E2].
  apply Nat.leb_le in E1. apply Nat.leb_le in E2.
  apply orb_true_iff in H as [H|H]; apply andb_true_iff in H as [H1 H2];
    apply Nat.leb_le in H1; apply Nat.leb_le in H2; lia.
Qed.

Lemma replace_chars (b : bool) (l : list ascii) :
  Forall (fun c => is_safe_char c = true \/ c = "-"%char)
         (replace_unsafe_runs b l).
Proof.
  revert b. induction l as [|c l IH]; intros b; cbn [replace_unsafe_runs].
  - constructor.
  - destruct (is_safe_char c) eqn:E.
    + constructor; [now left | apply IH].
    + destruct b; [apply IH | constructor; [now right | apply IH]].
Qed.

Lemma replace_head (l : list ascii) :
  head (replace_unsafe_runs true l) <> Some "-"%char.
Proof.
  induction l as [|c l IH]; cbn [replace_unsafe_runs]; [discriminate|].
  destruct (is_safe_char c) eqn:E; [|exact IH].
  cbn. intros [= ->]. discriminate.
Qed.

Lemma replace_no_double (b : bool) (l : list ascii) (i : nat) :
  replace_unsafe_runs b l !! i = Some "-"%char ->
  replace_unsafe_runs b l !! S i <> Some "-"%char.
Proof.
  revert b i. induction l as [|c l IH]; intros b i; cbn [replace_unsafe_runs].
  - discriminate.
  - destruct (is_safe_char c) eqn:E.
    + destruct i as [|i]; cbn.
      * intros [= ->]. discriminate.
      * apply IH.
    + destruct b; [apply IH|].
      destruct i as [|i]; cbn.
      * intros _. pose proof (replace_head l) as Hh.
        destruct (replace_unsafe_runs true l); cbn in *; [discriminate | exact Hh].
      * apply IH.
Qed.

Lemma replace_idem (b : bool) (l : list ascii) :
  replace_unsafe_runs b (replace_unsafe_runs b l) = replace_unsafe_runs b l.
Proof.
  revert b. induction l as [|c l IH]; intros b; cbn [replace_unsafe_runs].
  - reflexivity.
  - destruct (is_safe_char c) eqn:E.
    + cbn [replace_unsafe_runs]. rewrite E. now rewrite IH.
    + destruct b; [apply IH|].
      cbn [replace_unsafe_runs].
      change (is_safe_char "-") with false. cbv iota. now rewrite IH.
Qed.

Lemma lower_fixed (l : list ascii) :
  Forall (fun c => is_safe_char c = true \/ c = "-"%char) l ->
  map toLowerCase_char l = l.
Proof.
  induction 1 as [|c l [H| ->] _ IH]; cbn [map]; [reflexivity| |].
  - now rewrite safe_char_lower, IH.
  - now rewrite IH.
Qed.

(** X18.  The file name made from a style id
    ([id.toLowerCase().replace(/[^a-z0-9]+/g, '-')], for an id written in
    ASCII) holds only lower-case letters, digits and dashes, never two
    dashes in a row, and making a file name from a file name changes
    nothing. *)
Theorem safeFileName_is_safe_and_stable (id : string) :
  is_ascii id ->
  let name := list_ascii_of_string (safeFileName id) in
  Forall (fun c => is_safe_char c = true \/ c = "-"%char) name
  /\ (forall i, name !! i = Some "-"%char -> name !! S i <> Some "-"%char)
  /\ safeFileName (safeFileName id) = safeFileName id.
Proof.
  intros _ name. subst name. unfold safeFileName.
  rewrite !list_ascii_of_string_of_list_ascii.
  split; [apply replace_chars|]. split; [intros i; apply replace_no_double|].
  rewrite lower_fixed by apply replace_chars. now rewrite replace_idem.
Qed.

End SafeFileName.

(** ** The archive of a photoshoot *)

Section DownloadAllGuards.

Import Download.

Variable ALL_PHOTO_STYLES : list Photoshoot.Style.
Variable generate : Photoshoot.Style -> Promise string.
Hypothesis styles_distinct : NoDup (Photoshoot.style_id <$> ALL_PHOTO_STYLES).

Lemma filter_length_le {A : Type} (P : A -> bool) (l : list A) :
  (length (List.filter P l) <= length l)%nat.
Proof.
  induction l as [|a l IH]; cbn; [lia|]. destruct (P a); cbn; lia.
Qed.

Lemma filter_length_lt {A : Type} (P : A -> bool) (l : list A) (x : A) :
  x ∈ l -> P x = false -> (length (List.filter P l) < length l)%nat.
Proof.
  induction 1 as [x l|x y l Hx IH]; intros HP; cbn.
  - rewrite HP. pose proof (filter_length_le P l). lia.
  - specialize (IH HP). destruct (P y); cbn; lia.
Qed.

Lemma batch_entries_count (uploadedImage : option string)
    (selectedStyles library0 : list string) (schedule : list nat)
    (s0 s : @Pool.State Photoshoot.Style)
    (entries : list (string * GeneratedImage)) :
  Photoshoot.handleGenerateClick ALL_PHOTO_STYLES uploadedImage selectedStyles
    library0 = Some s0 ->
  Photoshoot.exec generate schedule s0 = Some s ->
  entries ≡ₚ map_to_list (Pool.generatedImages s) ->
  let ids := Photoshoot.style_id <$>
               filter (fun style => Photoshoot.style_id style ∈ selectedStyles)
                      ALL_PHOTO_STYLES in
  length entries = length ids /\ ids ⊆+ selectedStyles /\ ids ⊆ (Photoshoot.style_id <$> ALL_PHOTO_STYLES).
Proof.
  intros H0 Hexec Hperm ids.
  apply handleGenerateClick_Some in H0 as (_ & _ & ->).
  set (jobs := filter (fun style => Photoshoot.style_id style ∈ selectedStyles)
                      ALL_PHOTO_STYLES) in *.
  assert (Hnd : NoDup ids) by (apply stylesToGenerate_distinct; exact styles_distinct).
  assert (Hinv : Pool.invariant Photoshoot.style_id generate jobs 2 s).
  { eapply invariant_exec;
      [reflexivity | exact Hnd
      | apply invariant_init; exact (fun _ => true) | exact Hexec]. }
  split; [|split].
  - apply Permutation_length in Hperm. rewrite Hperm, length_map_to_list.
    rewrite <- size_dom, (Pool.inv_dom _ _ _ _ _ Hinv).
    now apply size_list_to_set.
  - apply NoDup_submseteq; [exact Hnd|].
    intros x Hx. apply list_elem_of_fmap in Hx as (st & -> & Hst).
    now apply list_elem_of_filter in Hst as [H _].
  - intros x Hx. apply list_elem_of_fmap in Hx as (st & -> & Hst).
    apply list_elem_of_filter in Hst as [_ H]. now apply list_elem_of_fmap_2.
Qed.

(** X19.  While one photo of the batch is still pending, has failed, or has
    an empty URL, "download all" produces no archive: it ends with an
    alert, whatever the other photos are. *)
Theorem download_all_waits_for_every_photo (uploadedImage : option string)
    (selectedStyles library0 : list string) (schedule : list nat)
    (s0 s : @Pool.State Photoshoot.Style)
    (entries : list (string * GeneratedImage))
    (k : string) (g : GeneratedImage) :
  Photoshoot.handleGenerateClick ALL_PHOTO_STYLES uploadedImage selectedStyles
    library0 = Some s0 ->
  Photoshoot.exec generate schedule s0 = Some s ->
  entries ≡ₚ map_to_list (Pool.generatedImages s) ->
  Pool.generatedImages s !! k = Some g ->
  done_with_url (k, g) = false ->
  exists messageKey, handleDownloadAll entries selectedStyles = Alert messageKey.
Proof.
  intros H0 Hexec Hperm Hk Hd.
  destruct (batch_entries_count _ _ _ _ _ _ _ H0 Hexec Hperm) as (Hlen & Hsub & _).
  apply submseteq_length in Hsub.
  assert (Hin : (k, g) ∈ entries).
  { rewrite Hperm. now apply elem_of_map_to_list. }
  pose proof (filter_length_lt done_with_url entries (k, g) Hin Hd) as Hlt.
  unfold handleDownloadAll. cbn zeta.
  destruct (length (List.filter done_with_url entries) =? 0)%nat; [eauto|].
  destruct (length (List.filter done_with_url entries) <? length selectedStyles)%nat
    eqn:E; [eauto|].
  apply Nat.ltb_ge in E. lia.
Qed.

(** X20.  When the selection the batch was started with holds an id that
    names no style (the selection can come from concept suggestions),
    "download all" never produces the archive, even with every photo
    done. *)
Theorem download_all_refused_for_unknown_style (uploadedImage : option string)
    (selectedStyles library0 : list string) (schedule : list nat)
    (s0 s : @Pool.State Photoshoot.Style)
    (entries : list (string * GeneratedImage)) (id : string) :
  Photoshoot.handleGenerateClick ALL_PHOTO_STYLES uploadedImage selectedStyles
    library0 = Some s0 ->
  Photoshoot.exec generate schedule s0 = Some s ->
  entries ≡ₚ map_to_list (Pool.generatedImages s) ->
  id ∈ selectedStyles ->
  id ∉ Photoshoot.style_id <$> ALL_PHOTO_STYLES ->
  exists messageKey, handleDownloadAll entries selectedStyles = Alert messageKey.
Proof.
  intros H0 Hexec Hperm Hid Hun.
  destruct (batch_entries_count _ _ _ _ _ _ _ H0 Hexec Hperm) as (Hlen & Hsub & Hall).
  pose proof (filter_length_le done_with_url entries) as Hle.
  unfold handleDownloadAll. cbn zeta.
  destruct (length (List.filter done_with_url entries) =? 0)%nat; [eauto|].
  destruct (length (List.filter done_with_url entries) <? length selectedStyles)%nat
    eqn:E; [eauto|].
  apply Nat.ltb_ge in E. exfalso. apply Hun, Hall.
  rewrite (submseteq_length_Permutation _ _ Hsub) by lia. exact Hid.
Qed.

End DownloadAllGuards.

Section Archive.

Import Download.

Lemma strip_prefix_Some (p s r : list ascii) :
  strip_prefix p s = Some r -> s = p ++ r.
Proof.
  revert s. induction p as [|a p IH]; intros [|c s]; cbn; try congruence.
  destruct (bool_decide (a = c)) eqn:E; [|discriminate].
  apply bool_decide_eq_true in E. intros Hs. subst c. f_equal. now apply IH.
Qed.

Lemma strip_prefix_app (p r : list ascii) : strip_prefix p (p ++ r) = Some r.
Proof.
  induction p as [|a p IH]; cbn; [reflexivity|].
  now rewrite bool_decide_eq_true_2.
Qed.

Lemma string_of_list_ascii_app (a b : list ascii) :
  string_of_list_ascii (a ++ b)
  = String.append (string_of_list_ascii a) (string_of_list_ascii b).
Proof.
  induction a as [|c a IH]; [reflexivity|].
  change (String c (string_of_list_ascii (a ++ b))
          = String c (String.append (string_of_list_ascii a) (string_of_list_ascii b))).
  now f_equal.
Qed.

Lemma list_ascii_of_string_app (a b : string) :
  list_ascii_of_string (String.append a b)
  = list_ascii_of_string a ++ list_ascii_of_string b.
Proof.
  induction a as [|c a IH]; [reflexivity|].
  change (c :: list_ascii_of_string (String.append a b)
          = c :: (list_ascii_of_string a ++ list_ascii_of_string b)).
  now f_equal.
Qed.

Lemma ext_cases (ext : string) :
  ext ∈ ["png"; "jpeg"; "webp"]%string ->
  ext = "png"%string \/ ext = "jpeg"%string \/ ext = "webp"%string.
Proof.
  rewrite !elem_of_cons, elem_of_nil. tauto.
Qed.

Lemma ext_known (ext : string) :
  ext = "png"%string \/ ext = "jpeg"%string \/ ext = "webp"%string ->
  ext ∈ ["png"; "jpeg"; "webp"]%string.
Proof.
  rewrite !elem_of_cons, elem_of_nil. tauto.
Qed.

Lemma data_url_match_Some (dataUrl mime data : string) :
  data_url_match dataUrl = Some (mime, data) ->
  exists ext, ext ∈ ["png"; "jpeg"; "webp"]%string
    /\ mime = ("image/" +:+ ext)%string
    /\ extension_of mime = ext
    /\ dataUrl = image_url ext data
    /\ has_line_terminator (list_ascii_of_string data) = false.
Proof.
  unfold data_url_match.
  destruct (strip_prefix _ (list_ascii_of_string dataUrl)) as [rest|] eqn:E0;
    [|discriminate].
  apply strip_prefix_Some in E0.
  assert (G : forall m ext,
    ext ∈ ["png"; "jpeg"; "webp"]%string ->
    m = ("image/" +:+ ext)%string -> extension_of m = ext ->
    match strip_prefix (list_ascii_of_string (m +:+ ";base64,")) rest with
    | Some d => if has_line_terminator d then None
                else Some (m, string_of_list_ascii d)
    | None => None
    end = Some (mime, data) ->
    exists ext, ext ∈ ["png"; "jpeg"; "webp"]%string
      /\ mime = ("image/" +:+ ext)%string
      /\ extension_of mime = ext
      /\ dataUrl = image_url ext data
      /\ has_line_terminator (list_ascii_of_string data) = false).
  { intros m ext Hext Hm Hx H.
    destruct (strip_prefix _ rest) as [d|] eqn:E1; [|discriminate].
    destruct (has_line_terminator d) eqn:E2; [discriminate|].
    injection H as <- <-. apply strip_prefix_Some in E1.
    exists ext. split; [exact Hext|]. split; [exact Hm|]. split; [exact Hx|].
    split; [|now rewrite list_ascii_of_string_of_list_ascii].
    rewrite <- (string_of_list_ascii_of_string dataUrl), E0, E1.
    unfold image_url. subst m.
    rewrite !string_of_list_ascii_app, !list_ascii_of_string_app.
    rewrite !string_of_list_ascii_app, !string_of_list_ascii_of_string.
    apply ext_cases in Hext.
    destruct Hext as [-> | [-> | ->]]; reflexivity. }
  destruct (strip_prefix (list_ascii_of_string ("image/png" +:+ ";base64,")) rest)
    as [d1|] eqn:E1.
  - destruct (has_line_terminator d1) eqn:L1.
    + apply strip_prefix_Some in E1. subst rest. cbn. discriminate.
    + intros H. apply (G "image/png" "png")%string;
        [apply ext_known; auto | reflexivity | reflexivity |].
      now rewrite E1, L1.
  - destruct (strip_prefix (list_ascii_of_string ("image/jpeg" +:+ ";base64,")) rest)
      as [d2|] eqn:E2.
    + destruct (has_line_terminator d2) eqn:L2.
      * apply strip_prefix_Some in E2. subst rest. cbn. discriminate.
      * intros H. apply (G "image/jpeg" "jpeg")%string;
          [apply ext_known; auto | reflexivity | reflexivity |].
        now rewrite E2, L2.
    + intros H. apply (G "image/webp" "webp")%string;
        [apply ext_known; auto | reflexivity | reflexivity | exact H].
Qed.

Lemma data_url_match_image_url (ext data : string) :
  ext ∈ ["png"; "jpeg"; "webp"]%string ->
  has_line_terminator (list_ascii_of_string data) = false ->
  data_url_match (image_url ext data) = Some (("image/" +:+ ext)%string, data).
Proof.
  intros Hext Hl. apply ext_cases in Hext.
  unfold data_url_match.
  assert (E : forall m e, ("image/" +:+ e)%string = m ->
            list_ascii_of_string (image_url e data)
            = list_ascii_of_string "data:"
              ++ (list_ascii_of_string (m +:+ ";base64,")
                  ++ list_ascii_of_string data)).
  { intros m e <-. unfold image_url.
    now rewrite !list_ascii_of_string_app, <- !(assoc_L (++)). }
  destruct Hext as [-> | [-> | ->]].
  - rewrite (E "image/png" "png")%string by reflexivity.
    rewrite !strip_prefix_app, Hl. now rewrite string_of_list_ascii_of_string.
  - rewrite (E "image/jpeg" "jpeg")%string by reflexivity.
    rewrite strip_prefix_app.
    assert (N : forall r, strip_prefix
                  (list_ascii_of_string ("image/png" +:+ ";base64,"))
                  (list_ascii_of_string ("image/jpeg" +:+ ";base64,") ++ r)
                = None) by reflexivity.
    rewrite N, strip_prefix_app, Hl. now rewrite string_of_list_ascii_of_string.
  - rewrite (E "image/webp" "webp")%string by reflexivity.
    rewrite strip_prefix_app.
    assert (N1 : forall r, strip_prefix
                  (list_ascii_of_string ("image/png" +:+ ";base64,"))
                  (list_ascii_of_string ("image/webp" +:+ ";base64,") ++ r)
                = None) by reflexivity.
    assert (N2 : forall r, strip_prefix
                  (list_ascii_of_string ("image/jpeg" +:+ ";base64,"))
                  (list_ascii_of_string ("image/webp" +:+ ";base64,") ++ r)
                = None) by reflexivity.
    rewrite N1, N2, strip_prefix_app, Hl.
    now rewrite string_of_list_ascii_of_string.
Qed.

(** X21.  What "download all" puts into the archive: one file for each
    done photo whose URL is a base64 data URL of a PNG, JPEG or WebP image
    with no line break in its data, named by the safe file name of the
    style id and the image type, and nothing else.  A done photo with any
    other URL is left out without an alert, and the extension [jpg] of the
    fallback is never used. *)
Theorem archive_files_are_the_data_urls
    (entries : list (string * GeneratedImage)) (selectedStyles : list string)
    (files : list (string * string)) (name data : string) :
  handleDownloadAll entries selectedStyles = Archive files ->
  (name, data) ∈ files <->
  exists id g ext,
    (id, g) ∈ entries /\ status g = done
    /\ ext ∈ ["png"; "jpeg"; "webp"]%string
    /\ url g = Some (image_url ext data)
    /\ has_line_terminator (list_ascii_of_string data) = false
    /\ name = (safeFileName id +:+ "." +:+ ext)%string.
Proof.
  unfold handleDownloadAll. cbn zeta.
  destruct (length (List.filter done_with_url entries) =? 0)%nat; [discriminate|].
  destruct (length (List.filter done_with_url entries) <? length selectedStyles)%nat;
    [discriminate|].
  intros [= <-]. rewrite list_elem_of_omap. split.
  - intros ([id g] & Hin & Hf). cbn [fst snd] in Hf.
    apply list_elem_of_In, filter_In in Hin as [Hin Hd].
    apply list_elem_of_In in Hin.
    destruct (url g) as [u|] eqn:Hu; [|discriminate]. cbn in Hf.
    destruct (data_url_match u) as [[mime d]|] eqn:Hm; [|discriminate].
    injection Hf as <- <-.
    apply data_url_match_Some in Hm as (ext & Hext & -> & Hx & -> & Hl).
    exists id, g, ext. rewrite Hx.
    unfold done_with_url in Hd. cbn [snd] in Hd.
    destruct (status g); try discriminate. auto 10.
  - intros (id & g & ext & Hin & Hs & Hext & Hu & Hl & ->).
    exists (id, g). split.
    + apply list_elem_of_In, filter_In. split; [now apply list_elem_of_In|].
      unfold done_with_url. cbn [snd]. rewrite Hs, Hu. reflexivity.
    + cbn [fst snd]. rewrite Hu. cbn.
      rewrite (data_url_match_image_url _ _ Hext Hl).
      apply ext_cases in Hext. destruct Hext as [-> | [-> | ->]]; reflexivity.
Qed.

End Archive.

(** ** The shake gesture *)

Section ShakeGesture.

Variable sqrt : number -> number.

Lemma dot_with_rest (x y : number) :
  lt (add (mul x (Fin 0)) (mul y (Fin 0))) (Fin 0) = false.
Proof.
  destruct x as [a| | |], y as [b| | |]; try reflexivity.
  cbn [mul add]. apply lt_Fin_false. lra.
Qed.

(** X22.  The first drag event after a drag started never asks for a
    regeneration, however fast the card moves: the velocity kept from the
    previous frame was reset, so no reversal of direction is seen. *)
Theorem first_drag_frame_never_regenerates (hasOnRegenerate isMobile : bool)
    (velocity : number * number) (now : number) (refs : Shake.Refs) :
  (Shake.handleDrag sqrt hasOnRegenerate isMobile velocity now
     (Shake.handleDragStart refs)).2 = false.
Proof.
  unfold Shake.handleDrag.
  destruct (negb hasOnRegenerate || isMobile); [reflexivity|].
  destruct velocity as [x y].
  cbn [Shake.handleDragStart Shake.lastVelocity Shake.lastShakeTime].
  rewrite dot_with_rest, andb_false_r. reflexivity.
Qed.

(** X23.  Two regenerations asked for by shaking are more than the cooldown
    apart: in the sequence that starts with the time of the last shake and
    goes on with the times at which a series of drag events asked for a
    regeneration, each time exceeds the one before by more than 2000 ms. *)
Theorem regenerations_respect_cooldown
    (events : list (number * number * number)) (refs : Shake.Refs)
    (i : nat) (t1 t2 : number) :
  (Shake.lastShakeTime refs :: Shake.regenerations sqrt events refs) !! i
    = Some t1 ->
  (Shake.lastShakeTime refs :: Shake.regenerations sqrt events refs) !! S i
    = Some t2 ->
  gt (sub t2 t1) (Fin 2000) = true.
Proof.
  revert refs i.
  induction events as [|[[x y] now] events IH]; intros refs i H1 H2.
  - destruct i; discriminate.
  - cbn [Shake.regenerations] in H1, H2. unfold Shake.handleDrag in H1, H2.
    cbn [negb orb] in H1, H2.
    destruct (Shake.lastVelocity refs) as [prevX prevY].
    destruct (gt (sqrt (add (mul x x) (mul y y))) (Fin 1500)
              && lt (add (mul x prevX) (mul y prevY)) (Fin 0)
              && gt (sub now (Shake.lastShakeTime refs)) (Fin 2000)) eqn:C.
    + destruct i as [|i].
      * injection H1 as <-. injection H2 as <-.
        now apply andb_true_iff in C as [_ C].
      * exact (IH {| Shake.lastShakeTime := now;
                     Shake.lastVelocity := (x, y) |} i H1 H2).
    + exact (IH {| Shake.lastShakeTime := Shake.lastShakeTime refs;
                   Shake.lastVelocity := (x, y) |} i H1 H2).
Qed.

End ShakeGesture.

(** ** The print sizes of the portrait generator *)

Section PrintSizes.

Import Utils PrintUtils PortraitGenerator.

(** X24.  Every print size the portrait generator offers fits on the
    paper: with a 2D context and a portrait that loads,
    [handleGeneratePrintSheet] stores a sheet and leaves the error alone,
    and the sheet holds 16, 9, 4, 6 and 2 portraits for the sizes 2x3, 3x4,
    4x6, 3.5x4.5 and 5x5. *)
Theorem offered_print_sizes_fit (b : Browser) (portrait : string)
    (img : Image) (printSize : string) (st : SheetState) :
  printSize ∈ PRINT_SIZE_OPTIONS ->
  has_context b = true ->
  decode b portrait = Some img ->
  portrait <> ""%string ->
  exists (canvas : Canvas) (photos : nat),
    createPrintSheet b portrait
      (component (size_components printSize).1)
      (component (size_components printSize).2)
    = (canvas, Returns (toDataURL b canvas "image/jpeg" (95 # 100)))
    /\ handleGeneratePrintSheet b (Some portrait) printSize st
       = {| printSheet := Some (toDataURL b canvas "image/jpeg" (95 # 100));
            error := error st; isCreatingSheet := false |}
    /\ length (calls canvas) = S photos
    /\ (printSize, photos)
       ∈ [("2x3", 16); ("3x4", 9); ("4x6", 4); ("3.5x4.5", 6); ("5x5", 2)]%nat.
Proof.
  intros Hsize Hctx Hdec Hne.
  assert (G : forall (wCm hCm : Q) (c r : Z),
    size_components printSize = (Some (Fin wCm), Some (Fin hCm)) ->
    0 < wCm -> 0 < hCm ->
    cols (sheetGrid (Fin wCm) (Fin hCm)) = Fin (inject_Z c) ->
    rows (sheetGrid (Fin wCm) (Fin hCm)) = Fin (inject_Z r) ->
    emptyGrid (sheetGrid (Fin wCm) (Fin hCm)) = false ->
    exists canvas : Canvas,
      createPrintSheet b portrait
        (component (size_components printSize).1)
        (component (size_components printSize).2)
      = (canvas, Returns (toDataURL b canvas "image/jpeg" (95 # 100)))
      /\ handleGeneratePrintSheet b (Some portrait) printSize st
         = {| printSheet := Some (toDataURL b canvas "image/jpeg" (95 # 100));
              error := error st; isCreatingSheet := false |}
      /\ length (calls canvas) = S (Z.to_nat r * Z.to_nat c)).
  { intros wCm hCm c r Hs Hw Hh Hc Hr He.
    destruct (createPrintSheet_returns b portrait wCm hCm img Hctx Hdec Hw Hh He)
      as (c' & r' & sx & sy & canvas & Hc' & Hr' & _ & _ & _ & _ & _ & _ & _ & _
          & Hrun & _ & _ & Hcalls).
    rewrite Hc in Hc'. rewrite Hr in Hr'.
    injection Hc' as <-. injection Hr' as <-.
    exists canvas. unfold handleGeneratePrintSheet. rewrite Hs.
    cbn [fst snd component]. rewrite Hrun. cbn [snd].
    split; [reflexivity|]. split.
    - destruct portrait; [contradiction | reflexivity].
    - rewrite Hcalls. cbn [length]. now rewrite length_cellCalls. }
  unfold PRINT_SIZE_OPTIONS in Hsize.
  rewrite !elem_of_cons, elem_of_nil in Hsize.
  destruct Hsize as [-> | [-> | [-> | [-> | [-> | []]]]]].
  - destruct (G 2 3 4%Z 4%Z) as (canvas & H1 & H2 & H3);
      try reflexivity.
    exists canvas, 16%nat. rewrite !elem_of_cons. auto 10.
  - destruct (G 3 4 3%Z 3%Z) as (canvas & H1 & H2 & H3);
      try reflexivity.
    exists canvas, 9%nat. rewrite !elem_of_cons. auto 10.
  - destruct (G 4 6 2%Z 2%Z) as (canvas & H1 & H2 & H3);
      try reflexivity.
    exists canvas, 4%nat. rewrite !elem_of_cons. auto 10.
  - destruct (G (35 # 10) (45 # 10) 2%Z 3%Z) as (canvas & H1 & H2 & H3);
      try reflexivity.
    exists canvas, 6%nat. rewrite !elem_of_cons. auto 10.
  - destruct (G 5 5 1%Z 2%Z) as (canvas & H1 & H2 & H3);
      try reflexivity.
    exists canvas, 2%nat. rewrite !elem_of_cons. auto 10.
Qed.

End PrintSizes.

(** ** The further theorems at the sample inputs *)

Lemma batch_takes_at_most_2N_plus_C_steps_witness :
  (length sample_schedule <= 2 * length sample_styles + 2)%nat.
Proof.
  apply (batch_takes_at_most_2N_plus_C_steps Photoshoot.style_id (fun _ => true)
           false true sample_generate 2 sample_styles [] sample_schedule
           (run_sample sample_schedule)).
  vm_compute. reflexivity.
Defined.

Lemma batch_can_always_complete_witness :
  exists rest s',
    Photoshoot.exec sample_generate ([0; 1]%nat ++ rest) sample_batch = Some s' /\
    Pool.completed s' = true.
Proof.
  apply (batch_can_always_complete Photoshoot.style_id (fun _ => true)
           false true sample_generate 2 sample_styles [] [0; 1]%nat
           (run_sample [0; 1]%nat)).
  vm_compute. reflexivity.
Defined.

Lemma requests_start_in_queue_order_witness :
  exists consumed,
    sample_styles = consumed ++ Pool.queue (run_sample [0; 1; 0; 0]%nat) /\
    PoolTrace.started (Pool.events (run_sample [0; 1; 0; 0]%nat))
    = Photoshoot.style_id <$> filter (fun j => (fun _ => true) j = true) consumed.
Proof.
  apply (requests_start_in_queue_order Photoshoot.style_id (fun _ => true)
           false true sample_generate 2 sample_styles [] [0; 1; 0; 0]%nat
           (run_sample [0; 1; 0; 0]%nat)).
  vm_compute. reflexivity.
Defined.

Lemma no_worker_leaves_while_queued_witness :
  length (Pool.workers (run_sample [0; 1]%nat)) = 2%nat /\
  forall w, w ∈ Pool.workers (run_sample [0; 1]%nat) -> w <> Pool.Exited.
Proof.
  apply (no_worker_leaves_while_queued Photoshoot.style_id (fun _ => true)
           false true sample_generate 2 sample_styles [] [0; 1]%nat
           (run_sample [0; 1]%nat)).
  - vm_compute. reflexivity.
  - vm_compute. discriminate.
Defined.

Lemma completed_batch_is_drained_witness :
  Pool.queue (run_sample sample_schedule) = [] /\
  Pool.in_flight (Pool.events (run_sample sample_schedule)) = 0%Z /\
  PoolTrace.started (Pool.events (run_sample sample_schedule))
  = Photoshoot.style_id <$> filter (fun j => (fun _ => true) j = true) sample_styles.
Proof.
  apply (completed_batch_is_drained Photoshoot.style_id (fun _ => true)
           false true sample_generate 2 sample_styles [] sample_schedule
           (run_sample sample_schedule));
    [lia | vm_compute; reflexivity | vm_compute; reflexivity].
Defined.

Lemma batch_results_reach_library_witness :
  (NoDup (@nil string) -> NoDup (Pool.library (run_sample sample_schedule))) /\
  (forall u, u ∈ @nil string -> u ∈ Pool.library (run_sample sample_schedule)) /\
  (forall u, u ∈ Pool.library (run_sample sample_schedule) ->
     u ∈ @nil string \/ exists j, j ∈ sample_styles /\ sample_generate j = Resolved u) /\
  ((1 <= 2)%nat -> Pool.completed (run_sample sample_schedule) = true ->
   forall j u, j ∈ sample_styles -> sample_generate j = Resolved u ->
               u ∈ Pool.library (run_sample sample_schedule)).
Proof.
  apply (batch_results_reach_library Photoshoot.style_id (fun _ => true) false
           sample_generate sample_styles [] (fun _ _ => eq_refl) 2
           sample_schedule (run_sample sample_schedule)).
  vm_compute. reflexivity.
Defined.

Lemma handleGenerateClick_initial_state_witness :
  Pool.queue (run_selection []) = [ {| Photoshoot.style_id := "smiling_portrait";
       Photoshoot.prompt := "A portrait of the person from the original photo, but they are smiling warmly at the camera. Maintain the exact same background, lighting, and overall style as the original image." |} ] /\
  Pool.generatedImages (run_selection []) !! "made_up" = None /\
  Pool.generatedImages (run_selection []) !! "smiling_portrait" = Some pending_entry.
Proof.
  destruct (handleGenerateClick_initial_state sample_styles (Some sample_url)
              sample_selection [] (run_selection []))
    as (Hmap & Hqueue & _); [vm_compute; reflexivity|].
  split; [rewrite Hqueue; vm_compute; reflexivity|].
  split; rewrite Hmap; vm_compute; reflexivity.
Defined.

Lemma sample_angles_distinct : NoDup sample_angles.
Proof. apply (bool_decide_unpack _). vm_compute. exact I. Defined.

Lemma unknown_angle_stays_pending_witness :
  Pool.completed (run_angles sample_angles sample_angle_schedule) = true /\
  Pool.generatedImages (run_angles sample_angles sample_angle_schedule) !! "hologram"
  = Some pending_entry.
Proof.
  split; [vm_compute; reflexivity|].
  apply (unknown_angle_stays_pending (Some sample_url) sample_angle_generate
           sample_angles sample_angle_schedule
           (run_angles sample_angles []) 
           (run_angles sample_angles sample_angle_schedule) "hologram").
  - exact sample_angles_distinct.
  - vm_compute. reflexivity.
  - vm_compute. reflexivity.
  - apply list_elem_of_further, list_elem_of_here.
  - left. apply (bool_decide_unpack _). vm_compute. exact I.
Defined.

Lemma clicked_angles_all_settle_witness :
  Selection.after_clicks sample_clicks = ["top"] /\
  NoDup (Selection.after_clicks sample_clicks) /\
  forall angleId, angleId ∈ Selection.after_clicks sample_clicks ->
    angleId ∈ ProductScene.angle_id <$> ProductScene.ANGLE_OPTIONS /\
    Pool.generatedImages
      (run_angles (Selection.after_clicks sample_clicks) [0; 1; 2; 0; 0]%nat)
      !! angleId
    = Some (settled_entry (sample_angle_generate angleId)) /\
    is_terminal (settled_entry (sample_angle_generate angleId)) = true.
Proof.
  split; [vm_compute; reflexivity|].
  apply (clicked_angles_all_settle sample_angle_generate sample_url sample_clicks
           [0; 1; 2; 0; 0]%nat
           (run_angles (Selection.after_clicks sample_clicks) [])
           (run_angles (Selection.after_clicks sample_clicks) [0; 1; 2; 0; 0]%nat)).
  - apply (proj1 (Forall_forall _ _)).
    apply (bool_decide_unpack _). vm_compute. exact I.
  - vm_compute. reflexivity.
  - vm_compute. reflexivity.
  - vm_compute. reflexivity.
Defined.

Lemma print_sheet_cells_on_page_witness :
  exists (c r : Z) (canvas : Canvas) (cells : list DrawOp),
    cols (sheetGrid (Fin 3) (Fin 4)) = Fin (inject_Z c) /\
    rows (sheetGrid (Fin 3) (Fin 4)) = Fin (inject_Z r) /\
    (1 <= c)%Z /\ (1 <= r)%Z /\
    createPrintSheet sample_browser sample_url (Fin 3) (Fin 4)
    = (canvas, Returns (toDataURL sample_browser canvas "image/jpeg" (95 # 100))) /\
    canvas_width canvas = 1200%Z /\ canvas_height canvas = 1800%Z /\
    calls canvas
    = fillRect "#FFFFFF" (Fin 0) (Fin 0) (Fin 1200) (Fin 1800) :: cells /\
    length cells = Z.to_nat (c * r) /\
    forall op, op ∈ cells ->
      exists x y : Q,
        op = drawImage5 sample_image (Fin x) (Fin y)
               (Fin (3 * (1 / (254 # 100)) * 300))
               (Fin (4 * (1 / (254 # 100)) * 300)) /\
        0 <= x /\ x + 3 * (1 / (254 # 100)) * 300 <= 1200 /\
        0 <= y /\ y + 4 * (1 / (254 # 100)) * 300 <= 1800.
Proof.
  apply (print_sheet_cells_on_page sample_browser sample_url 3 4 sample_image);
    [ reflexivity | reflexivity | reflexivity | reflexivity
    | vm_compute; reflexivity ].
Defined.

Lemma print_sheet_cells_apart_witness :
  length (calls (createPrintSheet sample_browser sample_url (Fin 3) (Fin 4)).1)
  = 10%nat /\
  forall op1 op2,
    op1 ∈ calls (createPrintSheet sample_browser sample_url (Fin 3) (Fin 4)).1 ->
    op2 ∈ calls (createPrintSheet sample_browser sample_url (Fin 3) (Fin 4)).1 ->
    forall x1 y1 x2 y2 : Q,
      op1 = drawImage5 sample_image (Fin x1) (Fin y1)
              (Fin (3 * (1 / (254 # 100)) * 300))
              (Fin (4 * (1 / (254 # 100)) * 300)) ->
      op2 = drawImage5 sample_image (Fin x2) (Fin y2)
              (Fin (3 * (1 / (254 # 100)) * 300))
              (Fin (4 * (1 / (254 # 100)) * 300)) ->
      (x1 == x2 /\ y1 == y2) \/
      x1 + 3 * (1 / (254 # 100)) * 300 + (1 # 10) * (1 / (254 # 100)) * 300 <= x2 \/
      x2 + 3 * (1 / (254 # 100)) * 300 + (1 # 10) * (1 / (254 # 100)) * 300 <= x1 \/
      y1 + 4 * (1 / (254 # 100)) * 300 + (1 # 10) * (1 / (254 # 100)) * 300 <= y2 \/
      y2 + 4 * (1 / (254 # 100)) * 300 + (1 # 10) * (1 / (254 # 100)) * 300 <= y1.
Proof.
  split; [vm_compute; reflexivity|].
  apply (print_sheet_cells_apart sample_browser sample_url 3 4 sample_image);
    [ reflexivity | reflexivity | reflexivity | reflexivity
    | vm_compute; reflexivity ].
Defined.

Lemma padded_image_centered_inside_witness :
  let c := paddedCanvas sample_image (div (Fin 16) (Fin 9)) in
  exists (iw ih : Z),
    calls c
    = [ fillRect "#000000" (Fin 0) (Fin 0)
                 (of_px (canvas_width c)) (of_px (canvas_height c));
        drawImage9 sample_image (Fin 0) (Fin 0)
                   (of_px (width sample_image)) (of_px (height sample_image))
                   (Fin ((inject_Z (canvas_width c) + - inject_Z iw) / 2))
                   (Fin ((inject_Z (canvas_height c) + - inject_Z ih) / 2))
                   (of_px iw) (of_px ih) ] /\
    (0 <= iw <= canvas_width c)%Z /\
    (0 <= ih <= canvas_height c)%Z /\
    (iw <= width sample_image)%Z /\ (ih <= height sample_image)%Z /\
    (iw = canvas_width c \/ ih = canvas_height c) /\
    (iw = width sample_image /\ ih = height sample_image
     \/ canvas_width c = 1024%Z \/ canvas_height c = 1024%Z).
Proof.
  apply (padded_image_centered_inside sample_image 16 9);
    [reflexivity | reflexivity | cbn; lia | cbn; lia].
Defined.

Lemma crop_to_own_ratio_loses_at_most_one_row_witness :
  canvas_width (croppedCanvas sample_scan
                  (rnd (div (of_px 300) (of_px 408)))) = 300%Z /\
  canvas_height (croppedCanvas sample_scan
                   (rnd (div (of_px 300) (of_px 408)))) = 407%Z /\
  cropImageToAspectRatio sample_scan_browser sample_url
    (rnd (div (of_px 300) (of_px 408)))
  = Resolved (toDataURL sample_scan_browser
                (croppedCanvas sample_scan (rnd (div (of_px 300) (of_px 408))))
                "image/jpeg" (95 # 100)).
Proof.
  split; [vm_compute; reflexivity|].
  split; [vm_compute; reflexivity|].
  apply (crop_to_own_ratio_loses_at_most_one_row sample_scan_browser sample_url
           sample_scan);
    [reflexivity | reflexivity | cbn; lia | cbn; lia].
Defined.

Lemma safeFileName_is_safe_and_stable_witness :
  Download.safeFileName "Smiling  Portrait #1" = "smiling-portrait-1" /\
  Download.safeFileName (Download.safeFileName "Smiling  Portrait #1")
  = Download.safeFileName "Smiling  Portrait #1".
Proof.
  split; [vm_compute; reflexivity|].
  apply (safeFileName_is_safe_and_stable "Smiling  Portrait #1").
  apply (bool_decide_unpack _). vm_compute. exact I.
Defined.

Lemma download_all_waits_for_every_photo_witness :
  exists messageKey,
    Download.handleDownloadAll
      (map_to_list (Pool.generatedImages (run_sample sample_schedule)))
      (Photoshoot.style_id <$> sample_styles)
    = Download.Alert messageKey.
Proof.
  apply (download_all_waits_for_every_photo sample_styles sample_generate
           sample_styles_distinct (Some sample_url)
           (Photoshoot.style_id <$> sample_styles) [] sample_schedule
           sample_batch (run_sample sample_schedule)
           (map_to_list (Pool.generatedImages (run_sample sample_schedule)))
           "laughing_portrait"
           {| status := error; url := None;
              error_message := Some "Rate limit exceeded" |});
    [ vm_compute; reflexivity | vm_compute; reflexivity | reflexivity
    | vm_compute; reflexivity | reflexivity ].
Defined.

Lemma download_all_refused_for_unknown_style_witness :
  Pool.completed (run_selection [0; 1; 0; 0]%nat) = true /\
  exists messageKey,
    Download.handleDownloadAll
      (map_to_list (Pool.generatedImages (run_selection [0; 1; 0; 0]%nat)))
      sample_selection
    = Download.Alert messageKey.
Proof.
  split; [vm_compute; reflexivity|].
  apply (download_all_refused_for_unknown_style sample_styles sample_generate
           sample_styles_distinct (Some sample_url) sample_selection []
           [0; 1; 0; 0]%nat (run_selection []) (run_selection [0; 1; 0; 0]%nat)
           (map_to_list (Pool.generatedImages (run_selection [0; 1; 0; 0]%nat)))
           "made_up").
  - vm_compute. reflexivity.
  - vm_compute. reflexivity.
  - reflexivity.
  - apply list_elem_of_further, list_elem_of_here.
  - apply (bool_decide_unpack _). vm_compute. exact I.
Defined.

Lemma archive_files_are_the_data_urls_witness :
  Download.handleDownloadAll sample_entries ["smiling_portrait"]
  = Download.Archive [("smiling-portrait.png", "iVBORw0KGgo=")] /\
  (("smiling-portrait.png", "iVBORw0KGgo=")
     ∈ [("smiling-portrait.png", "iVBORw0KGgo=")]
   <-> exists id g ext,
         (id, g) ∈ sample_entries /\ status g = done
         /\ ext ∈ ["png"; "jpeg"; "webp"]
         /\ url g = Some (Download.image_url ext "iVBORw0KGgo=")
         /\ Download.has_line_terminator (list_ascii_of_string "iVBORw0KGgo=") = false
         /\ "smiling-portrait.png" = Download.safeFileName id +:+ "." +:+ ext).
Proof.
  split; [vm_compute; reflexivity|].
  apply (archive_files_are_the_data_urls sample_entries ["smiling_portrait"]).
  vm_compute. reflexivity.
Defined.

Lemma regenerations_respect_cooldown_witness :
  Shake.regenerations sample_sqrt sample_drags Shake.initial
  = [Fin 10016; Fin 13000] /\
  gt (sub (Fin 13000) (Fin 10016)) (Fin 2000) = true.
Proof.
  split; [vm_compute; reflexivity|].
  apply (regenerations_respect_cooldown sample_sqrt sample_drags Shake.initial 1);
    vm_compute; reflexivity.
Defined.

Lemma offered_print_sizes_fit_witness :
  exists (canvas : Canvas) (photos : nat),
    createPrintSheet sample_browser sample_url
      (component (PortraitGenerator.size_components "3.5x4.5").1)
      (component (PortraitGenerator.size_components "3.5x4.5").2)
    = (canvas, Returns (toDataURL sample_browser canvas "image/jpeg" (95 # 100)))
    /\ PortraitGenerator.handleGeneratePrintSheet sample_browser (Some sample_url)
         "3.5x4.5"
         {| PortraitGenerator.printSheet := None;
            PortraitGenerator.error := None;
            PortraitGenerator.isCreatingSheet := false |}
       = {| PortraitGenerator.printSheet :=
              Some (toDataURL sample_browser canvas "image/jpeg" (95 # 100));
            PortraitGenerator.error := None;
            PortraitGenerator.isCreatingSheet := false |}
    /\ length (calls canvas) = S photos
    /\ ("3.5x4.5", photos)
       ∈ [("2x3", 16); ("3x4", 9); ("4x6", 4); ("3.5x4.5", 6); ("5x5", 2)]%nat.
Proof.
  apply (offered_print_sizes_fit sample_browser sample_url sample_image "3.5x4.5"
           {| PortraitGenerator.printSheet := None;
              PortraitGenerator.error := None;
              PortraitGenerator.isCreatingSheet := false |}).
  - do 3 apply list_elem_of_further. apply list_elem_of_here.
  - reflexivity.
  - reflexivity.
  - discriminate.
Defined.
